(** * poc-ipfs: the [ipfsStore] route (api/src/routes/ipfsStore.ts)

    The route is one [async] function wrapped in a single [try]/[catch].
    It is embedded as a program tree whose nodes are the awaited calls to
    the collaborators (IOTA node, IPFS, DynamoDB services); the tree is run
    against a world that holds the persisted allocation state and the
    chronological log of the calls made.  The same tree is run alone
    ([run]) and interleaved with other requests at its [await]s
    ([interleave]). *)

From Stdlib Require Import ZArith Lia.
From stdpp Require Import base option list strings gmap sorting.

Open Scope Z_scope.

(** ** Thrown values *)

(** A JavaScript [Error] object: its [name] and its [message]. *)
Record Exn := { exn_name : string; exn_message : string }.

(** [new Error(msg)] *)
Definition new_Error (msg : string) : Exn :=
  {| exn_name := "Error"; exn_message := msg |}.

(** The [TypeError] the engine raises on a property access on [null] or
    [undefined]. *)
Definition new_TypeError (msg : string) : Exn :=
  {| exn_name := "TypeError"; exn_message := msg |}.

(** [Error.prototype.toString] *)
Definition toString (e : Exn) : string :=
  if String.eqb (exn_name e) "" then exn_message e
  else if String.eqb (exn_message e) "" then exn_name e
  else exn_name e +:+ ": " +:+ exn_message e.

(** The outcome of a call: a thrown value (a rejected promise) or a value.
    The collaborators and the library functions of this development throw
    and reject with [Error] objects. *)
Definition Result (A : Type) : Type := Exn + A.

(** What a [catch] clause can receive.  JavaScript lets any value be
    thrown or be the reason of a rejection: besides [Error] objects, the
    two values on which reading a property raises a [TypeError]. *)
Inductive Thrown :=
| ThrownError (e : Exn)
| ThrownNull
| ThrownUndefined.

(** ** Data *)

(** models/api/IIPFSStoreRequest *)
Record IIPFSStoreRequest := {
  req_name : string;
  req_description : string;
  req_size : Z;
  req_modified : string;
  req_algorithm : string;
  req_hash : string;
  req_data : string
}.

(** models/api/IIPFSStoreResponse; the optional fields are [None] when the
    object literal does not set them. *)
Record IIPFSStoreResponse := {
  success : bool;
  message : string;
  transactionHash : option string;
  ipfs : option string
}.

(** The parts of models/configuration/IConfiguration the route reads. *)
Record IConfiguration := {
  node_provider : string;
  node_depth : Z;
  node_mwm : Z;
  ipfs_provider : string;
  ipfs_token : option string;
  dynamoDbConnection : string
}.

(** The object literal passed to [ipfsClient]. *)
Record IpfsConfig := {
  protocol : string;
  host : string;
  port : string;
  api_path : string;
  headers : option string
}.

(** models/tangle/IPayload; [ipfs] is [undefined] when the add stream
    yielded no file. *)
Record IPayload := {
  pl_name : string;
  pl_description : string;
  pl_size : Z;
  pl_modified : string;
  pl_algorithm : string;
  pl_hash : string;
  pl_ipfs : option string
}.

(** The allocation state record kept by [StateService].  [addressIndex]
    is a JavaScript number that counts allocations; it is an integer here,
    as it is in the code for every count below 2^53. *)
Record IState := {
  seed : string;
  id : string;
  addressIndex : Z
}.

(** One element of the transfers array given to [prepareTransfers]. *)
Record Transfer := {
  address : string;
  value : Z;
  tmessage : string
}.

(** A transaction object returned by [sendTrytes]: the two fields the route
    reads, and the rest of the object. *)
Record Transaction := {
  tx_hash : string;
  tx_bundle : string;
  tx_rest : string
}.

(** The item written by [BundleCacheService.set]. *)
Record IBundle := {
  bundle_id : string;
  transactionHashes : list string
}.

(** The item written by [TransactionCacheService.set]; [trytes] is
    [attachedTrytes[i]], [undefined] past the end of the array. *)
Record ITransaction := {
  transaction_id : string;
  trytes : option string
}.

Global Instance Exn_eq_dec : EqDecision Exn.
Proof. solve_decision. Defined.
Global Instance IState_eq_dec : EqDecision IState.
Proof. solve_decision. Defined.

(** ** Awaited calls and their log *)

(** The calls whose outcome is decided outside the route.  All of them are
    awaited, except [TrytesHelper.generateHash], which is synchronous but
    draws fresh randomness. *)
Inductive Ext : Type -> Type :=
| IsNodeAvailable (provider : string) (throwIfUnavailable : bool) : Ext bool
| IpfsAdd (cfg : IpfsConfig) (buffer : list Byte.byte) : Ext (list string)
| StateGet (key : string) : Ext (option IState)
| StateSet (st : IState) : Ext unit
| GenerateHash : Ext string
| PrepareTransfers (sd : string) (transfers : list Transfer) : Ext (list string)
| SendTrytes (ts : list string) (depth mwm : Z) : Ext (list Transaction)
| BundleCacheSet (b : IBundle) : Ext unit
| TransactionCacheSet (t : ITransaction) : Ext unit.

(** One entry of the log: the call made and its outcome. *)
Inductive Event : Type :=
| EvIsNodeAvailable (provider : string) (r : Result bool)
| EvIpfsAdd (cfg : IpfsConfig) (buffer : list Byte.byte) (r : Result (list string))
| EvStateGet (key : string) (r : Result (option IState))
| EvStateSet (st : IState) (r : Result unit)
| EvGenerateHash (r : Result string)
| EvPrepareTransfers (sd : string) (transfers : list Transfer) (r : Result (list string))
| EvSendTrytes (ts : list string) (depth mwm : Z) (r : Result (list Transaction))
| EvBundleCacheSet (b : IBundle) (r : Result unit)
| EvTransactionCacheSet (t : ITransaction) (r : Result unit).

Definition event_of {X} (c : Ext X) : Result X -> Event :=
  match c in Ext X return Result X -> Event with
  | IsNodeAvailable p _ => EvIsNodeAvailable p
  | IpfsAdd cfg b => EvIpfsAdd cfg b
  | StateGet k => EvStateGet k
  | StateSet st => EvStateSet st
  | GenerateHash => EvGenerateHash
  | PrepareTransfers s t => EvPrepareTransfers s t
  | SendTrytes t d m => EvSendTrytes t d m
  | BundleCacheSet b => EvBundleCacheSet b
  | TransactionCacheSet t => EvTransactionCacheSet t
  end.

(** ** The world *)

(** Modelled from the spec: services/stateService (StateService) is not
    among the sources.  Its backing store is "a durable key-value medium"
    with "point lookups by key"; the key of an item is its [id], so the
    table maps an id to the other two fields. *)
Definition table_get (tbl : gmap string (string * Z)) (key : string) : option IState :=
  (fun '(s, i) => {| seed := s; id := key; addressIndex := i |}) <$> tbl !! key.

Definition table_set (st : IState) (tbl : gmap string (string * Z)) : gmap string (string * Z) :=
  <[ id st := (seed st, addressIndex st) ]> tbl.

Record World := {
  stateTable : gmap string (string * Z);
  trace : list Event
}.

(** What the collaborators answer, as a function of everything that
    happened so far.  The state service only chooses whether a call
    fails; what a successful [get] returns is the table's content. *)
Record Services := {
  isNodeAvailable : World -> string -> bool -> Result bool;
  ipfs_add : World -> IpfsConfig -> list Byte.byte -> Result (list string);
  stateService_get_fails : World -> string -> option Exn;
  stateService_set_fails : World -> IState -> option Exn;
  generateHash : World -> Result string;
  prepareTransfers : World -> string -> list Transfer -> Result (list string);
  sendTrytes : World -> list string -> Z -> Z -> Result (list Transaction);
  bundleCacheService_set : World -> IBundle -> Result unit;
  transactionCacheService_set : World -> ITransaction -> Result unit
}.

Definition handle (sv : Services) (w : World) {X} (c : Ext X) : Result X :=
  match c in Ext X return Result X with
  | IsNodeAvailable p t => isNodeAvailable sv w p t
  | IpfsAdd cfg b => ipfs_add sv w cfg b
  | StateGet k =>
      match stateService_get_fails sv w k with
      | Some e => inl e
      | None => inr (table_get (stateTable w) k)
      end
  | StateSet st =>
      match stateService_set_fails sv w st with
      | Some e => inl e
      | None => inr tt
      end
  | GenerateHash => generateHash sv w
  | PrepareTransfers s t => prepareTransfers sv w s t
  | SendTrytes t d m => sendTrytes sv w t d m
  | BundleCacheSet b => bundleCacheService_set sv w b
  | TransactionCacheSet t => transactionCacheService_set sv w t
  end.

(** A successful [StateService.set] writes the item; every call is logged. *)
Definition table_after {X} (c : Ext X) : Result X ->
    gmap string (string * Z) -> gmap string (string * Z) :=
  match c in Ext X return Result X -> _ with
  | StateSet st => fun r tbl => match r with inr _ => table_set st tbl | inl _ => tbl end
  | _ => fun _ tbl => tbl
  end.

Definition effect (w : World) {X} (c : Ext X) (r : Result X) : World :=
  {| stateTable := table_after c r (stateTable w);
     trace := trace w ++ [event_of c r] |}.

(** ** Programs *)

Inductive Prog (A : Type) : Type :=
| Ret (a : A)
| Throw (e : Exn)
| Await {X : Type} (c : Ext X) (k : Result X -> Prog A).

Arguments Ret {A} a.
Arguments Throw {A} e.
Arguments Await {A X} c k.

Fixpoint bind {A B} (p : Prog A) (f : A -> Prog B) : Prog B :=
  match p with
  | Ret a => f a
  | Throw e => Throw e
  | Await c k => Await c (fun r => bind (k r) f)
  end.

(** [await c]: a rejection is rethrown at the [await]. *)
Definition await {X} (c : Ext X) : Prog X :=
  Await c (fun r => match r with inl e => Throw e | inr x => Ret x end).

(** A synchronous library call that may throw. *)
Definition lift {A} (r : Result A) : Prog A :=
  match r with inl e => Throw e | inr a => Ret a end.

(** [try { p } catch (err) { h err }] *)
Fixpoint try_catch {A} (p : Prog A) (h : Exn -> Prog A) : Prog A :=
  match p with
  | Ret a => Ret a
  | Throw e => h e
  | Await c k => Await c (fun r => try_catch (k r) h)
  end.

Declare Scope prog_scope.
Delimit Scope prog_scope with prog.
Notation "x <- p ;; q" := (bind p (fun x => q))
  (at level 100, p at next level, right associativity) : prog_scope.
Notation "p ;; q" := (bind p (fun _ => q))
  (at level 100, right associativity) : prog_scope.
Open Scope prog_scope.

(** [for (const x of l) { await body(x) }] *)
Fixpoint for_each {A} (l : list A) (body : A -> Prog unit) : Prog unit :=
  match l with
  | [] => Ret tt
  | x :: l' => body x ;; for_each l' body
  end.

(** Running one request to completion, with nothing else in between. *)
Fixpoint run {A} (sv : Services) (p : Prog A) (w : World) : Result A * World :=
  match p with
  | Ret a => (inr a, w)
  | Throw e => (inl e, w)
  | Await c k => let r := handle sv w c in run sv (k r) (effect w c r)
  end.

(** One turn of a request: the pending call is answered and the request
    runs on to its next [await]. *)
Definition step_task {A} (sv : Services) (p : Prog A) (w : World) : Prog A * World :=
  match p with
  | Await c k => let r := handle sv w c in (k r, effect w c r)
  | _ => (p, w)
  end.

(** Requests in flight together: the schedule names, turn by turn, the
    request whose pending call completes. *)
Fixpoint interleave {A} (sv : Services) (schedule : list nat)
    (tasks : list (Prog A)) (w : World) : list (Prog A) * World :=
  match schedule with
  | [] => (tasks, w)
  | i :: rest =>
      match tasks !! i with
      | Some p =>
          let '(p', w') := step_task sv p w in
          interleave sv rest (<[ i := p' ]> tasks) w'
      | None => interleave sv rest tasks w
      end
  end.

(** ** Library functions *)

(** The synchronous functions the route calls and does not define.
    [ValidationHelper] (utils/validationHelper) and [TrytesHelper.toTrytes]
    (utils/trytesHelper) belong to the repository but are not among the
    sources; the others come from Node ([Buffer.from], [crypto]), from the
    [sha3], [@iota/core] and [@iota/transaction-converter] packages and from
    the regular expression engine.  [provider_exec s] is the result of
    [exec] for the provider pattern of line 67 (protocol, host, port and
    path groups) on [s]: [None] for [null].  [asTransactionTrytes]
    converts the transaction objects of an array and throws when one of
    them cannot be converted; of the empty array it is the empty array. *)
Record Library := {
  ValidationHelper_string : string -> string -> Result unit;
  ValidationHelper_number : Z -> string -> Result unit;
  Buffer_from_base64 : string -> list Byte.byte;
  sha256_hex : list Byte.byte -> string;
  sha3_256_hex : list Byte.byte -> string;
  provider_exec : string -> option (list string);
  generateAddress : string -> Z -> Z -> Result string;
  toTrytes : IPayload -> Result string;
  asTransactionTrytes : list Transaction -> Result (list string);
  asTransactionTrytes_nil : asTransactionTrytes [] = inr []
}.

(** [s.repeat(n)] *)
Fixpoint repeat_string (s : string) (n : nat) : string :=
  match n with
  | O => ""
  | S n' => s +:+ repeat_string s n'
  end.

(** How a template literal prints a value that may be [undefined]. *)
Definition interpolate (v : option string) : string :=
  match v with
  | Some s => s
  | None => "undefined"
  end.

(** ** The route *)

Section Route.

Context (lib : Library).

(** [0.5 * 1048576] *)
Definition maxSize : Z := 524288.

Definition tooLargeMessage : string :=
  "The file is too large for this demonstration, it should be less than 0.5 Mb.".

Definition emptyMessage : string :=
  "The file must be greater than 0 bytes in length.".

Definition hashMessage (sent : string) (hex : option string) : string :=
  "The hash for the file is incorrect '" +:+ sent +:+
  "' was sent but it has been calculated as '" +:+ interpolate hex +:+ "'".

Definition providerMessage : string :=
  "The IPFS Provider is not formatted correctly, it should be in the format https://ipfs.mydomain.com:443/api/v0/".

(** Lines 25-31. *)
Definition validate (request : IIPFSStoreRequest) : Prog unit :=
  lift (ValidationHelper_string lib (req_name request) "name") ;;
  lift (ValidationHelper_string lib (req_description request) "description") ;;
  lift (ValidationHelper_number lib (req_size request) "size") ;;
  lift (ValidationHelper_string lib (req_modified request) "modified") ;;
  lift (ValidationHelper_string lib (req_algorithm request) "algorithm") ;;
  lift (ValidationHelper_string lib (req_hash request) "hash") ;;
  lift (ValidationHelper_string lib (req_data request) "data").

(** Lines 39-48: the size limit is tested first, then emptiness. *)
Definition checkSize (buffer : list Byte.byte) : Prog unit :=
  if Z.of_nat (length buffer) >=? maxSize then Throw (new_Error tooLargeMessage)
  else if Z.of_nat (length buffer) =? 0 then Throw (new_Error emptyMessage)
  else Ret tt.

(** Lines 50-60: [hex] stays [undefined] for any other algorithm name. *)
Definition computeHex (algorithm : string) (buffer : list Byte.byte) : option string :=
  if String.eqb algorithm "sha256" then Some (sha256_hex lib buffer)
  else if String.eqb algorithm "sha3" then Some (sha3_256_hex lib buffer)
  else None.

(** [hex !== request.hash], with [request.hash] a string. *)
Definition hexDiffers (hex : option string) (sent : string) : bool :=
  match hex with
  | Some h => negb (String.eqb h sent)
  | None => true
  end.

(** Lines 62-65. *)
Definition checkHash (request : IIPFSStoreRequest) (buffer : list Byte.byte) : Prog unit :=
  let hex := computeHex (req_algorithm request) buffer in
  if hexDiffers hex (req_hash request)
  then Throw (new_Error (hashMessage (req_hash request) hex))
  else Ret tt.

(** [if (config.ipfs.token)] *)
Definition truthy (s : option string) : bool :=
  match s with
  | Some t => negb (String.eqb t "")
  | None => false
  end.

(** Lines 67-85; reading [parts.length] of [null] raises a [TypeError]. *)
Definition makeIpfsConfig (config : IConfiguration) : Prog IpfsConfig :=
  match provider_exec lib (ipfs_provider config) with
  | None => Throw (new_TypeError "Cannot read property 'length' of null")
  | Some parts =>
      if negb (length parts =? 5)%nat then Throw (new_Error providerMessage)
      else
        Ret {| protocol := nth 1 parts "";
               host := nth 2 parts "";
               port := nth 3 parts "";
               api_path := nth 4 parts "";
               headers :=
                 if truthy (ipfs_token config)
                 then Some ("Basic " +:+ interpolate (ipfs_token config))
                 else None |}
  end.

(** Lines 91-96: the [path] of the last file the stream yields. *)
Definition addToIpfs (cfg : IpfsConfig) (buffer : list Byte.byte) : Prog (option string) :=
  files <- await (IpfsAdd cfg buffer) ;;
  Ret (last files).

(** Lines 101-112: the address allocation step. *)
Definition allocate : Prog IState :=
  currentState <- await (StateGet "default") ;;
  match currentState with
  | None =>
      newSeed <- await GenerateHash ;;
      let currentState := {| seed := newSeed; id := "default"; addressIndex := 0 |} in
      await (StateSet currentState) ;;
      Ret currentState
  | Some st =>
      let currentState :=
        {| seed := seed st; id := id st; addressIndex := addressIndex st + 1 |} in
      await (StateSet currentState) ;;
      Ret currentState
  end.

(** Lines 118-143. *)
Definition anchor (config : IConfiguration) (request : IIPFSStoreRequest)
    (ipfsHash : option string) (currentState : IState) : Prog (list Transaction) :=
  nextAddress <- lift (generateAddress lib (seed currentState) (addressIndex currentState) 2) ;;
  let tanglePayload :=
    {| pl_name := req_name request;
       pl_description := req_description request;
       pl_size := req_size request;
       pl_modified := req_modified request;
       pl_algorithm := req_algorithm request;
       pl_hash := req_hash request;
       pl_ipfs := ipfsHash |} in
  msg <- lift (toTrytes lib tanglePayload) ;;
  ts <- await (PrepareTransfers (repeat_string "9" 81)
                 [ {| address := nextAddress; value := 0; tmessage := msg |} ]) ;;
  await (SendTrytes ts (node_depth config) (node_mwm config)).

(** The items of the loop at lines 155-157, in order:
    [{ id: bundles[i].hash, trytes: attachedTrytes[i] }]. *)
Definition transactionItems (attachedTrytes : list string) (bundles : list Transaction)
    : list ITransaction :=
  imap (fun i b => {| transaction_id := tx_hash b; trytes := attachedTrytes !! i |}) bundles.

(** Lines 146-157.  [asTransactionTrytes(bundles)] is evaluated, and may
    throw, before the first cache write; [bundles[0].bundle] on an empty
    array raises a [TypeError]. *)
Definition populateCache (bundles : list Transaction) : Prog (list string) :=
  let txHashes := map tx_hash bundles in
  attachedTrytes <- lift (asTransactionTrytes lib bundles) ;;
  match bundles with
  | [] => Throw (new_TypeError "Cannot read property 'bundle' of undefined")
  | b0 :: _ =>
      await (BundleCacheSet {| bundle_id := tx_bundle b0; transactionHashes := txHashes |}) ;;
      for_each (transactionItems attachedTrytes bundles)
        (fun t => await (TransactionCacheSet t)) ;;
      Ret txHashes
  end.

(** The body of the [try] block.  The [console.log] calls, the
    [Date.now()] readings they print and the constructors of the client
    objects ([ipfsClient], [composeAPI], [new StateService], ...) are left
    out. *)
Definition ipfsStore_try (config : IConfiguration) (request : IIPFSStoreRequest)
    : Prog IIPFSStoreResponse :=
  validate request ;;
  await (IsNodeAvailable (node_provider config) true) ;;
  let buffer := Buffer_from_base64 lib (req_data request) in
  checkSize buffer ;;
  checkHash request buffer ;;
  ipfsConfig <- makeIpfsConfig config ;;
  ipfsHash <- addToIpfs ipfsConfig buffer ;;
  currentState <- allocate ;;
  bundles <- anchor config request ipfsHash currentState ;;
  txHashes <- populateCache bundles ;;
  Ret {| success := true;
         message := "OK";
         transactionHash := head txHashes;
         ipfs := ipfsHash |}.

(** The [catch] block, lines 165-170, on any thrown value: it returns
    the response built from [err.toString()], and [err.toString] on
    [null] or [undefined] raises a [TypeError] inside the block, which
    then throws instead of returning. *)
Definition catch_block (err : Thrown) : Result IIPFSStoreResponse :=
  match err with
  | ThrownError e =>
      inr {| success := false;
             message := toString e;
             transactionHash := None;
             ipfs := None |}
  | ThrownNull => inl (new_TypeError "Cannot read property 'toString' of null")
  | ThrownUndefined => inl (new_TypeError "Cannot read property 'toString' of undefined")
  end.

(** The [catch] block on the [Error] objects the try block of this
    development throws. *)
Definition ipfsStore_catch (err : Exn) : Prog IIPFSStoreResponse :=
  lift (catch_block (ThrownError err)).

Definition ipfsStore (config : IConfiguration) (request : IIPFSStoreRequest)
    : Prog IIPFSStoreResponse :=
  try_catch (ipfsStore_try config request) ipfsStore_catch.

End Route.

Arguments transactionItems : simpl never.

(** ** The calls a program makes *)

(** The log entries that running [p] from [w] appends, in order. *)
Fixpoint log {A} (sv : Services) (p : Prog A) (w : World) : list Event :=
  match p with
  | Await c k =>
      let r := handle sv w c in
      event_of c r :: log sv (k r) (effect w c r)
  | _ => []
  end.

(** The thrown value an entry records, if the call failed. *)
Definition failure (ev : Event) : option Exn :=
  match ev with
  | EvIsNodeAvailable _ (inl e)
  | EvIpfsAdd _ _ (inl e)
  | EvStateGet _ (inl e)
  | EvStateSet _ (inl e)
  | EvGenerateHash (inl e)
  | EvPrepareTransfers _ _ (inl e)
  | EvSendTrytes _ _ _ (inl e)
  | EvBundleCacheSet _ (inl e)
  | EvTransactionCacheSet _ (inl e) => Some e
  | _ => None
  end.

(** The node availability probe. *)
Definition isProbe (ev : Event) : bool :=
  match ev with
  | EvIsNodeAvailable _ _ => true
  | _ => false
  end.

(** A ledger submission. *)
Definition isSubmission (ev : Event) : bool :=
  match ev with
  | EvSendTrytes _ _ _ _ => true
  | _ => false
  end.

(** A read or a write of the allocation state. *)
Definition isStateAccess (ev : Event) : bool :=
  match ev with
  | EvStateGet _ _ | EvStateSet _ _ => true
  | _ => false
  end.

(** A write to the content store. *)
Definition isContentWrite (ev : Event) : bool :=
  match ev with
  | EvIpfsAdd _ _ _ => true
  | _ => false
  end.

(** No content-store write, no access to the allocation state and no
    ledger submission. *)
Definition harmless (ev : Event) : Prop :=
  isContentWrite ev = false /\ isStateAccess ev = false /\ isSubmission ev = false.

(** The states persisted by successful [StateService.set] calls: each is
    the [(seed, index)] its request goes on to derive an address from. *)
Fixpoint allocations (evs : list Event) : list IState :=
  match evs with
  | [] => []
  | EvStateSet st (inr _) :: evs' => st :: allocations evs'
  | _ :: evs' => allocations evs'
  end.

(** The log from the first ledger submission on. *)
Fixpoint from_submission (evs : list Event) : list Event :=
  match evs with
  | [] => []
  | ev :: evs' => if isSubmission ev then ev :: evs' else from_submission evs'
  end.

(** The thrown value of the first failed call of a log. *)
Fixpoint first_failure (evs : list Event) : option Exn :=
  match evs with
  | [] => None
  | ev :: evs' =>
      match failure ev with
      | Some e => Some e
      | None => first_failure evs'
      end
  end.

(** The log entry of a successful [TransactionCacheService.set]. *)
Definition cached (t : ITransaction) : Event := EvTransactionCacheSet t (inr tt).

(** The files the first successful content-store write yielded. *)
Fixpoint added (evs : list Event) : option (list string) :=
  match evs with
  | [] => None
  | EvIpfsAdd _ _ (inr files) :: _ => Some files
  | _ :: evs' => added evs'
  end.

(** The seed the first successful [TrytesHelper.generateHash] returned. *)
Fixpoint generated (evs : list Event) : option string :=
  match evs with
  | [] => None
  | EvGenerateHash (inr s) :: _ => Some s
  | _ :: evs' => generated evs'
  end.

(** The transfers arrays given to [prepareTransfers], in order. *)
Fixpoint prepared (evs : list Event) : list (list Transfer) :=
  match evs with
  | [] => []
  | EvPrepareTransfers _ transfers _ :: evs' => transfers :: prepared evs'
  | _ :: evs' => prepared evs'
  end.

(** The log up to the first successful [StateService.set], excluded. *)
Fixpoint until_persist (evs : list Event) : list Event :=
  match evs with
  | [] => []
  | EvStateSet _ (inr _) :: _ => []
  | ev :: evs' => ev :: until_persist evs'
  end.

(** What the allocation step makes of the stored state: a first state
    with the generated seed and index 0, or the stored one with its index
    incremented. *)
Definition next_state (stored : option IState) (fresh_seed : option string)
    (st : IState) : Prop :=
  match stored with
  | None => fresh_seed = Some (seed st) /\ id st = "default" /\ addressIndex st = 0
  | Some old =>
      seed st = seed old /\ id st = id old /\ addressIndex st = addressIndex old + 1
  end.

(** [every_path p Q]: whatever the collaborators answer, the calls [p]
    makes and the way it ends satisfy [Q]. *)
Fixpoint every_path {A} (p : Prog A) (Q : list Event -> Result A -> Prop) : Prop :=
  match p with
  | Ret a => Q [] (inr a)
  | Throw e => Q [] (inl e)
  | Await c k => forall r, every_path (k r) (fun evs res => Q (event_of c r :: evs) res)
  end.

(** An answer the state service can give when the table is [tbl]: a
    successful [get] returns the table's content. *)
Definition answer_ok (tbl : gmap string (string * Z)) {X} (c : Ext X) : Result X -> Prop :=
  match c in Ext X return Result X -> Prop with
  | StateGet k => fun r =>
      match r with
      | inr v => v = table_get tbl k
      | inl _ => True
      end
  | _ => fun _ => True
  end.

(** [every_path_from tbl p Q]: started with the table [tbl], whatever the
    collaborators answer, the calls [p] makes, the way it ends and the
    table it leaves satisfy [Q]. *)
Fixpoint every_path_from {A} (tbl : gmap string (string * Z)) (p : Prog A)
    (Q : list Event -> Result A -> gmap string (string * Z) -> Prop) : Prop :=
  match p with
  | Ret a => Q [] (inr a) tbl
  | Throw e => Q [] (inl e) tbl
  | Await c k =>
      forall r, answer_ok tbl c r ->
        every_path_from (table_after c r tbl) (k r)
          (fun evs res tbl' => Q (event_of c r :: evs) res tbl')
  end.

(** [s.includes(sub)] *)
Definition includes (s sub : string) : Prop :=
  exists pre post, s = pre +:+ sub +:+ post.

(** [s.toLowerCase()] on ASCII letters. *)
Definition lowerChar (c : Ascii.ascii) : Ascii.ascii :=
  let n := Ascii.N_of_ascii c in
  if ((65 <=? n) && (n <=? 90))%N then Ascii.ascii_of_N (n + 32) else c.

Fixpoint toLowerCase (s : string) : string :=
  match s with
  | EmptyString => EmptyString
  | String c s' => String (lowerChar c) (toLowerCase s')
  end.

(** The table after replaying the successful writes of a log. *)
Fixpoint replay (evs : list Event) (tbl : gmap string (string * Z)) : gmap string (string * Z) :=
  match evs with
  | [] => tbl
  | EvStateSet st (inr _) :: evs' => replay evs' (table_set st tbl)
  | _ :: evs' => replay evs' tbl
  end.

(** A program in which every [await] rethrows a rejection: no call is
    wrapped in an inner [try]. *)
Inductive strict {A} : Prog A -> Prop :=
| strict_Ret a : strict (Ret a)
| strict_Throw e : strict (Throw e)
| strict_Await X (c : Ext X) k :
    (forall e, k (inl e) = Throw e) ->
    (forall x, strict (k (inr x))) ->
    strict (Await c k).

(** Requests served one after another: each is awaited before the next
    one starts. *)
Fixpoint serve (lib : Library) (config : IConfiguration)
    (requests : list IIPFSStoreRequest) : Prog (list IIPFSStoreResponse) :=
  match requests with
  | [] => Ret []
  | request :: rest =>
      response <- ipfsStore lib config request ;;
      responses <- serve lib config rest ;;
      Ret (response :: responses)
  end.

(** A list of allocated states that continues the stored one: each index
    is the previous one plus one, from 0 when nothing is stored, under
    the key "default" and, after the first, with the same seed. *)
Fixpoint chain (stored : option IState) (l : list IState) : Prop :=
  match l with
  | [] => True
  | st :: l' =>
      id st = "default" /\
      match stored with
      | None => addressIndex st = 0
      | Some old => seed st = seed old /\ addressIndex st = addressIndex old + 1
      end /\
      chain (Some st) l'
  end.

(** The last allocated state, or the stored one when none was allocated. *)
Definition latest (stored : option IState) (l : list IState) : option IState :=
  match last l with
  | Some st => Some st
  | None => stored
  end.

(** The stored index after the requests [tasks], in flight together, took
    the turns of [schedule]. *)
Definition index_after (sv : Services) (schedule : list nat)
    (tasks : list (Prog IIPFSStoreResponse)) (w : World) : option Z :=
  addressIndex <$> table_get (stateTable (snd (interleave sv schedule tasks w))) "default".

(** The schedule that serves the requests one after another: request [i]
    takes all its turns, then request [i + 1] takes all of its own, and so
    on. *)
Fixpoint one_by_one (lib : Library) (sv : Services) (config : IConfiguration)
    (i : nat) (requests : list IIPFSStoreRequest) (w : World) : list nat :=
  match requests with
  | [] => []
  | request :: rest =>
      replicate (length (log sv (ipfsStore lib config request) w)) i ++
      one_by_one lib sv config (S i) rest (snd (run sv (ipfsStore lib config request) w))
  end.

(** ** The claims as worded, where the code departs from them *)

(** C1, as the claim words it: every request whose recomputed hash differs
    from the declared one is answered with success=false and a message
    that contains the calculated hash. *)
Definition answers_with_calculated_hash lib sv cfg req w : Prop :=
  exists resp,
    fst (run sv (ipfsStore lib cfg req) w) = inr resp /\
    success resp = false /\
    includes (message resp)
      (interpolate (computeHex lib (req_algorithm req)
                      (Buffer_from_base64 lib (req_data req)))).

(** C3, as the claim words it: the stored index never decreases, whatever
    happens after a point in time. *)
Definition index_never_decreases (sv : Services) (before after : list nat)
    (tasks : list (Prog IIPFSStoreResponse)) (w : World) : Prop :=
  forall i j,
    index_after sv before tasks w = Some i ->
    index_after sv (before ++ after) tasks w = Some j ->
    i <= j.

(** C4, as the claim words it: requests in flight together are never
    issued the same (seed, index). *)
Definition issues_distinct_indices (sv : Services) (schedule : list nat)
    (tasks : list (Prog IIPFSStoreResponse)) (w : World) : Prop :=
  NoDup (allocations (trace (snd (interleave sv schedule tasks w)))).

(** C5, as the claim words it: a declared hash that differs from the
    recomputed digest only in letter case passes the comparison. *)
Definition accepts_up_to_case lib req buffer : Prop :=
  forall h,
    computeHex lib (req_algorithm req) buffer = Some h ->
    toLowerCase (req_hash req) = toLowerCase h ->
    checkHash lib req buffer = Ret tt.

(** C6, as the claim words it: both size checks are performed before any
    network call, so a request they reject has made no call at all. *)
Definition checks_before_any_call lib sv cfg req w : Prop :=
  checkSize (Buffer_from_base64 lib (req_data req)) <> Ret tt ->
  log sv (ipfsStore lib cfg req) w = [].

(** C7, as the claim words it: a request whose data decodes to the empty
    buffer is answered with the empty-file error, and one whose data
    decodes to a buffer at or above the limit with the too-large error. *)
Definition answers_with_size_error lib sv cfg req w : Prop :=
  let buffer := Buffer_from_base64 lib (req_data req) in
  length buffer = 0%nat \/ maxSize <= Z.of_nat (length buffer) ->
  exists resp,
    fst (run sv (ipfsStore lib cfg req) w) = inr resp /\
    success resp = false /\
    message resp =
      toString (new_Error (if (length buffer =? 0)%nat then emptyMessage else tooLargeMessage)).

(** C9, as the claim words it: whenever the submission to the ledger
    succeeded, the result is success=true with the hash of the first
    transaction of the bundle and the content id, and the cache holds the
    bundle and one entry per transaction. *)
Definition submission_gives_success lib sv cfg req w : Prop :=
  forall ts d m bundles,
    EvSendTrytes ts d m (inr bundles) ∈ log sv (ipfsStore lib cfg req) w ->
    exists resp b0 cid,
      fst (run sv (ipfsStore lib cfg req) w) = inr resp /\
      success resp = true /\
      head bundles = Some b0 /\
      transactionHash resp = Some (tx_hash b0) /\
      ipfs resp = Some cid /\
      EvBundleCacheSet {| bundle_id := tx_bundle b0;
                          transactionHashes := map tx_hash bundles |} (inr tt)
        ∈ log sv (ipfsStore lib cfg req) w /\
      forall b, b ∈ bundles ->
        exists t, transaction_id t = tx_hash b /\
          EvTransactionCacheSet t (inr tt) ∈ log sv (ipfsStore lib cfg req) w.

(** ** The order and the arguments of the calls *)

(** The position of a call in the text of the route: the probe (line 33),
    the content-store write (91), the read of the allocation state (101),
    the seed generation (104), the write of the state (112),
    [prepareTransfers] (131), [sendTrytes] (143), the bundle cache write
    (149) and the transaction cache writes of the loop (156). *)
Definition stage (ev : Event) : nat :=
  match ev with
  | EvIsNodeAvailable _ _ => 0
  | EvIpfsAdd _ _ _ => 1
  | EvStateGet _ _ => 2
  | EvGenerateHash _ => 3
  | EvStateSet _ _ => 4
  | EvPrepareTransfers _ _ _ => 5
  | EvSendTrytes _ _ _ _ => 6
  | EvBundleCacheSet _ _ => 7
  | EvTransactionCacheSet _ _ => 8
  end.

(** [a] may come before [b] in the log of one request: [b] is a later
    call in the text, or both are writes of the loop. *)
Definition call_order (a b : Event) : Prop :=
  (stage a < stage b)%nat \/ (stage a = 8%nat /\ stage b = 8%nat).

(** The trytes the first successful [prepareTransfers] returned. *)
Fixpoint prepared_trytes (evs : list Event) : option (list string) :=
  match evs with
  | [] => None
  | EvPrepareTransfers _ _ (inr ts) :: _ => Some ts
  | _ :: evs' => prepared_trytes evs'
  end.

(** The transactions the first successful [sendTrytes] returned. *)
Fixpoint submitted (evs : list Event) : option (list Transaction) :=
  match evs with
  | [] => None
  | EvSendTrytes _ _ _ (inr bundles) :: _ => Some bundles
  | _ :: evs' => submitted evs'
  end.

(** What the route guarantees of a call [ev] of its log [evs]: the
    arguments it was made with, and what was checked or obtained before
    it. *)
Definition call_ok (lib : Library) (config : IConfiguration) (request : IIPFSStoreRequest)
    (evs : list Event) (ev : Event) : Prop :=
  let buffer := Buffer_from_base64 lib (req_data request) in
  match ev with
  | EvIsNodeAvailable provider _ =>
      provider = node_provider config /\ validate lib request = Ret tt
  | EvIpfsAdd cfg b _ =>
      b = buffer /\
      validate lib request = Ret tt /\
      makeIpfsConfig lib config = Ret cfg /\
      checkSize buffer = Ret tt /\
      checkHash lib request buffer = Ret tt
  | EvStateGet key _ =>
      key = "default" /\ exists files, added evs = Some files
  | EvPrepareTransfers sd transfers _ =>
      sd = repeat_string "9" 81 /\
      exists files a msg,
        added evs = Some files /\
        toTrytes lib {| pl_name := req_name request;
                        pl_description := req_description request;
                        pl_size := req_size request;
                        pl_modified := req_modified request;
                        pl_algorithm := req_algorithm request;
                        pl_hash := req_hash request;
                        pl_ipfs := last files |} = inr msg /\
        transfers = [ {| address := a; value := 0; tmessage := msg |} ]
  | EvSendTrytes ts depth mwm _ =>
      depth = node_depth config /\ mwm = node_mwm config /\
      prepared_trytes evs = Some ts
  | EvBundleCacheSet b _ =>
      exists b0 rest attachedTrytes,
        submitted evs = Some (b0 :: rest) /\
        asTransactionTrytes lib (b0 :: rest) = inr attachedTrytes /\
        b = {| bundle_id := tx_bundle b0;
               transactionHashes := map tx_hash (b0 :: rest) |}
  | EvTransactionCacheSet t _ =>
      exists bundles attachedTrytes,
        submitted evs = Some bundles /\
        asTransactionTrytes lib bundles = inr attachedTrytes /\
        t ∈ transactionItems attachedTrytes bundles
  | EvStateSet _ _ | EvGenerateHash _ => True
  end.

(** What the route guarantees of a call on the allocation state when it
    started with the table [tbl]. *)
Definition state_call_ok (tbl : gmap string (string * Z)) (evs : list Event)
    (ev : Event) : Prop :=
  match ev with
  | EvGenerateHash _ => table_get tbl "default" = None
  | EvStateSet st _ =>
      id st = "default" /\ next_state (table_get tbl "default") (generated evs) st
  | _ => True
  end.

(** A program that reads the allocation state only under "default" and,
    as long as what it reads satisfies [R], writes only states that
    satisfy [W]. *)
Definition call_guard (W : IState -> Prop) {X} (c : Ext X) : Prop :=
  match c with
  | StateGet key => key = "default"
  | StateSet st => W st
  | _ => True
  end.

Definition read_guard (R : option IState -> Prop) {X} (c : Ext X) : Result X -> Prop :=
  match c in Ext X return Result X -> Prop with
  | StateGet _ => fun r =>
      match r with
      | inr v => R v
      | inl _ => True
      end
  | _ => fun _ => True
  end.

Fixpoint guarded (R : option IState -> Prop) (W : IState -> Prop) {A} (p : Prog A) : Prop :=
  match p with
  | Await c k => call_guard W c /\ forall r, read_guard R c r -> guarded R W (k r)
  | _ => True
  end.

(** The outcome of the seven checks of lines 25-31, in order. *)
Definition validations (lib : Library) (request : IIPFSStoreRequest) : list (Result unit) :=
  [ ValidationHelper_string lib (req_name request) "name";
    ValidationHelper_string lib (req_description request) "description";
    ValidationHelper_number lib (req_size request) "size";
    ValidationHelper_string lib (req_modified request) "modified";
    ValidationHelper_string lib (req_algorithm request) "algorithm";
    ValidationHelper_string lib (req_hash request) "hash";
    ValidationHelper_string lib (req_data request) "data" ].

(** ** A concrete deployment, for the examples *)

Module Demo.

Definition hello : list Byte.byte := [Byte.x68; Byte.x65; Byte.x6c; Byte.x6c; Byte.x6f].

Definition sha256_hello : string :=
  "2cf24dba5fb0a30e26e83b2ac5b9e29e1b161e5c1fa7425e73043362938b9824".
Definition sha256_empty : string :=
  "e3b0c44298fc1c149afbf4c8996fb92427ae41e4649b934ca495991b7852b855".
Definition sha3_hello : string :=
  "3338be694f50c5f338814986cdf0686453a888b84f424d792af4b9202398f392".
Definition sha3_empty : string :=
  "a7ffc6f8bf1ed76651c14756a061d662f580ff4de43b49fa82d80a4b80f8434a".

(** 524288 zero bytes, and their base64 encoding: 174762 groups of three
    bytes and a last group of two. *)
Definition zeros : list Byte.byte := repeat Byte.x00 (Z.to_nat 524288).
Definition zeros_base64 : string :=
  repeat_string "AAAA" (Z.to_nat 174762) +:+ "AAA=".

Definition is_hello (b : list Byte.byte) : bool :=
  bool_decide (Byte.to_N <$> b = Byte.to_N <$> hello).

(** The library functions, tabulated on the inputs the examples use: the
    base64 decoding of ["aGVsbG8="] is ["hello"], that of [zeros_base64]
    is [zeros], that of padding alone is the empty buffer; the digests
    are given for ["hello"] and for the empty buffer, the only buffers
    the examples hash. *)
Definition lib : Library := {|
  ValidationHelper_string := fun _ _ => inr tt;
  ValidationHelper_number := fun _ _ => inr tt;
  Buffer_from_base64 := fun s =>
    if String.eqb s "aGVsbG8=" then hello
    else if String.eqb s zeros_base64 then zeros
    else [];
  sha256_hex := fun b =>
    if is_hello b then sha256_hello else match b with [] => sha256_empty | _ => "" end;
  sha3_256_hex := fun b =>
    if is_hello b then sha3_hello else match b with [] => sha3_empty | _ => "" end;
  provider_exec := fun s =>
    if String.eqb s "https://ipfs.example.com:443/api/v0/"
    then Some ["https://ipfs.example.com:443/api/v0/"; "https"; "ipfs.example.com"; "443"; "/api/v0/"]
    else None;
  generateAddress := fun s i _ => inr ("ADDRESS9" +:+ s +:+ "9" +:+ repeat_string "A" (Z.to_nat i));
  toTrytes := fun p => inr ("TRYTES9" +:+ pl_hash p);
  asTransactionTrytes := fun txs => inr (map (fun t => "TX9" +:+ tx_hash t) txs);
  asTransactionTrytes_nil := eq_refl
|}.

(** Collaborators that always answer. *)
Definition up : Services := {|
  isNodeAvailable := fun _ _ _ => inr true;
  ipfs_add := fun _ _ _ => inr ["QmHello"];
  stateService_get_fails := fun _ _ => None;
  stateService_set_fails := fun _ _ => None;
  generateHash := fun _ => inr "SEED";
  prepareTransfers := fun _ _ t => inr (map tmessage t);
  sendTrytes := fun _ t _ _ =>
    inr (map (fun s => {| tx_hash := "HASH9" +:+ s; tx_bundle := "BUNDLE"; tx_rest := s |}) t);
  bundleCacheService_set := fun _ _ => inr tt;
  transactionCacheService_set := fun _ _ => inr tt
|}.

(** The same with the IOTA node unreachable. *)
Definition node_down : Services := {|
  isNodeAvailable := fun _ _ _ => inl (new_Error "Node is not available");
  ipfs_add := ipfs_add up;
  stateService_get_fails := stateService_get_fails up;
  stateService_set_fails := stateService_set_fails up;
  generateHash := generateHash up;
  prepareTransfers := prepareTransfers up;
  sendTrytes := sendTrytes up;
  bundleCacheService_set := bundleCacheService_set up;
  transactionCacheService_set := transactionCacheService_set up
|}.

(** The same with the submission to the ledger failing. *)
Definition ledger_down : Services := {|
  isNodeAvailable := isNodeAvailable up;
  ipfs_add := ipfs_add up;
  stateService_get_fails := stateService_get_fails up;
  stateService_set_fails := stateService_set_fails up;
  generateHash := generateHash up;
  prepareTransfers := prepareTransfers up;
  sendTrytes := fun _ _ _ _ => inl (new_Error "Request Error: 503");
  bundleCacheService_set := bundleCacheService_set up;
  transactionCacheService_set := transactionCacheService_set up
|}.

Definition config : IConfiguration := {|
  node_provider := "https://node.example.com:443";
  node_depth := 3;
  node_mwm := 9;
  ipfs_provider := "https://ipfs.example.com:443/api/v0/";
  ipfs_token := None;
  dynamoDbConnection := "eu-central-1"
|}.

(** The spec's example submission: ["hello"] with its SHA-256 digest. *)
Definition request : IIPFSStoreRequest := {|
  req_name := "a.txt";
  req_description := "a file";
  req_size := 5;
  req_modified := "2020-01-01T00:00:00.000Z";
  req_algorithm := "sha256";
  req_hash := sha256_hello;
  req_data := "aGVsbG8="
|}.

(** The same file with the digest of another file declared. *)
Definition mismatched : IIPFSStoreRequest := {|
  req_name := "a.txt";
  req_description := "a file";
  req_size := 5;
  req_modified := "2020-01-01T00:00:00.000Z";
  req_algorithm := "sha256";
  req_hash := sha256_empty;
  req_data := "aGVsbG8="
|}.

(** The same file with its digest declared in upper case. *)
Definition uppercase : IIPFSStoreRequest := {|
  req_name := "a.txt";
  req_description := "a file";
  req_size := 5;
  req_modified := "2020-01-01T00:00:00.000Z";
  req_algorithm := "sha256";
  req_hash := "2CF24DBA5FB0A30E26E83B2AC5B9E29E1B161E5C1FA7425E73043362938B9824";
  req_data := "aGVsbG8="
|}.

(** Padding only: the data decodes to the empty buffer; the declared
    digest is that of ["hello"]. *)
Definition padding : IIPFSStoreRequest := {|
  req_name := "a.txt";
  req_description := "a file";
  req_size := 0;
  req_modified := "2020-01-01T00:00:00.000Z";
  req_algorithm := "sha256";
  req_hash := sha256_hello;
  req_data := "===="
|}.

(** Half a mebibyte of zeros. *)
Definition oversized : IIPFSStoreRequest := {|
  req_name := "zeros.bin";
  req_description := "a file";
  req_size := 524288;
  req_modified := "2020-01-01T00:00:00.000Z";
  req_algorithm := "sha256";
  req_hash := sha256_hello;
  req_data := zeros_base64
|}.

(** A digest algorithm the route does not know. *)
Definition md5 : IIPFSStoreRequest := {|
  req_name := "a.txt";
  req_description := "a file";
  req_size := 5;
  req_modified := "2020-01-01T00:00:00.000Z";
  req_algorithm := "md5";
  req_hash := "5d41402abc4b2a76b9719d911017c592";
  req_data := "aGVsbG8="
|}.

Definition fresh : World := {| stateTable := ∅; trace := [] |}.

(** Two, and three, requests in flight together. *)
Definition two : list (Prog IIPFSStoreResponse) :=
  [ipfsStore lib config request; ipfsStore lib config request].

Definition three : list (Prog IIPFSStoreResponse) :=
  [ipfsStore lib config request; ipfsStore lib config request;
   ipfsStore lib config request].

(** Both requests read the state (their third call) before either writes
    it (their fourth call); then both run to completion. *)
Definition overlapping : list nat :=
  [0; 0; 0; 1; 1; 1; 0; 1; 0; 0; 0; 0; 1; 1; 1; 1]%nat.

(** The first request reads the state and is suspended; the two others
    then run to completion, eight calls each. *)
Definition stale : list nat :=
  (replicate 3 0 ++ replicate 8 1 ++ replicate 8 2)%nat.

Definition used : World :=
  {| stateTable := {[ "default" := ("SEED", 5) ]}; trace := [] |}.

End Demo.

(** ** Deployments in which something fails, for the examples *)

Module Faults.

(** A validation helper that rejects the empty string. *)
Definition checked : Library := {|
  ValidationHelper_string := fun s name =>
    if String.eqb s ""
    then inl (new_Error ("The parameter '" +:+ name +:+ "' has an invalid value."))
    else inr tt;
  ValidationHelper_number := ValidationHelper_number Demo.lib;
  Buffer_from_base64 := Buffer_from_base64 Demo.lib;
  sha256_hex := sha256_hex Demo.lib;
  sha3_256_hex := sha3_256_hex Demo.lib;
  provider_exec := provider_exec Demo.lib;
  generateAddress := generateAddress Demo.lib;
  toTrytes := toTrytes Demo.lib;
  asTransactionTrytes := asTransactionTrytes Demo.lib;
  asTransactionTrytes_nil := eq_refl
|}.

(** A payload encoder that throws. *)
Definition unencodable : Library := {|
  ValidationHelper_string := ValidationHelper_string Demo.lib;
  ValidationHelper_number := ValidationHelper_number Demo.lib;
  Buffer_from_base64 := Buffer_from_base64 Demo.lib;
  sha256_hex := sha256_hex Demo.lib;
  sha3_256_hex := sha3_256_hex Demo.lib;
  provider_exec := provider_exec Demo.lib;
  generateAddress := generateAddress Demo.lib;
  toTrytes := fun _ => inl (new_Error "Invalid character");
  asTransactionTrytes := asTransactionTrytes Demo.lib;
  asTransactionTrytes_nil := eq_refl
|}.

(** A converter that rejects the transactions it is given. *)
Definition unconvertible : Library := {|
  ValidationHelper_string := ValidationHelper_string Demo.lib;
  ValidationHelper_number := ValidationHelper_number Demo.lib;
  Buffer_from_base64 := Buffer_from_base64 Demo.lib;
  sha256_hex := sha256_hex Demo.lib;
  sha3_256_hex := sha3_256_hex Demo.lib;
  provider_exec := provider_exec Demo.lib;
  generateAddress := generateAddress Demo.lib;
  toTrytes := toTrytes Demo.lib;
  asTransactionTrytes := fun txs =>
    match txs with
    | [] => inr []
    | _ :: _ => inl (new_Error "Invalid trytes")
    end;
  asTransactionTrytes_nil := eq_refl
|}.

(** An address derivation that throws. *)
Definition underivable : Library := {|
  ValidationHelper_string := ValidationHelper_string Demo.lib;
  ValidationHelper_number := ValidationHelper_number Demo.lib;
  Buffer_from_base64 := Buffer_from_base64 Demo.lib;
  sha256_hex := sha256_hex Demo.lib;
  sha3_256_hex := sha3_256_hex Demo.lib;
  provider_exec := provider_exec Demo.lib;
  generateAddress := fun _ _ _ => inl (new_Error "Invalid seed provided");
  toTrytes := toTrytes Demo.lib;
  asTransactionTrytes := asTransactionTrytes Demo.lib;
  asTransactionTrytes_nil := eq_refl
|}.

(** A table that holds another seed, at index 41. *)
Definition elsewhere : World :=
  {| stateTable := {[ "default" := ("OTHER", 41) ]}; trace := [] |}.

(** The spec's example submission without a description. *)
Definition undescribed : IIPFSStoreRequest := {|
  req_name := "a.txt";
  req_description := "";
  req_size := 5;
  req_modified := "2020-01-01T00:00:00.000Z";
  req_algorithm := "sha256";
  req_hash := Demo.sha256_hello;
  req_data := "aGVsbG8="
|}.

(** An IPFS provider without protocol and port. *)
Definition misconfigured : IConfiguration := {|
  node_provider := node_provider Demo.config;
  node_depth := node_depth Demo.config;
  node_mwm := node_mwm Demo.config;
  ipfs_provider := "ipfs.example.com";
  ipfs_token := None;
  dynamoDbConnection := dynamoDbConnection Demo.config
|}.

(** An IPFS provider that asks for credentials. *)
Definition with_token : IConfiguration := {|
  node_provider := node_provider Demo.config;
  node_depth := node_depth Demo.config;
  node_mwm := node_mwm Demo.config;
  ipfs_provider := ipfs_provider Demo.config;
  ipfs_token := Some "dXNlcjpwYXNz";
  dynamoDbConnection := dynamoDbConnection Demo.config
|}.

(** The content store unreachable. *)
Definition ipfs_down : Services := {|
  isNodeAvailable := isNodeAvailable Demo.up;
  ipfs_add := fun _ _ _ => inl (new_Error "connect ECONNREFUSED");
  stateService_get_fails := stateService_get_fails Demo.up;
  stateService_set_fails := stateService_set_fails Demo.up;
  generateHash := generateHash Demo.up;
  prepareTransfers := prepareTransfers Demo.up;
  sendTrytes := sendTrytes Demo.up;
  bundleCacheService_set := bundleCacheService_set Demo.up;
  transactionCacheService_set := transactionCacheService_set Demo.up
|}.

(** The content store answering with a stream that yields no file. *)
Definition empty_stream : Services := {|
  isNodeAvailable := isNodeAvailable Demo.up;
  ipfs_add := fun _ _ _ => inr [];
  stateService_get_fails := stateService_get_fails Demo.up;
  stateService_set_fails := stateService_set_fails Demo.up;
  generateHash := generateHash Demo.up;
  prepareTransfers := prepareTransfers Demo.up;
  sendTrytes := sendTrytes Demo.up;
  bundleCacheService_set := bundleCacheService_set Demo.up;
  transactionCacheService_set := transactionCacheService_set Demo.up
|}.

(** The ledger answering a submission with an empty array. *)
Definition empty_bundle : Services := {|
  isNodeAvailable := isNodeAvailable Demo.up;
  ipfs_add := ipfs_add Demo.up;
  stateService_get_fails := stateService_get_fails Demo.up;
  stateService_set_fails := stateService_set_fails Demo.up;
  generateHash := generateHash Demo.up;
  prepareTransfers := prepareTransfers Demo.up;
  sendTrytes := fun _ _ _ _ => inr [];
  bundleCacheService_set := bundleCacheService_set Demo.up;
  transactionCacheService_set := transactionCacheService_set Demo.up
|}.

(** The state table refusing writes. *)
Definition table_down : Services := {|
  isNodeAvailable := isNodeAvailable Demo.up;
  ipfs_add := ipfs_add Demo.up;
  stateService_get_fails := stateService_get_fails Demo.up;
  stateService_set_fails := fun _ _ => Some (new_Error "Requested resource not found");
  generateHash := generateHash Demo.up;
  prepareTransfers := prepareTransfers Demo.up;
  sendTrytes := sendTrytes Demo.up;
  bundleCacheService_set := bundleCacheService_set Demo.up;
  transactionCacheService_set := transactionCacheService_set Demo.up
|}.

(** The transaction cache refusing writes. *)
Definition cache_down : Services := {|
  isNodeAvailable := isNodeAvailable Demo.up;
  ipfs_add := ipfs_add Demo.up;
  stateService_get_fails := stateService_get_fails Demo.up;
  stateService_set_fails := stateService_set_fails Demo.up;
  generateHash := generateHash Demo.up;
  prepareTransfers := prepareTransfers Demo.up;
  sendTrytes := sendTrytes Demo.up;
  bundleCacheService_set := bundleCacheService_set Demo.up;
  transactionCacheService_set := fun _ _ => inl (new_Error "Requested resource not found")
|}.

(** What the spec's example request gives when the stored index is 5:
    the parsed provider, the state written, the encoded payload and the
    transaction the ledger of [Demo.up] returns. *)
Definition endpoint : IpfsConfig := {|
  protocol := "https";
  host := "ipfs.example.com";
  port := "443";
  api_path := "/api/v0/";
  headers := None
|}.

Definition sixth : IState := {| seed := "SEED"; id := "default"; addressIndex := 6 |}.

Definition encoded : string := "TRYTES9" +:+ Demo.sha256_hello.

Definition transfer : Transfer :=
  {| address := "ADDRESS9SEED9AAAAAA"; value := 0; tmessage := encoded |}.

Definition attached : Transaction :=
  {| tx_hash := "HASH9" +:+ encoded; tx_bundle := "BUNDLE"; tx_rest := encoded |}.

End Faults.

(** * Properties *)

(** ** Running programs *)

Section Running.

Context (sv : Services).

Lemma run_bind {A B} (p : Prog A) (f : A -> Prog B) w :
  run sv (bind p f) w =
  match run sv p w with
  | (inl e, w') => (inl e, w')
  | (inr a, w') => run sv (f a) w'
  end.
Proof.
  revert w. induction p as [a|e|X c k IH]; intros w; simpl; [done..|].
  apply IH.
Qed.

Lemma run_try_catch {A} (p : Prog A) (h : Exn -> Prog A) w :
  run sv (try_catch p h) w =
  match run sv p w with
  | (inl e, w') => run sv (h e) w'
  | (inr a, w') => (inr a, w')
  end.
Proof.
  revert w. induction p as [a|e|X c k IH]; intros w; simpl; [done..|].
  apply IH.
Qed.

Lemma log_try_catch {A} (p : Prog A) (h : Exn -> Prog A) w :
  log sv (try_catch p h) w =
  log sv p w ++
  match run sv p w with
  | (inl e, w') => log sv (h e) w'
  | (inr _, _) => []
  end.
Proof.
  revert w. induction p as [a|e|X c k IH]; intros w; simpl.
  - done.
  - done.
  - by rewrite IH.
Qed.

(** The log of the world after a run is the log before it followed by the
    calls of the run. *)
Lemma run_trace {A} (p : Prog A) w :
  trace (snd (run sv p w)) = trace w ++ log sv p w.
Proof.
  revert w. induction p as [a|e|X c k IH]; intros w; simpl.
  - by rewrite app_nil_r.
  - by rewrite app_nil_r.
  - rewrite IH. simpl. by rewrite <- app_assoc.
Qed.

End Running.

(** ** Properties of every path of a program *)

Lemma every_path_sound {A} (p : Prog A) Q sv w :
  every_path p Q -> Q (log sv p w) (fst (run sv p w)).
Proof.
  revert Q w. induction p as [a|e|X c k IH]; intros Q w HQ; simpl in *; [done..|].
  apply (IH _ (fun evs res => Q (event_of c (handle sv w c) :: evs) res)), HQ.
Qed.

Lemma every_path_mono {A} (p : Prog A) (Q Q' : list Event -> Result A -> Prop) :
  (forall evs res, Q evs res -> Q' evs res) -> every_path p Q -> every_path p Q'.
Proof.
  revert Q Q'. induction p as [a|e|X c k IH]; intros Q Q' HQ Hp; simpl in *; [auto..|].
  intros r. eapply IH; [|apply Hp]. simpl. auto.
Qed.

Lemma every_path_bind {A B} (p : Prog A) (f : A -> Prog B) Q :
  every_path p (fun evs res =>
    match res with
    | inl e => Q evs (inl e)
    | inr a => every_path (f a) (fun evs' res' => Q (evs ++ evs') res')
    end) ->
  every_path (bind p f) Q.
Proof.
  revert Q. induction p as [a|e|X c k IH]; intros Q Hp; simpl in *; [done..|].
  intros r. apply IH. eapply every_path_mono; [|apply Hp].
  intros evs [e|a]; simpl; auto.
Qed.

Lemma every_path_try_catch {A} (p : Prog A) (h : Exn -> Prog A) Q :
  every_path p (fun evs res =>
    match res with
    | inl e => every_path (h e) (fun evs' res' => Q (evs ++ evs') res')
    | inr a => Q evs (inr a)
    end) ->
  every_path (try_catch p h) Q.
Proof.
  revert Q. induction p as [a|e|X c k IH]; intros Q Hp; simpl in *; [done..|].
  intros r. apply IH. eapply every_path_mono; [|apply Hp].
  intros evs [e|a]; simpl; auto.
Qed.

(** The table after a run is the table before it with the successful
    writes of the run replayed. *)
Lemma run_table {A} sv (p : Prog A) w :
  stateTable (snd (run sv p w)) = replay (log sv p w) (stateTable w).
Proof.
  revert w. induction p as [a|e|X c k IH]; intros w; simpl; [done..|].
  rewrite IH. simpl. by destruct c, (handle sv w _) as [e|x].
Qed.

Lemma allocations_app evs1 evs2 :
  allocations (evs1 ++ evs2) = allocations evs1 ++ allocations evs2.
Proof.
  induction evs1 as [|ev evs1 IH]; simpl; [done|].
  destruct ev as [| | |st [e|x]| | | | |]; simpl; auto. by rewrite IH.
Qed.

(** A log without successful writes leaves the table as it is. *)
Lemma replay_no_allocations evs tbl :
  allocations evs = [] -> replay evs tbl = tbl.
Proof.
  revert tbl. induction evs as [|ev evs IH]; intros tbl; simpl; [done|].
  destruct ev as [| | |st [e|x]| | | | |]; auto. done.
Qed.

(** ** Walking the route *)

(** The validation block makes no call: it ends as the first failing
    helper does, or normally. *)
Lemma validate_lift lib req : exists r, validate lib req = lift r.
Proof.
  unfold validate.
  repeat match goal with
  | |- context [@lift unit ?r] => destruct r as [?|[]]; simpl; [by eexists (inl _)|]
  end.
  by exists (inr tt).
Qed.

Lemma checkSize_cases buffer :
  (checkSize buffer = Throw (new_Error tooLargeMessage) /\ maxSize <= Z.of_nat (length buffer)) \/
  (checkSize buffer = Throw (new_Error emptyMessage) /\ length buffer = 0%nat) \/
  (checkSize buffer = Ret tt /\ 0 < Z.of_nat (length buffer) < maxSize).
Proof.
  unfold checkSize.
  destruct (Z.geb_spec (Z.of_nat (length buffer)) maxSize); [left; split; [done|lia]|].
  destruct (Z.eqb_spec (Z.of_nat (length buffer)) 0); [right; left; split; [done|lia]|].
  right; right. split; [done|lia].
Qed.

Lemma hexDiffers_true hex sent : hexDiffers hex sent = true <-> hex <> Some sent.
Proof.
  destruct hex as [h|]; simpl; [|done].
  destruct (String.eqb_spec h sent); simpl; split; congruence.
Qed.

Lemma hexDiffers_false hex sent : hexDiffers hex sent = false <-> hex = Some sent.
Proof.
  destruct hex as [h|]; simpl; [|done].
  destruct (String.eqb_spec h sent); simpl; split; congruence.
Qed.

Lemma checkHash_cases lib req buffer :
  let hex := computeHex lib (req_algorithm req) buffer in
  (checkHash lib req buffer = Throw (new_Error (hashMessage (req_hash req) hex)) /\
   hex <> Some (req_hash req)) \/
  (checkHash lib req buffer = Ret tt /\ hex = Some (req_hash req)).
Proof.
  unfold checkHash. simpl.
  destruct (hexDiffers _ _) eqn:H; [left|right]; split; try done.
  - by apply hexDiffers_true.
  - by apply hexDiffers_false.
Qed.

Ltac head_of p :=
  match p with
  | bind ?q _ => head_of q
  | _ => p
  end.

(** One step along the route: case on the answer to the pending call, or
    on the outcome of the synchronous code at the head of the program. *)
Ltac walk_step :=
  match goal with
  | |- forall r : Result _, _ => intros [?|?]
  | |- forall r : Exn + _, _ => intros [?|?]
  | |- every_path ?p _ =>
      let h := head_of p in
      match h with
      | lift ?r => destruct r as [?|?] eqn:?
      | match ?r with _ => _ end => destruct r eqn:?
      | if ?b then _ else _ => destruct b eqn:?
      end
  end.

Ltac walk := repeat first [ progress simpl | walk_step ].

(** A request that fails one of the two checks of lines 39-65 is answered
    with a failure after at most the availability probe. *)
Lemma rejected_at_checks lib cfg req e :
  let buffer := Buffer_from_base64 lib (req_data req) in
  checkSize buffer = Throw e \/
  (checkSize buffer = Ret tt /\ checkHash lib req buffer = Throw e) ->
  every_path (ipfsStore lib cfg req) (fun evs res =>
    exists resp, res = inr resp /\ success resp = false /\
      transactionHash resp = None /\ ipfs resp = None /\
      (evs = [] \/
       (exists e', evs = [EvIsNodeAvailable (node_provider cfg) (inl e')]) \/
       (exists b, evs = [EvIsNodeAvailable (node_provider cfg) (inr b)] /\
          validate lib req = Ret tt /\ message resp = toString e))).
Proof.
  intros buffer Hrej. unfold ipfsStore. apply every_path_try_catch.
  unfold ipfsStore_try. fold buffer.
  destruct (validate_lift lib req) as [rv ->].
  walk.
  - eauto 10.
  - eauto 10.
  - destruct (checkSize buffer) as [[]|e'|] eqn:Hs.
    + destruct Hrej as [|[_ Hh]]; [done|]. rewrite Hh. simpl.
      destruct u. eauto 15.
    + simpl. destruct Hrej as [[= ->]|[? _]]; [|done]. destruct u. eauto 15.
    + unfold checkSize in Hs. repeat case_match; done.
Qed.

(** The same on a run: the response, the calls made and the table. *)
Lemma rejected_at_checks_run lib sv cfg req w e :
  let buffer := Buffer_from_base64 lib (req_data req) in
  checkSize buffer = Throw e \/
  (checkSize buffer = Ret tt /\ checkHash lib req buffer = Throw e) ->
  exists resp,
    fst (run sv (ipfsStore lib cfg req) w) = inr resp /\
    success resp = false /\
    Forall (fun ev => isProbe ev = true) (log sv (ipfsStore lib cfg req) w) /\
    stateTable (snd (run sv (ipfsStore lib cfg req) w)) = stateTable w /\
    (validate lib req = Ret tt ->
     (exists b, EvIsNodeAvailable (node_provider cfg) (inr b) ∈ log sv (ipfsStore lib cfg req) w) ->
     message resp = toString e).
Proof.
  intros buffer Hrej.
  pose proof (every_path_sound _ _ sv w (rejected_at_checks lib cfg req e Hrej)) as H.
  simpl in H. destruct H as (resp & Hres & Hs & _ & _ & Hevs).
  exists resp. rewrite run_table.
  destruct Hevs as [->|[[e' ->]|(b & -> & Hv & Hm)]]; simpl.
  - repeat split; auto. intros _ [b Hb]. by apply elem_of_nil in Hb.
  - repeat split; auto. intros _ [b Hb].
    apply list_elem_of_singleton in Hb. done.
  - repeat split; auto.
Qed.

(** ** Strings *)

Lemma append_length s1 s2 :
  String.length (s1 +:+ s2) = (String.length s1 + String.length s2)%nat.
Proof. induction s1 as [|c s1 IH]; simpl; [done|]. by rewrite IH. Qed.

Lemma append_assoc s1 s2 s3 : (s1 +:+ s2) +:+ s3 = s1 +:+ (s2 +:+ s3).
Proof.
  induction s1 as [|c s1 IH]; [done|].
  change (String c ((s1 +:+ s2) +:+ s3) = String c (s1 +:+ (s2 +:+ s3))).
  by rewrite IH.
Qed.

Lemma includes_length s sub :
  includes s sub -> (String.length sub <= String.length s)%nat.
Proof. intros (pre & post & ->). rewrite !append_length. lia. Qed.

Lemma toString_hashMessage sent hex :
  toString (new_Error (hashMessage sent hex)) = "Error: " +:+ hashMessage sent hex.
Proof. reflexivity. Qed.

Lemma hashMessage_includes sent hex :
  includes (toString (new_Error (hashMessage sent hex))) (interpolate hex).
Proof.
  exists ("Error: The hash for the file is incorrect '" +:+ sent +:+
          "' was sent but it has been calculated as '"), "'".
  rewrite toString_hashMessage. unfold hashMessage.
  by rewrite !append_assoc.
Qed.

(** A request whose recomputed hash differs from the declared one is
    rejected at one of the checks. *)
Lemma hash_mismatch_rejected lib sv cfg req w :
  let buffer := Buffer_from_base64 lib (req_data req) in
  let hex := computeHex lib (req_algorithm req) buffer in
  hex <> Some (req_hash req) ->
  exists resp,
    fst (run sv (ipfsStore lib cfg req) w) = inr resp /\
    success resp = false /\
    Forall (fun ev => isProbe ev = true) (log sv (ipfsStore lib cfg req) w) /\
    stateTable (snd (run sv (ipfsStore lib cfg req) w)) = stateTable w /\
    (validate lib req = Ret tt ->
     (exists b, EvIsNodeAvailable (node_provider cfg) (inr b) ∈ log sv (ipfsStore lib cfg req) w) ->
     checkSize buffer = Ret tt ->
     message resp = toString (new_Error (hashMessage (req_hash req) hex))).
Proof.
  intros buffer hex Hne.
  destruct (checkSize_cases buffer) as [[Hs _]|[[Hs _]|[Hs _]]].
  - destruct (rejected_at_checks_run lib sv cfg req w _ (or_introl Hs))
      as (resp & ? & ? & ? & ? & _).
    exists resp. do 4 (split; [done|]). intros _ _ Hs'. congruence.
  - destruct (rejected_at_checks_run lib sv cfg req w _ (or_introl Hs))
      as (resp & ? & ? & ? & ? & _).
    exists resp. do 4 (split; [done|]). intros _ _ Hs'. congruence.
  - destruct (checkHash_cases lib req buffer) as [[Hh _]|[_ Hh]]; [|done].
    destruct (rejected_at_checks_run lib sv cfg req w _ (or_intror (conj Hs Hh)))
      as (resp & ? & ? & ? & ? & Hm).
    exists resp. do 4 (split; [done|]). intros Hv Hp _. auto.
Qed.

Lemma probe_harmless evs :
  Forall (fun ev => isProbe ev = true) evs -> Forall harmless evs.
Proof.
  intros H. eapply Forall_impl; [exact H|]. intros ev Hp. by destruct ev.
Qed.

(** ** C1: a declared hash that does not match *)

(** C1 fails as stated: a request whose data decodes to the empty buffer
    and whose declared digest is that of another file has a mismatching
    hash, yet it is answered with the empty-file message, which does not
    contain the calculated digest: lines 39-48 run before lines 62-65. *)
Lemma C1_counterexample :
  computeHex Demo.lib (req_algorithm Demo.padding)
    (Buffer_from_base64 Demo.lib (req_data Demo.padding))
    <> Some (req_hash Demo.padding) /\
  fst (run Demo.up (ipfsStore Demo.lib Demo.config Demo.padding) Demo.fresh) =
    inr {| success := false;
           message := "Error: The file must be greater than 0 bytes in length.";
           transactionHash := None;
           ipfs := None |} /\
  ~ answers_with_calculated_hash Demo.lib Demo.up Demo.config Demo.padding Demo.fresh.
Proof.
  split; [by vm_compute|]. split; [by vm_compute|].
  intros (resp & Hres & _ & Hinc).
  assert (resp = {| success := false;
           message := "Error: The file must be greater than 0 bytes in length.";
           transactionHash := None;
           ipfs := None |}) as ->.
  { assert (fst (run Demo.up (ipfsStore Demo.lib Demo.config Demo.padding) Demo.fresh) =
      inr {| success := false;
             message := "Error: The file must be greater than 0 bytes in length.";
             transactionHash := None;
             ipfs := None |}) as Heq by (by vm_compute).
    congruence. }
  apply includes_length in Hinc. vm_compute in Hinc. lia.
Qed.

(** C1, amended.  Every request whose recomputed hash differs from the
    declared one is answered with success=false and without side effect:
    the only call the route may have made is the availability probe (no
    content-store write, no read or write of the allocation state, no
    ledger submission) and the stored allocation state is unchanged.  When
    the request passes the field validation, the probe and the two size
    checks, the message is the hash error, which contains the calculated
    hash (the word undefined for an algorithm the route does not know). *)
Theorem C1_hash_mismatch_rejected lib sv cfg req w :
  let buffer := Buffer_from_base64 lib (req_data req) in
  let hex := computeHex lib (req_algorithm req) buffer in
  hex <> Some (req_hash req) ->
  exists resp,
    fst (run sv (ipfsStore lib cfg req) w) = inr resp /\
    success resp = false /\
    Forall (fun ev => isProbe ev = true) (log sv (ipfsStore lib cfg req) w) /\
    Forall harmless (log sv (ipfsStore lib cfg req) w) /\
    stateTable (snd (run sv (ipfsStore lib cfg req) w)) = stateTable w /\
    (validate lib req = Ret tt ->
     (exists b, EvIsNodeAvailable (node_provider cfg) (inr b) ∈ log sv (ipfsStore lib cfg req) w) ->
     checkSize buffer = Ret tt ->
     message resp = toString (new_Error (hashMessage (req_hash req) hex)) /\
     includes (message resp) (interpolate hex)).
Proof.
  intros buffer hex Hne.
  destruct (hash_mismatch_rejected lib sv cfg req w Hne) as (resp & ? & ? & ? & ? & Hm).
  exists resp. do 3 (split; [done|]). split; [by apply probe_harmless|].
  split; [done|]. intros Hv Hp Hs.
  rewrite (Hm Hv Hp Hs). split; [done|]. apply hashMessage_includes.
Qed.

(** The file ["hello"] declared with the digest of the empty file. *)
Lemma C1_witness :
  exists resp,
    fst (run Demo.up (ipfsStore Demo.lib Demo.config Demo.mismatched) Demo.fresh) = inr resp /\
    success resp = false /\
    Forall (fun ev => isProbe ev = true)
      (log Demo.up (ipfsStore Demo.lib Demo.config Demo.mismatched) Demo.fresh) /\
    Forall harmless
      (log Demo.up (ipfsStore Demo.lib Demo.config Demo.mismatched) Demo.fresh) /\
    stateTable (snd (run Demo.up (ipfsStore Demo.lib Demo.config Demo.mismatched) Demo.fresh))
      = stateTable Demo.fresh /\
    message resp =
      toString (new_Error (hashMessage Demo.sha256_empty (Some Demo.sha256_hello))) /\
    includes (message resp) Demo.sha256_hello.
Proof.
  destruct (C1_hash_mismatch_rejected Demo.lib Demo.up Demo.config Demo.mismatched Demo.fresh)
    as (resp & H1 & H2 & H3 & H4 & H5 & H6).
  { vm_compute. discriminate. }
  exists resp. do 5 (split; [assumption|]).
  apply H6.
  - reflexivity.
  - exists true. apply list_elem_of_here.
  - reflexivity.
Defined.

(** ** C5: how the two hashes are compared *)

(** C5 fails as stated: the digest of ["hello"] declared in upper case
    differs from the recomputed one only in letter case, and the route
    answers with the hash error. *)
Lemma C5_counterexample :
  toLowerCase (req_hash Demo.uppercase) = toLowerCase Demo.sha256_hello /\
  fst (run Demo.up (ipfsStore Demo.lib Demo.config Demo.uppercase) Demo.fresh) =
    inr {| success := false;
           message := "Error: The hash for the file is incorrect '2CF24DBA5FB0A30E26E83B2AC5B9E29E1B161E5C1FA7425E73043362938B9824' was sent but it has been calculated as '2cf24dba5fb0a30e26e83b2ac5b9e29e1b161e5c1fa7425e73043362938b9824'";
           transactionHash := None;
           ipfs := None |} /\
  ~ accepts_up_to_case Demo.lib Demo.uppercase
      (Buffer_from_base64 Demo.lib (req_data Demo.uppercase)).
Proof.
  split; [by vm_compute|]. split; [by vm_compute|].
  intros H. specialize (H Demo.sha256_hello eq_refl eq_refl).
  vm_compute in H. discriminate.
Qed.

(** C5, amended.  The comparison is [!==] on strings, exact and
    case-sensitive: the hash check passes exactly when a digest was
    computed and the declared hash is that very string; for any other
    declared hash, one that differs only in letter case included, the
    route answers success=false. *)
Theorem C5_hash_comparison_is_exact lib sv cfg req w :
  let buffer := Buffer_from_base64 lib (req_data req) in
  let hex := computeHex lib (req_algorithm req) buffer in
  (checkHash lib req buffer = Ret tt <-> hex = Some (req_hash req)) /\
  (forall h, hex = Some h -> req_hash req <> h ->
     exists resp,
       fst (run sv (ipfsStore lib cfg req) w) = inr resp /\ success resp = false).
Proof.
  intros buffer hex. split.
  - destruct (checkHash_cases lib req buffer) as [[Hh Hx]|[Hh Hx]];
      fold hex in Hx; rewrite Hh; split; intros; congruence.
  - intros h Hh Hne.
    destruct (hash_mismatch_rejected lib sv cfg req w) as (resp & ? & ? & _).
    { fold buffer hex. congruence. }
    eauto.
Qed.

(** The digest of ["hello"] declared in upper case. *)
Lemma C5_witness :
  exists resp,
    fst (run Demo.up (ipfsStore Demo.lib Demo.config Demo.uppercase) Demo.fresh) = inr resp /\
    success resp = false.
Proof.
  apply (proj2 (C5_hash_comparison_is_exact Demo.lib Demo.up Demo.config Demo.uppercase Demo.fresh)
           Demo.sha256_hello).
  - reflexivity.
  - vm_compute. discriminate.
Defined.

(** ** C6: what precedes the size checks *)

(** C6 fails as stated: line 33 awaits the node availability probe before
    the buffer is decoded.  A request whose data decodes to the empty
    buffer is rejected by the empty-file check after the probe was made. *)
Lemma C6_counterexample :
  checkSize (Buffer_from_base64 Demo.lib (req_data Demo.padding)) =
    Throw (new_Error emptyMessage) /\
  log Demo.up (ipfsStore Demo.lib Demo.config Demo.padding) Demo.fresh =
    [EvIsNodeAvailable "https://node.example.com:443" (inr true)] /\
  ~ checks_before_any_call Demo.lib Demo.up Demo.config Demo.padding Demo.fresh.
Proof.
  split; [by vm_compute|]. split; [by vm_compute|].
  intros H.
  assert (log Demo.up (ipfsStore Demo.lib Demo.config Demo.padding) Demo.fresh =
    [EvIsNodeAvailable "https://node.example.com:443" (inr true)]) as Hlog by (by vm_compute).
  rewrite H in Hlog; [discriminate|]. by vm_compute.
Qed.

(** C6, amended.  The size-limit check and the empty-file check are both
    performed before every call other than the node availability probe:
    a call to the content store, the state service, the ledger or the
    caches is made only for a buffer of length strictly between 0 and the
    limit, and a request that a check rejects has made at most that one
    probe. *)
Theorem C6_checks_precede_all_but_probe lib sv cfg req w :
  let buffer := Buffer_from_base64 lib (req_data req) in
  (forall ev, ev ∈ log sv (ipfsStore lib cfg req) w -> isProbe ev = false ->
     checkSize buffer = Ret tt /\ 0 < Z.of_nat (length buffer) < maxSize) /\
  (checkSize buffer <> Ret tt ->
     Forall (fun ev => isProbe ev = true) (log sv (ipfsStore lib cfg req) w) /\
     (length (log sv (ipfsStore lib cfg req) w) <= 1)%nat).
Proof.
  intros buffer.
  assert (Hrej : checkSize buffer <> Ret tt ->
     Forall (fun ev => isProbe ev = true) (log sv (ipfsStore lib cfg req) w) /\
     (length (log sv (ipfsStore lib cfg req) w) <= 1)%nat).
  { intros Hne.
    destruct (checkSize_cases buffer) as [[Hs _]|[[Hs _]|[Hs _]]]; [| |done].
    - pose proof (every_path_sound _ _ sv w
        (rejected_at_checks lib cfg req _ (or_introl Hs))) as H.
      simpl in H. destruct H as (resp & _ & _ & _ & _ & [->|[[e' ->]|(b & -> & _)]]);
        simpl; split; repeat constructor.
    - pose proof (every_path_sound _ _ sv w
        (rejected_at_checks lib cfg req _ (or_introl Hs))) as H.
      simpl in H. destruct H as (resp & _ & _ & _ & _ & [->|[[e' ->]|(b & -> & _)]]);
        simpl; split; repeat constructor. }
  split; [|done].
  intros ev Hin Hnp.
  destruct (checkSize_cases buffer) as [[Hs _]|[[Hs _]|[Hs Hlen]]]; [| |done].
  - destruct Hrej as [Hall _]; [congruence|].
    rewrite Forall_forall in Hall. specialize (Hall ev Hin). congruence.
  - destruct Hrej as [Hall _]; [congruence|].
    rewrite Forall_forall in Hall. specialize (Hall ev Hin). congruence.
Qed.

(** The content-store write of the spec's example request comes after the
    checks passed. *)
Lemma C6_witness :
  checkSize (Buffer_from_base64 Demo.lib (req_data Demo.request)) = Ret tt /\
  0 < Z.of_nat (length (Buffer_from_base64 Demo.lib (req_data Demo.request))) < maxSize.
Proof.
  apply (proj1 (C6_checks_precede_all_but_probe Demo.lib Demo.up Demo.config Demo.request Demo.fresh)
    (EvIpfsAdd {| protocol := "https"; host := "ipfs.example.com"; port := "443";
                  api_path := "/api/v0/"; headers := None |} Demo.hello (inr ["QmHello"]))).
  - apply list_elem_of_further, list_elem_of_here.
  - reflexivity.
Defined.

(** ** C7: empty and oversized files *)

(** C7 fails as stated: the field validation (lines 25-31) and the
    availability probe (line 33) come before the size checks (lines
    37-48).  The request whose data is padding only decodes to the empty
    buffer; when the IOTA node is unreachable it is answered with the
    error of the probe, not with the empty-file error. *)
Lemma C7_counterexample :
  length (Buffer_from_base64 Demo.lib (req_data Demo.padding)) = 0%nat /\
  fst (run Demo.node_down (ipfsStore Demo.lib Demo.config Demo.padding) Demo.fresh) =
    inr {| success := false; message := "Error: Node is not available";
           transactionHash := None; ipfs := None |} /\
  ~ answers_with_size_error Demo.lib Demo.node_down Demo.config Demo.padding Demo.fresh.
Proof.
  split; [reflexivity|]. split; [reflexivity|].
  intros H. destruct H as (resp & Hres & _ & Hm); [by left|].
  injection Hres as <-. discriminate Hm.
Qed.

(** C7, amended.  A request whose data decodes to a zero-length buffer, or
    to a buffer of at least 0.5 * 1048576 bytes, is answered with
    success=false, and no ledger submission is made (no call at all but
    possibly the availability probe).  When the request passes the field
    validation and the probe, the message is the empty-file error,
    respectively the too-large error. *)
Theorem C7_empty_and_oversized_rejected lib sv cfg req w :
  let buffer := Buffer_from_base64 lib (req_data req) in
  length buffer = 0%nat \/ 524288 <= Z.of_nat (length buffer) ->
  exists resp,
    fst (run sv (ipfsStore lib cfg req) w) = inr resp /\
    success resp = false /\
    Forall (fun ev => isSubmission ev = false) (log sv (ipfsStore lib cfg req) w) /\
    Forall (fun ev => isProbe ev = true) (log sv (ipfsStore lib cfg req) w) /\
    (validate lib req = Ret tt ->
     (exists b, EvIsNodeAvailable (node_provider cfg) (inr b) ∈ log sv (ipfsStore lib cfg req) w) ->
     message resp =
       toString (new_Error (if (length buffer =? 0)%nat then emptyMessage else tooLargeMessage))).
Proof.
  intros buffer Hlen.
  assert (Hs : checkSize buffer =
    Throw (new_Error (if (length buffer =? 0)%nat then emptyMessage else tooLargeMessage))).
  { destruct (checkSize_cases buffer) as [[Hs Hl]|[[Hs Hl]|[Hs Hl]]].
    - rewrite Hs. destruct (Nat.eqb_spec (length buffer) 0); [|done].
      unfold maxSize in Hl. lia.
    - rewrite Hs, Hl. done.
    - unfold maxSize in Hl. lia. }
  destruct (rejected_at_checks_run lib sv cfg req w _ (or_introl Hs))
    as (resp & ? & ? & Hall & ? & Hm).
  exists resp. do 2 (split; [done|]). split; [|split; [done|]].
  - eapply Forall_impl; [exact Hall|]. by intros [] ?.
  - exact Hm.
Qed.

(** A request whose data is padding only, and one of half a mebibyte of
    zeros, which is at the limit. *)
Lemma C7_witness :
  (exists resp,
    fst (run Demo.up (ipfsStore Demo.lib Demo.config Demo.padding) Demo.fresh) = inr resp /\
    success resp = false /\
    Forall (fun ev => isSubmission ev = false)
      (log Demo.up (ipfsStore Demo.lib Demo.config Demo.padding) Demo.fresh) /\
    Forall (fun ev => isProbe ev = true)
      (log Demo.up (ipfsStore Demo.lib Demo.config Demo.padding) Demo.fresh) /\
    message resp = toString (new_Error emptyMessage)) /\
  (exists resp,
    fst (run Demo.up (ipfsStore Demo.lib Demo.config Demo.oversized) Demo.fresh) = inr resp /\
    success resp = false /\
    Forall (fun ev => isSubmission ev = false)
      (log Demo.up (ipfsStore Demo.lib Demo.config Demo.oversized) Demo.fresh) /\
    Forall (fun ev => isProbe ev = true)
      (log Demo.up (ipfsStore Demo.lib Demo.config Demo.oversized) Demo.fresh) /\
    message resp = toString (new_Error tooLargeMessage)).
Proof.
  split.
  - destruct (C7_empty_and_oversized_rejected Demo.lib Demo.up Demo.config Demo.padding Demo.fresh)
      as (resp & H1 & H2 & H3 & H4 & H5).
    { left. reflexivity. }
    exists resp. do 4 (split; [assumption|]).
    apply H5.
    + reflexivity.
    + exists true. apply list_elem_of_here.
  - destruct (C7_empty_and_oversized_rejected Demo.lib Demo.up Demo.config Demo.oversized Demo.fresh)
      as (resp & H1 & H2 & H3 & H4 & H5).
    { right. vm_compute. discriminate. }
    exists resp. do 4 (split; [assumption|]).
    rewrite H5.
    + vm_compute. reflexivity.
    + reflexivity.
    + exists true.
      assert (log Demo.up (ipfsStore Demo.lib Demo.config Demo.oversized) Demo.fresh =
        [EvIsNodeAvailable (node_provider Demo.config) (inr true)]) as Hlog
        by (vm_compute; reflexivity).
      rewrite Hlog. apply list_elem_of_here.
Defined.

(** ** C10: algorithms other than sha256 and sha3 *)

(** C10. A request whose algorithm field is neither "sha256" nor "sha3"
    gets no digest computed ([hex] stays undefined); the comparison with
    the declared hash, a string, then fails, and the route answers
    success=false having made no call but possibly the availability
    probe: no content-store write, no address allocation, no ledger
    submission, and the stored allocation state is untouched. *)
Theorem C10_unsupported_algorithm_rejected lib sv cfg req w :
  req_algorithm req <> "sha256" ->
  req_algorithm req <> "sha3" ->
  computeHex lib (req_algorithm req) (Buffer_from_base64 lib (req_data req)) = None /\
  exists resp,
    fst (run sv (ipfsStore lib cfg req) w) = inr resp /\
    success resp = false /\
    Forall (fun ev => isProbe ev = true) (log sv (ipfsStore lib cfg req) w) /\
    Forall harmless (log sv (ipfsStore lib cfg req) w) /\
    stateTable (snd (run sv (ipfsStore lib cfg req) w)) = stateTable w.
Proof.
  intros H256 H3.
  assert (Hhex : computeHex lib (req_algorithm req)
                   (Buffer_from_base64 lib (req_data req)) = None).
  { unfold computeHex.
    destruct (String.eqb_spec (req_algorithm req) "sha256"); [done|].
    by destruct (String.eqb_spec (req_algorithm req) "sha3"). }
  split; [done|].
  destruct (hash_mismatch_rejected lib sv cfg req w) as (resp & ? & ? & ? & ? & _).
  { simpl. by rewrite Hhex. }
  exists resp. do 3 (split; [done|]). split; [by apply probe_harmless|done].
Qed.

(** A request for an MD5 digest against the demo deployment. *)
Lemma C10_witness :
  computeHex Demo.lib (req_algorithm Demo.md5)
    (Buffer_from_base64 Demo.lib (req_data Demo.md5)) = None /\
  exists resp,
    fst (run Demo.up (ipfsStore Demo.lib Demo.config Demo.md5) Demo.fresh) = inr resp /\
    success resp = false /\
    Forall (fun ev => isProbe ev = true)
      (log Demo.up (ipfsStore Demo.lib Demo.config Demo.md5) Demo.fresh) /\
    Forall harmless
      (log Demo.up (ipfsStore Demo.lib Demo.config Demo.md5) Demo.fresh) /\
    stateTable (snd (run Demo.up (ipfsStore Demo.lib Demo.config Demo.md5) Demo.fresh))
      = stateTable Demo.fresh.
Proof.
  apply (C10_unsupported_algorithm_rejected Demo.lib Demo.up Demo.config Demo.md5 Demo.fresh).
  - simpl. discriminate.
  - simpl. discriminate.
Defined.

(** ** Rejections reach the catch block *)

Lemma strict_lift {A} (r : Result A) : strict (lift r).
Proof. destruct r; constructor. Qed.

Lemma strict_await {X} (c : Ext X) : strict (await c).
Proof. constructor; [done|]. intros x. constructor. Qed.

Lemma strict_bind {A B} (p : Prog A) (f : A -> Prog B) :
  strict p -> (forall a, strict (f a)) -> strict (bind p f).
Proof.
  intros Hp Hf. induction Hp as [a|e|X c k Hk Hs IH]; simpl; [auto|constructor|].
  constructor; [|done]. intros e. by rewrite Hk.
Qed.

Lemma strict_for_each {A} (l : list A) body :
  (forall x, strict (body x)) -> strict (for_each l body).
Proof.
  intros Hb. induction l as [|x l IH]; simpl; [constructor|].
  apply strict_bind; auto.
Qed.

Lemma failure_event_of {X} (c : Ext X) (r : Result X) :
  failure (event_of c r) = match r with inl e => Some e | inr _ => None end.
Proof. by destruct c, r. Qed.

(** In a strict program a failed call is the last one made and its thrown
    value is how the program ends. *)
Lemma strict_every_path {A} (p : Prog A) :
  strict p ->
  every_path p (fun evs res =>
    forall ev e, ev ∈ evs -> failure ev = Some e ->
      res = inl e /\ last evs = Some ev).
Proof.
  induction 1 as [a|e|X c k Hk Hs IH]; simpl.
  - intros ev e Hin. by apply elem_of_nil in Hin.
  - intros ev e' Hin. by apply elem_of_nil in Hin.
  - intros [e|x].
    + rewrite Hk. simpl. intros ev e' Hin Hf.
      apply list_elem_of_singleton in Hin as ->.
      rewrite failure_event_of in Hf. by injection Hf as ->.
    + eapply every_path_mono; [|apply IH]. simpl.
      intros evs res Hall ev e Hin Hf.
      apply elem_of_cons in Hin as [->|Hin].
      * by rewrite failure_event_of in Hf.
      * destruct (Hall ev e Hin Hf) as [-> Hlast]. split; [done|].
        destruct evs; [by apply elem_of_nil in Hin|done].
Qed.

Lemma strict_ipfsStore_try lib cfg req : strict (ipfsStore_try lib cfg req).
Proof.
  unfold ipfsStore_try.
  destruct (validate_lift lib req) as [rv ->].
  unfold checkSize, checkHash, makeIpfsConfig, addToIpfs, allocate, anchor, populateCache.
  repeat first
    [ apply strict_lift | apply strict_await | apply strict_Ret | apply strict_Throw
    | apply strict_for_each; intros ?
    | apply strict_bind; [|intros ?]
    | progress lazy zeta
    | case_match ].
Qed.

(** The catch block makes no call. *)
Lemma log_ipfsStore lib sv cfg req w :
  log sv (ipfsStore lib cfg req) w = log sv (ipfsStore_try lib cfg req) w.
Proof.
  unfold ipfsStore. rewrite log_try_catch.
  destruct (run sv (ipfsStore_try lib cfg req) w) as [[e|resp] w']; simpl;
    by rewrite app_nil_r.
Qed.

Lemma run_ipfsStore lib sv cfg req w :
  run sv (ipfsStore lib cfg req) w =
  match run sv (ipfsStore_try lib cfg req) w with
  | (inl e, w') =>
      (inr {| success := false; message := toString e;
              transactionHash := None; ipfs := None |}, w')
  | (inr resp, w') => (inr resp, w')
  end.
Proof. unfold ipfsStore. by rewrite run_try_catch. Qed.

(** ** C8: what the catch block does with a thrown value *)


(** ** The cache loop *)

Lemma every_path_for_each_set items Q :
  Q (map cached items) (inr tt) ->
  (forall before t rest e, items = before ++ t :: rest ->
     Q (map cached before ++ [EvTransactionCacheSet t (inl e)]) (inl e)) ->
  every_path (for_each items (fun t => await (TransactionCacheSet t))) Q.
Proof.
  revert Q. induction items as [|t items IH]; intros Q Hok Hfail; simpl; [done|].
  intros [e|[]]; simpl.
  - apply (Hfail [] t items e eq_refl).
  - apply IH; [exact Hok|].
    intros before t' rest e Heq. apply (Hfail (t :: before) t' rest e). by rewrite Heq.
Qed.

(** [walk_step], and the loop of lines 155-157 taken as a whole. *)
Ltac walk_loop_step :=
  first
    [ walk_step
    | match goal with
      | |- every_path ?p _ =>
          let h := head_of p in
          match h with
          | for_each _ _ =>
              repeat apply every_path_bind;
              apply every_path_for_each_set; [|intros ? ? ? ? ?]
          end
      end ].

Ltac walk_all := repeat first [ progress simpl | walk_loop_step ].

Lemma first_failure_cached items evs :
  first_failure (map cached items ++ evs) = first_failure evs.
Proof. induction items; simpl; auto. Qed.

Lemma allocations_cached items : allocations (map cached items) = [].
Proof. induction items; simpl; auto. Qed.

Lemma first_failure_None evs :
  first_failure evs = None <-> Forall (fun ev => failure ev = None) evs.
Proof.
  induction evs as [|ev evs IH]; simpl.
  - split; [constructor|done].
  - destruct (failure ev) eqn:Hf.
    + split; [done|]. intros H. inversion H; congruence.
    + rewrite IH. split; [by constructor|]. by inversion 1.
Qed.

(** The items of the loop: one for each transaction of the bundle, in
    order, with its hash as id and [attachedTrytes[i]] as trytes. *)
Lemma transactionItems_lookup attachedTrytes bundles i b :
  bundles !! i = Some b ->
  transactionItems attachedTrytes bundles !! i =
    Some {| transaction_id := tx_hash b; trytes := attachedTrytes !! i |}.
Proof. intros H. unfold transactionItems. by rewrite list_lookup_imap, H. Qed.

Lemma transactionItems_length attachedTrytes bundles :
  length (transactionItems attachedTrytes bundles) = length bundles.
Proof. unfold transactionItems. apply length_imap. Qed.

(** ** C9: the successful response and the cache *)

Lemma success_shape lib cfg req :
  every_path (ipfsStore lib cfg req) (fun evs res =>
    forall resp, res = inr resp ->
      (success resp = true ->
         exists ts b0 rest files attachedTrytes,
           from_submission evs =
             EvSendTrytes ts (node_depth cfg) (node_mwm cfg) (inr (b0 :: rest)) ::
             EvBundleCacheSet {| bundle_id := tx_bundle b0;
                                 transactionHashes := map tx_hash (b0 :: rest) |} (inr tt) ::
             map cached (transactionItems attachedTrytes (b0 :: rest)) /\
           transactionHash resp = Some (tx_hash b0) /\
           added evs = Some files /\
           ipfs resp = last files /\
           message resp = "OK" /\
           asTransactionTrytes lib (b0 :: rest) = inr attachedTrytes) /\
      (success resp = false ->
         first_failure evs = None ->
         forall ts d m b0 rest tail,
           from_submission evs = EvSendTrytes ts d m (inr (b0 :: rest)) :: tail ->
           exists e, asTransactionTrytes lib (b0 :: rest) = inl e)).
Proof.
  unfold ipfsStore. apply every_path_try_catch.
  unfold ipfsStore_try.
  destruct (validate_lift lib req) as [rv ->].
  unfold checkSize, checkHash, makeIpfsConfig, addToIpfs, allocate, anchor, populateCache.
  walk_all.
  all: intros resp [= <-]; simpl; split; [try discriminate|try done].
  all: rewrite ?app_nil_r.
  all: try (intros _ Hff; exfalso; simpl in Hff;
            rewrite ?first_failure_cached in Hff; simpl in Hff; discriminate).
  all: try (intros _ _ ? ? ? ? ? ? Hfs; simpl in Hfs;
            first [discriminate | injection Hfs; intros; subst; eauto; fail]).
  all: intros _; repeat match goal with u : unit |- _ => destruct u end; subst.
  all: eexists _, _, _, _, _; do 5 (split; [reflexivity|]); assumption.
Qed.

(** C9 fails as stated.  When the transaction cache refuses the write,
    the submission has succeeded and the transaction is on the ledger,
    but the result is success=false and carries neither the transaction
    hash nor the content id.  When the add stream of the content store
    yields no file, the result is success=true without a content id. *)
Lemma C9_counterexample :
  EvSendTrytes [Faults.encoded] 3 9 (inr [Faults.attached]) ∈
    log Faults.cache_down (ipfsStore Demo.lib Demo.config Demo.request) Demo.used /\
  fst (run Faults.cache_down (ipfsStore Demo.lib Demo.config Demo.request) Demo.used) =
    inr {| success := false; message := "Error: Requested resource not found";
           transactionHash := None; ipfs := None |} /\
  ~ submission_gives_success Demo.lib Faults.cache_down Demo.config Demo.request Demo.used /\
  fst (run Faults.empty_stream (ipfsStore Demo.lib Demo.config Demo.request) Demo.used) =
    inr {| success := true; message := "OK";
           transactionHash := Some ("HASH9" +:+ Faults.encoded); ipfs := None |} /\
  ~ submission_gives_success Demo.lib Faults.empty_stream Demo.config Demo.request Demo.used.
Proof.
  assert (EvSendTrytes [Faults.encoded] 3 9 (inr [Faults.attached]) ∈
    log Faults.cache_down (ipfsStore Demo.lib Demo.config Demo.request) Demo.used) as Hin1.
  { do 5 apply list_elem_of_further. apply list_elem_of_here. }
  assert (EvSendTrytes [Faults.encoded] 3 9 (inr [Faults.attached]) ∈
    log Faults.empty_stream (ipfsStore Demo.lib Demo.config Demo.request) Demo.used) as Hin2.
  { do 5 apply list_elem_of_further. apply list_elem_of_here. }
  split; [exact Hin1|]. split; [reflexivity|]. split; [|split; [reflexivity|]].
  - intros H. destruct (H _ _ _ _ Hin1) as (resp & b0 & cid & Hres & Hs & _).
    assert (fst (run Faults.cache_down (ipfsStore Demo.lib Demo.config Demo.request) Demo.used) =
      inr {| success := false; message := "Error: Requested resource not found";
             transactionHash := None; ipfs := None |}) as Hrun by reflexivity.
    rewrite Hres in Hrun. injection Hrun as ->. discriminate.
  - intros H. destruct (H _ _ _ _ Hin2) as (resp & b0 & cid & Hres & _ & _ & _ & Hc & _).
    assert (fst (run Faults.empty_stream (ipfsStore Demo.lib Demo.config Demo.request) Demo.used) =
      inr {| success := true; message := "OK";
             transactionHash := Some ("HASH9" +:+ Faults.encoded); ipfs := None |})
      as Hrun by reflexivity.
    rewrite Hres in Hrun. injection Hrun as ->. discriminate.
Qed.

(** C9, amended.  An ingestion that succeeds (success=true) has submitted
    to the ledger and received a non-empty bundle, whose conversion to
    trytes did not throw; its response carries the hash of the first
    transaction of that bundle and the content id, the path of the last
    file the content store yielded, which is absent when it yielded none;
    and after the submission it made exactly these calls, all successful:
    one write of the bundle (the bundle id of the first transaction with
    the hashes of all transactions, in order) and, in order, one write
    per transaction of the bundle (its hash with its trytes).  Conversely
    an ingestion whose submission returned a non-empty bundle succeeds
    when none of its calls failed and the conversion of the bundle to
    trytes did not throw. *)
Theorem C9_success_response_and_cache lib sv cfg req w resp :
  fst (run sv (ipfsStore lib cfg req) w) = inr resp ->
  let evs := log sv (ipfsStore lib cfg req) w in
  (success resp = true ->
     exists ts b0 rest files attachedTrytes,
       let bundles := b0 :: rest in
       asTransactionTrytes lib bundles = inr attachedTrytes /\
       from_submission evs =
         EvSendTrytes ts (node_depth cfg) (node_mwm cfg) (inr bundles) ::
         EvBundleCacheSet {| bundle_id := tx_bundle b0;
                             transactionHashes := map tx_hash bundles |} (inr tt) ::
         map cached (transactionItems attachedTrytes bundles) /\
       length (transactionItems attachedTrytes bundles) = length bundles /\
       (forall i b, bundles !! i = Some b ->
          transactionItems attachedTrytes bundles !! i =
            Some {| transaction_id := tx_hash b; trytes := attachedTrytes !! i |}) /\
       transactionHash resp = Some (tx_hash b0) /\
       added evs = Some files /\
       ipfs resp = last files /\
       message resp = "OK") /\
  (Forall (fun ev => failure ev = None) evs ->
   forall ts d m b0 rest tail attachedTrytes,
     from_submission evs = EvSendTrytes ts d m (inr (b0 :: rest)) :: tail ->
     asTransactionTrytes lib (b0 :: rest) = inr attachedTrytes ->
     success resp = true).
Proof.
  intros Hres evs.
  pose proof (every_path_sound _ _ sv w (success_shape lib cfg req)) as H.
  cbv beta in H. destruct (H resp Hres) as [Hok Hko]. fold evs in Hok, Hko. split.
  - intros Hs.
    destruct (Hok Hs) as (ts & b0 & rest & files & attached & H1 & H2 & H3 & H4 & H5 & H6).
    exists ts, b0, rest, files, attached. cbv zeta. split; [done|]. split; [done|].
    split; [apply transactionItems_length|].
    split; [apply transactionItems_lookup|]. done.
  - intros Hall ts d m b0 rest tail attached Hfs Hconv.
    destruct (success resp) eqn:Hs; [done|]. exfalso.
    apply first_failure_None in Hall.
    destruct (Hko eq_refl Hall _ _ _ _ _ _ Hfs) as [e He]. congruence.
Qed.

(** The spec's example request against a deployment that answers: what
    its success implies, and its success from its calls, none of which
    failed. *)
Lemma C9_witness :
  (exists ts b0 rest files attachedTrytes,
    asTransactionTrytes Demo.lib (b0 :: rest) = inr attachedTrytes /\
    from_submission (log Demo.up (ipfsStore Demo.lib Demo.config Demo.request) Demo.fresh) =
      EvSendTrytes ts (node_depth Demo.config) (node_mwm Demo.config) (inr (b0 :: rest)) ::
      EvBundleCacheSet {| bundle_id := tx_bundle b0;
                          transactionHashes := map tx_hash (b0 :: rest) |} (inr tt) ::
      map cached (transactionItems attachedTrytes (b0 :: rest)) /\
    Some ("HASH9TRYTES9" +:+ Demo.sha256_hello) = Some (tx_hash b0) /\
    added (log Demo.up (ipfsStore Demo.lib Demo.config Demo.request) Demo.fresh) = Some files /\
    Some "QmHello" = last files) /\
  Forall (fun ev => failure ev = None)
    (log Demo.up (ipfsStore Demo.lib Demo.config Demo.request) Demo.fresh) /\
  success {| success := true; message := "OK";
             transactionHash := Some ("HASH9TRYTES9" +:+ Demo.sha256_hello);
             ipfs := Some "QmHello" |} = true.
Proof.
  assert (Forall (fun ev => failure ev = None)
    (log Demo.up (ipfsStore Demo.lib Demo.config Demo.request) Demo.fresh)) as Hall.
  { repeat first [apply Forall_nil_2 | apply Forall_cons_2; [reflexivity|]]. }
  split; [|split; [exact Hall|]].
  - destruct (proj1 (C9_success_response_and_cache Demo.lib Demo.up Demo.config Demo.request
               Demo.fresh
               {| success := true; message := "OK";
                  transactionHash := Some ("HASH9TRYTES9" +:+ Demo.sha256_hello);
                  ipfs := Some "QmHello" |} eq_refl) eq_refl)
      as (ts & b0 & rest & files & attached & H0 & H1 & _ & _ & H2 & H3 & H4 & _).
    exists ts, b0, rest, files, attached. auto.
  - apply (proj2 (C9_success_response_and_cache Demo.lib Demo.up Demo.config Demo.request
               Demo.fresh
               {| success := true; message := "OK";
                  transactionHash := Some ("HASH9TRYTES9" +:+ Demo.sha256_hello);
                  ipfs := Some "QmHello" |} eq_refl) Hall
             [Faults.encoded] 3 9 Faults.attached []
             [EvBundleCacheSet {| bundle_id := "BUNDLE";
                                  transactionHashes := ["HASH9" +:+ Faults.encoded] |} (inr tt);
              EvTransactionCacheSet {| transaction_id := "HASH9" +:+ Faults.encoded;
                                       trytes := Some ("TX9HASH9" +:+ Faults.encoded) |} (inr tt)]
             ["TX9HASH9" +:+ Faults.encoded]).
    + reflexivity.
    + reflexivity.
Defined.

(** ** Paths from a given table *)

Lemma answer_ok_handle sv w {X} (c : Ext X) : answer_ok (stateTable w) c (handle sv w c).
Proof. destruct c; simpl; try done. by destruct (stateService_get_fails sv w key). Qed.

Lemma every_path_from_sound {A} (p : Prog A) Q sv w :
  every_path_from (stateTable w) p Q ->
  Q (log sv p w) (fst (run sv p w)) (stateTable (snd (run sv p w))).
Proof.
  revert Q w. induction p as [a|e|X c k IH]; intros Q w HQ; simpl in *; [done..|].
  apply (IH _ (fun evs res tbl' => Q (event_of c (handle sv w c) :: evs) res tbl')
            (effect w c (handle sv w c))).
  apply HQ, answer_ok_handle.
Qed.

Lemma every_path_from_mono {A} tbl (p : Prog A)
    (Q Q' : list Event -> Result A -> gmap string (string * Z) -> Prop) :
  (forall evs res tbl', Q evs res tbl' -> Q' evs res tbl') ->
  every_path_from tbl p Q -> every_path_from tbl p Q'.
Proof.
  revert tbl Q Q'. induction p as [a|e|X c k IH]; intros tbl Q Q' HQ Hp; simpl in *; [auto..|].
  intros r Hr. eapply IH; [|apply Hp, Hr]. simpl. auto.
Qed.

Lemma every_path_from_bind {A B} tbl (p : Prog A) (f : A -> Prog B) Q :
  every_path_from tbl p (fun evs res tbl' =>
    match res with
    | inl e => Q evs (inl e) tbl'
    | inr a => every_path_from tbl' (f a) (fun evs' res' tbl'' => Q (evs ++ evs') res' tbl'')
    end) ->
  every_path_from tbl (bind p f) Q.
Proof.
  revert tbl Q. induction p as [a|e|X c k IH]; intros tbl Q Hp; simpl in *; [done..|].
  intros r Hr. apply IH. eapply every_path_from_mono; [|apply Hp, Hr].
  intros evs [e|a]; simpl; auto.
Qed.

Lemma every_path_from_try_catch {A} tbl (p : Prog A) (h : Exn -> Prog A) Q :
  every_path_from tbl p (fun evs res tbl' =>
    match res with
    | inl e => every_path_from tbl' (h e) (fun evs' res' tbl'' => Q (evs ++ evs') res' tbl'')
    | inr a => Q evs (inr a) tbl'
    end) ->
  every_path_from tbl (try_catch p h) Q.
Proof.
  revert tbl Q. induction p as [a|e|X c k IH]; intros tbl Q Hp; simpl in *; [done..|].
  intros r Hr. apply IH. eapply every_path_from_mono; [|apply Hp, Hr].
  intros evs [e|a]; simpl; auto.
Qed.

Lemma every_path_from_for_each_set tbl items Q :
  Q (map cached items) (inr tt) tbl ->
  (forall before t rest e, items = before ++ t :: rest ->
     Q (map cached before ++ [EvTransactionCacheSet t (inl e)]) (inl e) tbl) ->
  every_path_from tbl (for_each items (fun t => await (TransactionCacheSet t))) Q.
Proof.
  revert Q. induction items as [|t items IH]; intros Q Hok Hfail; simpl; [done|].
  intros [e|[]] _; simpl.
  - apply (Hfail [] t items e eq_refl).
  - apply IH; [exact Hok|].
    intros before t' rest e Heq. apply (Hfail (t :: before) t' rest e). by rewrite Heq.
Qed.

(** The same steps for [every_path_from]. *)
Ltac focus_from p :=
  match p with
  | bind ?q _ => apply every_path_from_bind; focus_from q
  | _ => idtac
  end.

Ltac walk_from_step :=
  match goal with
  | |- forall r : Result _, _ -> _ => intros [?|?] ?
  | |- forall r : Exn + _, _ -> _ => intros [?|?] ?
  | |- every_path_from _ ?p _ =>
      let h := head_of p in
      match h with
      | lift ?r => destruct r as [?|?] eqn:?
      | match ?r with _ => _ end => destruct r eqn:?
      | if ?b then _ else _ => destruct b eqn:?
      | for_each _ _ =>
          focus_from p;
          apply every_path_from_for_each_set; [|intros ? ? ? ? ?]
      end
  end.

Ltac walk_from := repeat first [ progress simpl | walk_from_step ].

Lemma prepared_cached items evs : prepared (map cached items ++ evs) = prepared evs.
Proof. induction items; simpl; auto. Qed.

Lemma until_persist_cached items evs :
  until_persist (map cached items ++ evs) = map cached items ++ until_persist evs.
Proof. induction items; simpl; [done|]. by f_equal. Qed.

Lemma generated_cached items evs : generated (map cached items ++ evs) = generated evs.
Proof. induction items; simpl; auto. Qed.

Lemma allocations_cached_app items evs :
  allocations (map cached items ++ evs) = allocations evs.
Proof. induction items; simpl; auto. Qed.

Lemma prepared_cached_nil items : prepared (map cached items) = [].
Proof. induction items; simpl; auto. Qed.

Lemma generated_cached_nil items : generated (map cached items) = None.
Proof. induction items; simpl; auto. Qed.

(** ** The allocation state along the route *)

Lemma table_get_id tbl k st : table_get tbl k = Some st -> id st = k.
Proof.
  unfold table_get. destruct (tbl !! k) as [[s i]|]; simpl; [|done]. by intros [= <-].
Qed.

Lemma table_get_set st tbl : table_get (table_set st tbl) (id st) = Some st.
Proof. unfold table_get, table_set. rewrite lookup_insert_eq. by destruct st. Qed.

Lemma table_get_set_default st tbl :
  id st = "default" -> table_get (table_set st tbl) "default" = Some st.
Proof. intros <-. apply table_get_set. Qed.

Lemma next_state_chain stored fresh st l :
  id st = "default" -> next_state stored fresh st -> chain (Some st) l ->
  chain stored (st :: l).
Proof.
  intros Hid Hn Hc. simpl. split; [done|]. split; [|done].
  unfold next_state in Hn. destruct stored; destruct Hn as (? & ? & ?); auto.
Qed.

Lemma latest_cons stored st l : latest stored (st :: l) = latest (Some st) l.
Proof. unfold latest. rewrite last_cons. by destruct (last l). Qed.

Local Opaque transactionItems.

(** One request: either no state is persisted and no transfer is prepared,
    or exactly one state is persisted, the successor of the stored one,
    before any transfer is prepared, and the prepared transfer goes to the
    address derived from it. *)
Lemma allocation_paths lib cfg req tbl :
  every_path_from tbl (ipfsStore lib cfg req) (fun evs res tbl' =>
    (allocations evs = [] /\ tbl' = tbl /\ prepared evs = []) \/
    (exists st,
       allocations evs = [st] /\ tbl' = table_set st tbl /\ id st = "default" /\
       next_state (table_get tbl "default") (generated evs) st /\
       prepared (until_persist evs) = [] /\
       forall ts, ts ∈ prepared evs ->
         exists a msg,
           generateAddress lib (seed st) (addressIndex st) 2 = inr a /\
           ts = [ {| address := a; value := 0; tmessage := msg |} ])).
Proof.
  unfold ipfsStore. apply every_path_from_try_catch.
  unfold ipfsStore_try.
  destruct (validate_lift lib req) as [rv ->].
  unfold checkSize, checkHash, makeIpfsConfig, addToIpfs, allocate, anchor, populateCache.
  walk_from.
  all: rewrite ?app_nil_r, ?prepared_cached, ?allocations_cached_app, ?until_persist_cached,
         ?generated_cached, ?prepared_cached_nil, ?generated_cached_nil, ?allocations_cached; simpl.
  all: try (left; done).
  all: right; eexists; split; [reflexivity|]; split; [reflexivity|]; simpl.
  all: repeat match goal with
       | H : Some _ = table_get _ _ |- _ => symmetry in H
       | H : None = table_get _ _ |- _ => symmetry in H
       | H : ?o = Some _, H' : table_get _ _ = ?o |- _ => rewrite H in H'
       | H : ?o = None, H' : table_get _ _ = ?o |- _ => rewrite H in H'
       end.
  all: try match goal with
       | H : table_get _ _ = Some _ |- _ => pose proof (table_get_id _ _ _ H); rewrite H
       end.
  all: try match goal with H : table_get _ _ = None |- _ => rewrite H end.
  all: simpl.
  all: repeat split; auto; intros ts Hin.
  all: first [ by apply elem_of_nil in Hin
             | apply list_elem_of_singleton in Hin as ->; eauto ].
Qed.

Local Transparent transactionItems.

Lemma allocation_run lib sv cfg req w :
  let evs := log sv (ipfsStore lib cfg req) w in
  let tbl' := stateTable (snd (run sv (ipfsStore lib cfg req) w)) in
  (allocations evs = [] /\ tbl' = stateTable w) \/
  (exists st, allocations evs = [st] /\ tbl' = table_set st (stateTable w) /\
     id st = "default" /\
     next_state (table_get (stateTable w) "default") (generated evs) st).
Proof.
  pose proof (every_path_from_sound _ _ sv w
    (allocation_paths lib cfg req (stateTable w))) as H.
  cbv beta in H. destruct H as [(? & ? & _)|(st & ? & ? & ? & ? & _)]; eauto 10.
Qed.

Lemma prepared_app evs1 evs2 : prepared (evs1 ++ evs2) = prepared evs1 ++ prepared evs2.
Proof.
  induction evs1 as [|ev evs1 IH]; simpl; [done|].
  destruct ev; simpl; auto. by rewrite IH.
Qed.

Lemma until_persist_app evs1 evs2 :
  allocations evs1 = [] -> until_persist (evs1 ++ evs2) = evs1 ++ until_persist evs2.
Proof.
  induction evs1 as [|ev evs1 IH]; simpl; [done|].
  destruct ev as [| | |st [e|x]| | | | |]; simpl; intros Ha; try (by rewrite IH).
  done.
Qed.

Lemma replay_single evs st tbl :
  allocations evs = [st] -> replay evs tbl = table_set st tbl.
Proof.
  revert tbl. induction evs as [|ev evs IH]; intros tbl; simpl; [done|].
  destruct ev as [| | |st' [e|x]| | | | |]; auto.
  intros [= -> Ha]. by apply replay_no_allocations.
Qed.

Lemma elem_of_allocations evs st :
  EvStateSet st (inr tt) ∈ evs -> st ∈ allocations evs.
Proof.
  induction evs as [|ev evs IH]; intros Hin; [by apply elem_of_nil in Hin|].
  apply elem_of_cons in Hin as [<-|Hin]; simpl; [left|].
  destruct ev as [| | |st' [e|x]| | | | |]; auto. right. auto.
Qed.

(** ** Requests served one after another *)

Lemma serve_paths lib cfg reqs tbl :
  every_path_from tbl (serve lib cfg reqs) (fun evs res tbl' =>
    chain (table_get tbl "default") (allocations evs) /\
    table_get tbl' "default" = latest (table_get tbl "default") (allocations evs)).
Proof.
  revert tbl. induction reqs as [|req reqs IH]; intros tbl; simpl; [done|].
  apply every_path_from_bind.
  eapply every_path_from_mono; [|apply allocation_paths].
  intros evs [e|resp] tbl1 Hrun.
  - destruct Hrun as [(Ha & -> & _)|(st & Ha & -> & Hid & Hn & _)]; rewrite Ha.
    + done.
    + rewrite (table_get_set_default _ _ Hid). split; [|done].
      by eapply next_state_chain.
  - apply every_path_from_bind.
    eapply every_path_from_mono; [|apply IH].
    assert (forall evs2 tbl2,
      chain (table_get tbl1 "default") (allocations evs2) /\
      table_get tbl2 "default" = latest (table_get tbl1 "default") (allocations evs2) ->
      chain (table_get tbl "default") (allocations (evs ++ evs2)) /\
      table_get tbl2 "default" = latest (table_get tbl "default") (allocations (evs ++ evs2)))
      as Hstep.
    { intros evs2 tbl2 [Hc Hl]. rewrite allocations_app.
      destruct Hrun as [(Ha & -> & _)|(st & Ha & -> & Hid & Hn & _)]; rewrite Ha; [done|].
      rewrite (table_get_set_default _ _ Hid) in Hc, Hl.
      split; [by eapply next_state_chain|]. simpl. by rewrite latest_cons. }
    intros evs2 [e|resps] tbl2 H2; simpl; rewrite ?app_nil_r; auto.
Qed.

Lemma chain_index stored l k st :
  chain stored l -> l !! k = Some st ->
  addressIndex st =
    match stored with Some old => addressIndex old + 1 | None => 0 end + Z.of_nat k.
Proof.
  revert stored k. induction l as [|a l IH]; intros stored k Hc Hk; [done|].
  destruct Hc as (_ & Ha & Hc). destruct k as [|k]; simpl in Hk.
  - injection Hk as ->. destruct stored; [destruct Ha|]; lia.
  - rewrite (IH _ _ Hc Hk). destruct stored; [destruct Ha|]; lia.
Qed.

Lemma chain_seed stored l k st :
  chain stored l -> l !! k = Some st ->
  forall j st', l !! j = Some st' -> seed st' = seed st.
Proof.
  revert stored k. induction l as [|a l IH]; intros stored k Hc Hk j st' Hj; [done|].
  assert (Hall : forall i x, l !! i = Some x -> seed x = seed a).
  { destruct Hc as (_ & _ & Hc). clear -Hc. revert a Hc.
    induction l as [|b l IHl]; intros a Hc i x Hi; [done|].
    destruct Hc as (_ & [Hs _] & Hc). destruct i as [|i]; simpl in Hi.
    - by injection Hi as ->.
    - rewrite (IHl _ Hc _ _ Hi). done. }
  destruct k as [|k], j as [|j]; simpl in *.
  - congruence.
  - injection Hk as ->. eauto.
  - injection Hj as ->. symmetry. eauto.
  - rewrite (Hall _ _ Hk), (Hall _ _ Hj). done.
Qed.

Lemma chain_NoDup stored l : chain stored l -> NoDup l.
Proof.
  intros Hc. apply NoDup_alt. intros i j st Hi Hj.
  pose proof (chain_index _ _ _ _ Hc Hi). pose proof (chain_index _ _ _ _ Hc Hj). lia.
Qed.

Lemma chain_latest stored l old :
  chain stored l -> stored = Some old ->
  exists new, latest stored l = Some new /\ seed new = seed old /\
    addressIndex old <= addressIndex new.
Proof.
  revert stored old. induction l as [|a l IH]; intros stored old Hc ->.
  - exists old. unfold latest. simpl. split; [done|]. split; [done|lia].
  - destruct Hc as (_ & [Hs Hi] & Hc). rewrite latest_cons.
    destruct (IH _ a Hc eq_refl) as (new & Hl & Hs' & Hi').
    exists new. split; [done|]. split; [congruence|lia].
Qed.

(** ** Requests in flight together *)

(** Turns taken one block after the other. *)
Lemma interleave_app {A} sv s1 s2 (tasks : list (Prog A)) w :
  interleave sv (s1 ++ s2) tasks w =
  interleave sv s2 (fst (interleave sv s1 tasks w)) (snd (interleave sv s1 tasks w)).
Proof.
  revert tasks w. induction s1 as [|i s1 IH]; intros tasks w; simpl; [done|].
  destruct (tasks !! i) as [p|]; [|apply IH].
  destruct (step_task sv p w) as [p' w']. apply IH.
Qed.

(** A request that takes all its turns with no other request in between
    runs as [run] does. *)
Lemma interleave_alone {A} sv n i (tasks : list (Prog A)) p w :
  tasks !! i = Some p ->
  (length (log sv p w) <= n)%nat ->
  interleave sv (replicate n i) tasks w =
    (<[ i := lift (fst (run sv p w)) ]> tasks, snd (run sv p w)).
Proof.
  revert tasks p w. induction n as [|n IH]; intros tasks p w Hi Hn; simpl.
  - destruct p as [a|e|X c k]; simpl in *; [| |lia]; by rewrite list_insert_id.
  - rewrite Hi. destruct p as [a|e|X c k]; simpl in *.
    + rewrite list_insert_id by done.
      rewrite (IH tasks (Ret a) w Hi); simpl; [|lia]. by rewrite list_insert_id.
    + rewrite list_insert_id by done.
      rewrite (IH tasks (Throw e) w Hi); simpl; [|lia]. by rewrite list_insert_id.
    + rewrite (IH _ (k (handle sv w c)) _).
      * by rewrite list_insert_insert_eq.
      * apply list_lookup_insert_eq. by eapply lookup_lt_Some.
      * lia.
Qed.

(** Serving requests one after another is one of the interleavings. *)
Lemma run_serve_cons lib sv cfg req reqs w :
  snd (run sv (serve lib cfg (req :: reqs)) w) =
  snd (run sv (serve lib cfg reqs) (snd (run sv (ipfsStore lib cfg req) w))).
Proof.
  simpl. rewrite run_bind, run_ipfsStore.
  destruct (run sv (ipfsStore_try lib cfg req) w) as [[e|resp] w1]; simpl;
    rewrite run_bind; by destruct (run sv (serve lib cfg reqs) w1) as [[e'|resps] w2].
Qed.

Lemma run_serve_app lib sv cfg reqs1 reqs2 w :
  snd (run sv (serve lib cfg (reqs1 ++ reqs2)) w) =
  snd (run sv (serve lib cfg reqs2) (snd (run sv (serve lib cfg reqs1) w))).
Proof.
  revert w. induction reqs1 as [|req reqs1 IH]; intros w; [done|].
  rewrite <- app_comm_cons, !run_serve_cons. apply IH.
Qed.

Lemma one_by_one_app lib sv cfg i reqs1 reqs2 w :
  one_by_one lib sv cfg i (reqs1 ++ reqs2) w =
  one_by_one lib sv cfg i reqs1 w ++
  one_by_one lib sv cfg (i + length reqs1) reqs2 (snd (run sv (serve lib cfg reqs1) w)).
Proof.
  revert i w. induction reqs1 as [|req reqs1 IH]; intros i w.
  - simpl. by rewrite Nat.add_0_r.
  - rewrite run_serve_cons. cbn [one_by_one app length].
    rewrite IH, <- app_assoc. by rewrite Nat.add_succ_r.
Qed.

Lemma interleave_one_by_one lib sv cfg ended reqs later w :
  snd (interleave sv (one_by_one lib sv cfg (length ended) reqs w)
         (ended ++ map (ipfsStore lib cfg) reqs ++ later) w) =
  snd (run sv (serve lib cfg reqs) w).
Proof.
  revert ended w. induction reqs as [|req reqs IH]; intros ended w; [done|].
  rewrite run_serve_cons. simpl. rewrite interleave_app.
  rewrite (interleave_alone sv _ (length ended) _ (ipfsStore lib cfg req));
    [|by rewrite list_lookup_middle|done].
  simpl. rewrite insert_app_r_alt, Nat.sub_diag by done. simpl.
  rewrite (cons_middle _ ended), app_assoc.
  replace (S (length ended))
    with (length (ended ++ [lift (fst (run sv (ipfsStore lib cfg req) w))])).
  - apply IH.
  - rewrite length_app. simpl. lia.
Qed.

Lemma interleave_one_by_one_first lib sv cfg reqs later w :
  snd (interleave sv (one_by_one lib sv cfg 0 reqs w)
         (map (ipfsStore lib cfg) reqs ++ later) w) =
  snd (run sv (serve lib cfg reqs) w).
Proof. exact (interleave_one_by_one lib sv cfg [] reqs later w). Qed.

Lemma serve_monotone lib sv cfg reqs w old :
  table_get (stateTable w) "default" = Some old ->
  exists new,
    table_get (stateTable (snd (run sv (serve lib cfg reqs) w))) "default" = Some new /\
    seed new = seed old /\ addressIndex old <= addressIndex new.
Proof.
  intros Hold.
  pose proof (every_path_from_sound _ _ sv w (serve_paths lib cfg reqs (stateTable w))) as H.
  cbv beta in H. destruct H as [Hc Hl]. rewrite Hl. by eapply chain_latest.
Qed.

Lemma one_by_one_never_decreases lib sv cfg reqs1 reqs2 w :
  index_never_decreases sv
    (one_by_one lib sv cfg 0 reqs1 w)
    (one_by_one lib sv cfg (length reqs1) reqs2 (snd (run sv (serve lib cfg reqs1) w)))
    (map (ipfsStore lib cfg) (reqs1 ++ reqs2)) w.
Proof.
  intros i j. unfold index_after.
  pose proof (one_by_one_app lib sv cfg 0 reqs1 reqs2 w) as Happ.
  rewrite Nat.add_0_l in Happ. rewrite <- Happ. clear Happ.
  rewrite <- (app_nil_r (map _ (reqs1 ++ reqs2))) at 2.
  rewrite interleave_one_by_one_first.
  rewrite map_app, interleave_one_by_one_first.
  rewrite run_serve_app.
  destruct (table_get (stateTable (snd (run sv (serve lib cfg reqs1) w))) "default")
    as [old|] eqn:Hold; [|done].
  destruct (serve_monotone lib sv cfg reqs2 _ old Hold) as (new & -> & _ & Hle).
  simpl. intros [= <-] [= <-]. done.
Qed.

Lemma one_by_one_distinct lib sv cfg reqs w :
  trace w = [] ->
  issues_distinct_indices sv (one_by_one lib sv cfg 0 reqs w)
    (map (ipfsStore lib cfg) reqs) w.
Proof.
  intros Hw. unfold issues_distinct_indices.
  rewrite <- (app_nil_r (map _ reqs)).
  rewrite interleave_one_by_one_first.
  rewrite run_trace, Hw. simpl.
  pose proof (every_path_from_sound _ _ sv w (serve_paths lib cfg reqs (stateTable w))) as H.
  cbv beta in H. destruct H as [Hc _]. by eapply chain_NoDup.
Qed.

(** ** C3: the allocated index is not given back *)

(** C3 fails as stated: with three requests in flight, the first reads
    the stored state (index 5) and is suspended; the two others allocate
    6 and 7; the first then resumes and writes 6, the successor of what
    it read: the stored index goes from 7 back to 6, and index 6 has been
    handed out twice. *)
Lemma C3_counterexample :
  index_after Demo.up Demo.stale Demo.three Demo.used = Some 7 /\
  index_after Demo.up (Demo.stale ++ [0%nat]) Demo.three Demo.used = Some 6 /\
  allocations (trace (snd (interleave Demo.up (Demo.stale ++ [0%nat]) Demo.three Demo.used))) =
    [ {| seed := "SEED"; id := "default"; addressIndex := 6 |};
      {| seed := "SEED"; id := "default"; addressIndex := 7 |};
      {| seed := "SEED"; id := "default"; addressIndex := 6 |} ] /\
  ~ index_never_decreases Demo.up Demo.stale [0%nat] Demo.three Demo.used.
Proof.
  split; [by vm_compute|]. split; [by vm_compute|]. split; [by vm_compute|].
  intros H. specialize (H 7 6).
  assert (7 <= 6) as Hle; [|lia].
  apply H; by vm_compute.
Qed.

(** C3, amended.  Once a request's [StateService.set] has succeeded, the
    state it wrote stays stored when the request ends, whether it ends
    with success or, after a failed ledger submission or cache write,
    with a failure response: the route never writes the state a second
    time.  Hence, for requests served one after another, no (seed, index)
    is handed out twice and the stored index never decreases, the seed
    staying the same; in particular the index does not decrease along the
    schedule that gives every request all its turns before the next one
    starts. *)
Theorem C3_index_consumed_sequentially lib sv cfg :
  (forall req w st,
     EvStateSet st (inr tt) ∈ log sv (ipfsStore lib cfg req) w ->
     table_get (stateTable (snd (run sv (ipfsStore lib cfg req) w))) "default" = Some st) /\
  (forall reqs w,
     NoDup (allocations (log sv (serve lib cfg reqs) w)) /\
     forall old, table_get (stateTable w) "default" = Some old ->
       exists new,
         table_get (stateTable (snd (run sv (serve lib cfg reqs) w))) "default" = Some new /\
         seed new = seed old /\ addressIndex old <= addressIndex new) /\
  (forall reqs1 reqs2 w,
     index_never_decreases sv
       (one_by_one lib sv cfg 0 reqs1 w)
       (one_by_one lib sv cfg (length reqs1) reqs2 (snd (run sv (serve lib cfg reqs1) w)))
       (map (ipfsStore lib cfg) (reqs1 ++ reqs2)) w).
Proof.
  split; [|split; [|apply one_by_one_never_decreases]].
  - intros req w st Hin. apply elem_of_allocations in Hin.
    destruct (allocation_run lib sv cfg req w) as [[Ha _]|(st' & Ha & -> & Hid & _)];
      rewrite Ha in Hin.
    + by apply elem_of_nil in Hin.
    + apply list_elem_of_singleton in Hin as ->. by apply table_get_set_default.
  - intros reqs w.
    pose proof (every_path_from_sound _ _ sv w (serve_paths lib cfg reqs (stateTable w))) as H.
    cbv beta in H. destruct H as [Hc Hl]. split; [by eapply chain_NoDup|].
    intros old Hold. by apply serve_monotone.
Qed.

(** The spec's example request when the stored index is 5 and the ledger
    submission fails: the response is a failure and index 6 stays
    consumed. *)
Lemma C3_witness :
  fst (run Demo.ledger_down (ipfsStore Demo.lib Demo.config Demo.request) Demo.used) =
    inr {| success := false; message := "Error: Request Error: 503";
           transactionHash := None; ipfs := None |} /\
  table_get (stateTable (snd (run Demo.ledger_down
    (ipfsStore Demo.lib Demo.config Demo.request) Demo.used))) "default" =
    Some {| seed := "SEED"; id := "default"; addressIndex := 6 |}.
Proof.
  split; [reflexivity|].
  apply (proj1 (C3_index_consumed_sequentially Demo.lib Demo.ledger_down Demo.config)
           Demo.request Demo.used).
  do 3 apply list_elem_of_further. apply list_elem_of_here.
Defined.

(** ** C4: allocations that overlap *)

(** C4 fails as stated: the allocation step is a read followed by an
    unconditional write, with an [await] in between.  Two requests that
    both read the stored state (index 5) before either writes both
    persist index 6, both complete successfully, and both prepare their
    transfer for the same address. *)
Lemma C4_counterexample :
  allocations (trace (snd (interleave Demo.up Demo.overlapping Demo.two Demo.used))) =
    [ {| seed := "SEED"; id := "default"; addressIndex := 6 |};
      {| seed := "SEED"; id := "default"; addressIndex := 6 |} ] /\
  map success
    (omap (fun p => match p with Ret resp => Some resp | _ => None end)
       (fst (interleave Demo.up Demo.overlapping Demo.two Demo.used))) = [true; true] /\
  map (map address)
    (prepared (trace (snd (interleave Demo.up Demo.overlapping Demo.two Demo.used)))) =
    [ ["ADDRESS9SEED9AAAAAA"]; ["ADDRESS9SEED9AAAAAA"] ] /\
  ~ issues_distinct_indices Demo.up Demo.overlapping Demo.two Demo.used.
Proof.
  split; [by vm_compute|]. split; [by vm_compute|]. split; [by vm_compute|].
  unfold issues_distinct_indices.
  assert (allocations (trace (snd (interleave Demo.up Demo.overlapping Demo.two Demo.used))) =
    [ {| seed := "SEED"; id := "default"; addressIndex := 6 |};
      {| seed := "SEED"; id := "default"; addressIndex := 6 |} ]) as -> by (by vm_compute).
  intros H. apply NoDup_cons in H as [Hnin _]. apply Hnin. left.
Qed.

(** C4, amended.  The allocation step is an unconditional read,
    increment and write (no compare-and-swap and no retry).  N
    allocations that do not overlap, of requests served one after
    another, are issued distinct consecutive indices under one seed: the
    k-th successful allocation gets the index that follows the stored
    one, or 0 when nothing is stored, plus k; the schedule that gives
    every request all its turns before the next one starts issues
    distinct indices. *)
Theorem C4_sequential_allocations_consecutive lib sv cfg reqs w :
  let allocs := allocations (log sv (serve lib cfg reqs) w) in
  let first :=
    match table_get (stateTable w) "default" with
    | Some old => addressIndex old + 1
    | None => 0
    end in
  (forall k st, allocs !! k = Some st -> addressIndex st = first + Z.of_nat k) /\
  (forall j k a b, allocs !! j = Some a -> allocs !! k = Some b -> seed a = seed b) /\
  NoDup allocs /\
  (trace w = [] ->
   issues_distinct_indices sv (one_by_one lib sv cfg 0 reqs w)
     (map (ipfsStore lib cfg) reqs) w).
Proof.
  intros allocs first.
  pose proof (every_path_from_sound _ _ sv w (serve_paths lib cfg reqs (stateTable w))) as H.
  cbv beta in H. destruct H as [Hc _]. fold allocs in Hc.
  split; [|split; [|split]].
  - intros k st Hk. by eapply chain_index.
  - intros j k a b Hj Hk. by eapply chain_seed.
  - by eapply chain_NoDup.
  - apply one_by_one_distinct.
Qed.

(** The spec's example request served twice when the stored index is 5:
    the second allocation is index 7. *)
Lemma C4_witness :
  addressIndex {| seed := "SEED"; id := "default"; addressIndex := 7 |} =
    (5 + 1) + Z.of_nat 1.
Proof.
  apply (proj1 (C4_sequential_allocations_consecutive Demo.lib Demo.up Demo.config
                  [Demo.request; Demo.request] Demo.used) 1%nat).
  reflexivity.
Defined.

(** * Further properties of the route *)

(** ** The stages that make no call *)

Lemma checkSize_lift buffer : exists r, checkSize buffer = lift r.
Proof. unfold checkSize. repeat case_match; first [by eexists (inl _)|by exists (inr tt)]. Qed.

Lemma checkHash_lift lib req buffer : exists r, checkHash lib req buffer = lift r.
Proof. unfold checkHash. simpl. case_match; first [by eexists (inl _)|by exists (inr tt)]. Qed.

Lemma makeIpfsConfig_lift lib cfg : exists r, makeIpfsConfig lib cfg = lift r.
Proof. unfold makeIpfsConfig. repeat case_match; first [by eexists (inl _)|by eexists (inr _)]. Qed.

Lemma checkSize_passed buffer :
  checkSize buffer = Ret tt -> 0 < Z.of_nat (length buffer) < maxSize.
Proof. intros H. destruct (checkSize_cases buffer) as [[? ?]|[[? ?]|[_ ?]]]; congruence. Qed.

Lemma checkHash_passed lib req buffer :
  checkHash lib req buffer = Ret tt ->
  (req_algorithm req = "sha256" /\ req_hash req = sha256_hex lib buffer) \/
  (req_algorithm req = "sha3" /\ req_hash req = sha3_256_hex lib buffer).
Proof.
  intros H. destruct (checkHash_cases lib req buffer) as [[? _]|[_ Hh]]; [congruence|].
  simpl in Hh. unfold computeHex in Hh.
  destruct (String.eqb_spec (req_algorithm req) "sha256"); [left; split; congruence|].
  destruct (String.eqb_spec (req_algorithm req) "sha3"); [right; split; congruence|done].
Qed.

(** The validation block ends as the first check that throws. *)
Lemma validate_first lib req passed e rest :
  validations lib req = passed ++ inl e :: rest ->
  Forall (fun r => r = inr tt) passed ->
  validate lib req = Throw e.
Proof.
  unfold validations, validate. intros Hv Hp.
  destruct passed as [|r1 [|r2 [|r3 [|r4 [|r5 [|r6 [|r7 passed]]]]]]];
    simpl in Hv; injection Hv; intros; subst;
    repeat match goal with
    | H : Forall _ (_ :: _) |- _ => apply Forall_cons in H as [? H]
    end;
    repeat match goal with
    | H : _ = inr tt |- _ => rewrite H; clear H
    | H : _ = inl _ |- _ => rewrite H; clear H
    end;
    try reflexivity.
  by destruct passed.
Qed.

(** X1. The seven checks of lines 25-31 run in the order name,
    description, size, modified, algorithm, hash, data.  When one of them
    throws after the ones before it passed, the route answers
    success=false with that thrown value's string as message, and it has
    made no call at all: not even the availability probe, and the world
    is left as it was. *)
Theorem invalid_request_makes_no_call lib sv cfg req w passed e rest :
  validations lib req = passed ++ inl e :: rest ->
  Forall (fun r => r = inr tt) passed ->
  run sv (ipfsStore lib cfg req) w =
    (inr {| success := false; message := toString e;
            transactionHash := None; ipfs := None |}, w) /\
  log sv (ipfsStore lib cfg req) w = [].
Proof.
  intros Hv Hp. unfold ipfsStore, ipfsStore_try.
  by rewrite (validate_first _ _ _ _ _ Hv Hp).
Qed.

(** The example submission without a description, the name being fine. *)
Lemma invalid_request_witness :
  run Demo.up (ipfsStore Faults.checked Demo.config Faults.undescribed) Demo.fresh =
    (inr {| success := false;
            message := "Error: The parameter 'description' has an invalid value.";
            transactionHash := None; ipfs := None |}, Demo.fresh) /\
  log Demo.up (ipfsStore Faults.checked Demo.config Faults.undescribed) Demo.fresh = [].
Proof.
  apply (invalid_request_makes_no_call Faults.checked Demo.up Demo.config Faults.undescribed
           Demo.fresh [inr tt]
           (new_Error "The parameter 'description' has an invalid value.")
           [inr tt; inr tt; inr tt; inr tt; inr tt]).
  - reflexivity.
  - repeat constructor.
Defined.

(** X2. For a request that passes validation the first call is the
    availability probe of the configured node, asked to throw when the
    node is unavailable; the boolean it resolves to is not looked at: the
    route goes on in the same way whatever it is.  When the probe
    rejects, the route answers success=false with the rejection's string,
    the probe is the only call made and the allocation state is left as
    it was. *)
Theorem unavailable_node_ends_request lib sv cfg req w :
  validate lib req = Ret tt ->
  (exists k,
     ipfsStore lib cfg req = Await (IsNodeAvailable (node_provider cfg) true) k /\
     forall b b', k (inr b) = k (inr b')) /\
  (forall e,
     isNodeAvailable sv w (node_provider cfg) true = inl e ->
     fst (run sv (ipfsStore lib cfg req) w) =
       inr {| success := false; message := toString e;
              transactionHash := None; ipfs := None |} /\
     log sv (ipfsStore lib cfg req) w = [EvIsNodeAvailable (node_provider cfg) (inl e)] /\
     stateTable (snd (run sv (ipfsStore lib cfg req) w)) = stateTable w).
Proof.
  intros Hv. unfold ipfsStore, ipfsStore_try. rewrite Hv. split.
  - eexists. split; [reflexivity|]. reflexivity.
  - intros e He. simpl. by rewrite He.
Qed.

(** The example request while the node is unreachable. *)
Lemma unavailable_node_witness :
  fst (run Demo.node_down (ipfsStore Demo.lib Demo.config Demo.request) Demo.used) =
    inr {| success := false; message := "Error: Node is not available";
           transactionHash := None; ipfs := None |} /\
  log Demo.node_down (ipfsStore Demo.lib Demo.config Demo.request) Demo.used =
    [EvIsNodeAvailable (node_provider Demo.config) (inl (new_Error "Node is not available"))] /\
  stateTable (snd (run Demo.node_down (ipfsStore Demo.lib Demo.config Demo.request) Demo.used)) =
    stateTable Demo.used.
Proof.
  apply (proj2 (unavailable_node_ends_request Demo.lib Demo.node_down Demo.config Demo.request
                  Demo.used eq_refl) (new_Error "Node is not available")).
  reflexivity.
Defined.

(** ** Every entry of every log *)

Lemma Forall_cached (P : Event -> Prop) items :
  (forall t, t ∈ items -> P (cached t)) -> Forall P (map cached items).
Proof.
  intros H. apply Forall_forall. intros ev Hin.
  apply list_elem_of_fmap in Hin as (t & -> & Hin). auto.
Qed.

(** The synchronous stages of the route, each taken as a whole. *)
Ltac enter_route lib cfg req :=
  unfold ipfsStore_try;
  let rv := fresh "rv" in let Hv := fresh "Hv" in
  let rs := fresh "rs" in let Hs := fresh "Hs" in
  let rh := fresh "rh" in let Hh := fresh "Hh" in
  let rc := fresh "rc" in let Hc := fresh "Hc" in
  destruct (validate_lift lib req) as [rv Hv];
  destruct (checkSize_lift (Buffer_from_base64 lib (req_data req))) as [rs Hs];
  destruct (checkHash_lift lib req (Buffer_from_base64 lib (req_data req))) as [rh Hh];
  destruct (makeIpfsConfig_lift lib cfg) as [rc Hc];
  rewrite Hv; cbv zeta; rewrite Hs, Hh, Hc;
  unfold addToIpfs, allocate, anchor, populateCache.

Ltac focus p :=
  match p with
  | bind ?q _ => apply every_path_bind; focus q
  | _ => idtac
  end.

(** [walk_step], the loop of lines 155-157 being taken as a whole. *)
Ltac walk_whole_step :=
  first
    [ walk_step
    | match goal with
      | |- every_path ?p _ =>
          let h := head_of p in
          match h with
          | for_each _ _ =>
              focus p; apply every_path_for_each_set; [|intros ? ? ? ? ?]
          end
      end ].

Ltac walk_whole := repeat first [ progress simpl | walk_whole_step ].

(** A property of every entry of a log, entry by entry. *)
Ltac each_call :=
  repeat match goal with
  | |- Forall _ [] => apply Forall_nil_2
  | |- Forall _ (map cached _) => apply Forall_cached; intros ? ?
  | |- Forall _ (_ ++ _) => apply Forall_app_2
  | |- Forall _ (_ :: _) => apply Forall_cons_2
  end.

Local Opaque transactionItems.

Lemma calls_ok lib cfg req :
  every_path (ipfsStore lib cfg req) (fun evs _ => Forall (call_ok lib cfg req evs) evs).
Proof.
  unfold ipfsStore. apply every_path_try_catch.
  enter_route lib cfg req.
  walk_whole.
  all: rewrite ?app_nil_r.
  all: repeat match goal with u : unit |- _ => destruct u end.
  all: each_call.
  all: simpl; auto.
  all: try (repeat split; auto; fail).
  all: try (split; [done|]; eexists _; done).
  all: try (split; [done|]; eexists _, _, _; done).
  all: subst.
  all: try (eexists _, _, _; split; [reflexivity|]; split; [eassumption|reflexivity]).
  all: eexists _, _; split; [reflexivity|]; split; [eassumption|].
  all: try done.
  all: match goal with H : transactionItems _ _ = _ |- _ => rewrite H end; set_solver.
Qed.

#[local] Instance call_order_trans : Transitive call_order.
Proof. intros a b c [?|[? ?]] [?|[? ?]]; unfold call_order; lia. Qed.

Lemma loop_Sorted l : Forall (fun ev => stage ev = 8%nat) l -> Sorted call_order l.
Proof.
  induction 1 as [|ev l Hev Hl IH]; constructor; auto.
  destruct Hl; constructor. by right.
Qed.

Lemma loop_HdRel a l :
  (stage a <= 8)%nat -> Forall (fun ev => stage ev = 8%nat) l -> HdRel call_order a l.
Proof. intros Ha [|ev l' Hev _]; constructor. unfold call_order. lia. Qed.

Ltac in_order :=
  repeat match goal with
  | |- Sorted _ [] => apply Sorted_nil
  | |- Sorted _ (map cached _) => apply loop_Sorted
  | |- Sorted _ (_ ++ _) => apply loop_Sorted
  | |- Sorted _ (_ :: _) => apply Sorted_cons
  | |- HdRel _ _ [] => apply HdRel_nil
  | |- HdRel _ _ (map cached _) => apply loop_HdRel; [simpl; lia|]
  | |- HdRel _ _ (_ ++ _) => apply loop_HdRel; [simpl; lia|]
  | |- HdRel _ _ (_ :: _) => apply HdRel_cons; left; simpl; lia
  end.

Lemma calls_sorted lib cfg req :
  every_path (ipfsStore lib cfg req) (fun evs _ => StronglySorted call_order evs).
Proof.
  unfold ipfsStore. apply every_path_try_catch.
  enter_route lib cfg req.
  walk_whole.
  all: rewrite ?app_nil_r.
  all: apply Sorted_StronglySorted; [apply _|].
  all: in_order.
  all: each_call; reflexivity.
Qed.

(** What follows a submission the ledger accepted. *)
Lemma after_submission lib cfg req :
  every_path (ipfsStore lib cfg req) (fun evs res =>
    forall ts d m bundles tail,
      from_submission evs = EvSendTrytes ts d m (inr bundles) :: tail ->
      match bundles with
      | [] =>
          tail = [] /\
          exists e, exn_name e = "TypeError" /\
            res = inr {| success := false; message := toString e;
                         transactionHash := None; ipfs := None |}
      | b0 :: rest =>
          match asTransactionTrytes lib bundles with
          | inl e =>
              tail = [] /\
              res = inr {| success := false; message := toString e;
                           transactionHash := None; ipfs := None |}
          | inr attachedTrytes =>
              exists r tail',
                tail = EvBundleCacheSet {| bundle_id := tx_bundle b0;
                                           transactionHashes := map tx_hash bundles |} r ::
                       tail' /\
                match r with
                | inl e =>
                    tail' = [] /\
                    res = inr {| success := false; message := toString e;
                                 transactionHash := None; ipfs := None |}
                | inr _ =>
                    (tail' = map cached (transactionItems attachedTrytes bundles) /\
                     exists resp, res = inr resp /\ success resp = true) \/
                    (exists before t after e,
                       transactionItems attachedTrytes bundles = before ++ t :: after /\
                       tail' = map cached before ++ [EvTransactionCacheSet t (inl e)] /\
                       res = inr {| success := false; message := toString e;
                                    transactionHash := None; ipfs := None |})
                end
          end
      end).
Proof.
  unfold ipfsStore. apply every_path_try_catch.
  enter_route lib cfg req.
  walk_whole.
  all: rewrite ?app_nil_r.
  all: intros ts d m bundles tail Hfs; simpl in Hfs; try discriminate.
  all: injection Hfs as <- <- <- <- <-.
  all: subst.
  all: try match goal with
       | H : asTransactionTrytes _ [] = inl _ |- _ =>
           rewrite asTransactionTrytes_nil in H; discriminate
       end.
  all: try (split; [reflexivity|];
            exists (new_TypeError "Cannot read property 'bundle' of undefined");
            split; reflexivity).
  all: try match goal with
       | |- match ?l with [] => _ | _ :: _ => _ end =>
           destruct l;
           [ match goal with
             | H : asTransactionTrytes _ [] = inl _ |- _ =>
                 rewrite asTransactionTrytes_nil in H; discriminate
             end | ]
       end.
  all: match goal with
       | H : asTransactionTrytes _ _ = _ |- _ => rewrite H
       end.
  all: try (split; reflexivity).
  all: eexists _, _; (split; [reflexivity|]); simpl.
  all: try (split; reflexivity).
  all: try (left; split; [reflexivity|]; eexists; split; reflexivity).
  all: right; eexists _, _, _, _; split; [eassumption|]; split; reflexivity.
Qed.

(** What follows the write of the allocation state when the address
    derivation of line 118 or the encoding of line 137 throws. *)
Lemma after_allocation lib cfg req :
  every_path (ipfsStore lib cfg req) (fun evs res =>
    forall st files e,
      allocations evs = [st] -> added evs = Some files ->
      generateAddress lib (seed st) (addressIndex st) 2 = inl e \/
      ((exists a, generateAddress lib (seed st) (addressIndex st) 2 = inr a) /\
       toTrytes lib {| pl_name := req_name req;
                       pl_description := req_description req;
                       pl_size := req_size req;
                       pl_modified := req_modified req;
                       pl_algorithm := req_algorithm req;
                       pl_hash := req_hash req;
                       pl_ipfs := last files |} = inl e) ->
      res = inr {| success := false; message := toString e;
                   transactionHash := None; ipfs := None |} /\
      last evs = Some (EvStateSet st (inr tt))).
Proof.
  unfold ipfsStore. apply every_path_try_catch.
  enter_route lib cfg req.
  walk_whole.
  all: rewrite ?app_nil_r.
  all: intros st files e' Hal Had Hthrow; simpl in Hal, Had;
       rewrite ?allocations_cached_app, ?allocations_cached in Hal; simpl in Hal;
       try discriminate.
  all: injection Hal as <-; injection Had as <-; simpl in Hthrow.
  all: repeat match goal with u : unit |- _ => destruct u end.
  all: destruct Hthrow as [Hthrow|[[a Ha] Hthrow]]; try congruence.
  all: split; [|reflexivity]; do 2 f_equal; congruence.
Qed.

(** The calls on the allocation state, from a given table. *)
Lemma state_calls lib cfg req tbl :
  every_path_from tbl (ipfsStore lib cfg req) (fun evs _ _ =>
    Forall (state_call_ok tbl evs) evs).
Proof.
  unfold ipfsStore. apply every_path_from_try_catch.
  enter_route lib cfg req.
  walk_from.
  all: rewrite ?app_nil_r.
  all: each_call.
  all: simpl; rewrite ?generated_cached, ?generated_cached_nil; simpl; auto.
  all: repeat match goal with
       | H : Some _ = table_get _ _ |- _ => symmetry in H
       | H : None = table_get _ _ |- _ => symmetry in H
       | H : ?o = Some _, H' : table_get _ _ = ?o |- _ => rewrite H in H'
       | H : ?o = None, H' : table_get _ _ = ?o |- _ => rewrite H in H'
       end.
  all: try match goal with
       | H : table_get _ _ = Some _ |- _ => pose proof (table_get_id _ _ _ H); rewrite H
       end.
  all: try match goal with H : table_get _ _ = None |- _ => rewrite H end.
  all: simpl; auto.
Qed.

Local Transparent transactionItems.

(** A provider string the pattern of line 67 does not match, or matches
    with a number of groups other than four. *)
Lemma unparsable_provider lib cfg req :
  provider_exec lib (ipfs_provider cfg) = None \/
  (exists parts, provider_exec lib (ipfs_provider cfg) = Some parts /\
     length parts <> 5%nat) ->
  every_path (ipfsStore lib cfg req) (fun evs res =>
    exists resp, res = inr resp /\ success resp = false /\
      (evs = [] \/
       (exists e', evs = [EvIsNodeAvailable (node_provider cfg) (inl e')]) \/
       (exists b, evs = [EvIsNodeAvailable (node_provider cfg) (inr b)] /\
          (checkSize (Buffer_from_base64 lib (req_data req)) = Ret tt ->
           checkHash lib req (Buffer_from_base64 lib (req_data req)) = Ret tt ->
           exists e,
             message resp = toString e /\
             match provider_exec lib (ipfs_provider cfg) with
             | None => exn_name e = "TypeError"
             | Some _ => e = new_Error providerMessage
             end)))).
Proof.
  intros Hp.
  assert (exists e, makeIpfsConfig lib cfg = Throw e /\
            match provider_exec lib (ipfs_provider cfg) with
            | None => exn_name e = "TypeError"
            | Some _ => e = new_Error providerMessage
            end) as (e & He & Hkind).
  { unfold makeIpfsConfig.
    destruct Hp as [->|(parts & -> & Hlen)]; [by eexists|].
    destruct (Nat.eqb_spec (length parts) 5); [done|]. by eexists. }
  unfold ipfsStore. apply every_path_try_catch.
  enter_route lib cfg req.
  rewrite Hc in He. destruct rc as [e'|c]; [injection He as ->|done].
  walk.
  all: eexists; split; [reflexivity|]; split; [reflexivity|].
  all: eauto 10.
  all: right; right; eexists; split; [reflexivity|]; intros; simpl in *;
       first [congruence | by exists e].
Qed.

(** ** Logs of runs *)

Lemma log_sorted lib sv cfg req w :
  StronglySorted call_order (log sv (ipfsStore lib cfg req) w).
Proof. exact (every_path_sound _ _ sv w (calls_sorted lib cfg req)). Qed.

Lemma log_calls_ok lib sv cfg req w :
  Forall (call_ok lib cfg req (log sv (ipfsStore lib cfg req) w))
    (log sv (ipfsStore lib cfg req) w).
Proof. exact (every_path_sound _ _ sv w (calls_ok lib cfg req)). Qed.

(** In a strict program at most one call fails, and it is the last call
    made. *)
Lemma strict_first_failure {A} (p : Prog A) :
  strict p ->
  every_path p (fun evs res =>
    forall ev, ev ∈ evs -> failure ev <> None ->
      exists pre, evs = pre ++ [ev] /\ Forall (fun a => failure a = None) pre).
Proof.
  induction 1 as [a|e|X c k Hk Hs IH]; simpl.
  - intros ev Hin. by apply elem_of_nil in Hin.
  - intros ev Hin. by apply elem_of_nil in Hin.
  - intros [e|x].
    + rewrite Hk. simpl. intros ev Hin _.
      apply list_elem_of_singleton in Hin as ->. by exists [].
    + eapply every_path_mono; [|apply IH]. simpl.
      intros evs res Hall ev Hin Hf.
      apply elem_of_cons in Hin as [->|Hin].
      * by rewrite failure_event_of in Hf.
      * destruct (Hall ev Hin Hf) as (pre & -> & Hpre).
        exists (event_of c (inr x) :: pre). split; [done|].
        constructor; [|done]. by rewrite failure_event_of.
Qed.

Lemma failed_call lib sv cfg req w ev e :
  ev ∈ log sv (ipfsStore lib cfg req) w -> failure ev = Some e ->
  fst (run sv (ipfsStore lib cfg req) w) =
    inr {| success := false; message := toString e;
           transactionHash := None; ipfs := None |} /\
  exists pre,
    log sv (ipfsStore lib cfg req) w = pre ++ [ev] /\
    Forall (fun a => failure a = None) pre.
Proof.
  rewrite run_ipfsStore, log_ipfsStore. intros Hin Hf.
  pose proof (every_path_sound _ _ sv w
    (strict_every_path _ (strict_ipfsStore_try lib cfg req))) as H1.
  pose proof (every_path_sound _ _ sv w
    (strict_first_failure _ (strict_ipfsStore_try lib cfg req))) as H2.
  cbv beta in H1, H2. destruct (H1 ev e Hin Hf) as [Hres _].
  split.
  - destruct (run sv (ipfsStore_try lib cfg req) w) as [[e'|resp] w']; simpl in *; congruence.
  - apply H2; [done|congruence].
Qed.

Lemma no_write_before_persist evs :
  Forall (fun ev => stage ev <> 4%nat) evs -> allocations evs = [].
Proof.
  induction 1 as [|ev evs Hev _ IH]; [done|].
  destruct ev as [| | |st [e|x]| | | | |]; simpl in *; auto. done.
Qed.

Lemma before_failed_call lib sv cfg req w pre ev :
  log sv (ipfsStore lib cfg req) w = pre ++ [ev] ->
  (stage ev < 8)%nat ->
  Forall (fun a => (stage a < stage ev)%nat) pre.
Proof.
  intros Hlog Hev. pose proof (log_sorted lib sv cfg req w) as Hs. rewrite Hlog in Hs.
  apply Forall_forall. intros a Ha.
  destruct (StronglySorted_app_1_elem_of _ _ _ a ev Hs Ha) as [?|[? ?]]; [left|done|lia].
Qed.

Lemma replay_failed pre ev e tbl :
  failure ev = Some e -> replay (pre ++ [ev]) tbl = replay pre tbl.
Proof.
  intros Hf. revert tbl. induction pre as [|a pre IH]; intros tbl; simpl.
  - by destruct ev as [| | |st [e'|x]| | | | |].
  - destruct a as [| | |st [e'|x]| | | | |]; auto.
Qed.

Lemma added_elem_of evs files :
  added evs = Some files -> exists c b, EvIpfsAdd c b (inr files) ∈ evs.
Proof.
  induction evs as [|ev evs IH]; simpl; [done|].
  destruct ev as [|c b [e|fs]| | | | | | |]; try (intros H; destruct (IH H) as (c' & b' & ?);
    exists c', b'; by right).
  intros [= ->]. exists c, b. left.
Qed.

Lemma prepared_trytes_elem_of evs ts :
  prepared_trytes evs = Some ts ->
  exists sd transfers, EvPrepareTransfers sd transfers (inr ts) ∈ evs.
Proof.
  induction evs as [|ev evs IH]; simpl; [done|].
  destruct ev as [| | | | |sd tr [e|ts']| | |]; try (intros H; destruct (IH H) as (sd' & tr' & ?);
    exists sd', tr'; by right).
  intros [= ->]. exists sd, tr. left.
Qed.

Lemma prepared_elem_of evs sd transfers r :
  EvPrepareTransfers sd transfers r ∈ evs -> prepared evs <> [].
Proof.
  induction evs as [|ev evs IH]; intros Hin; [by apply elem_of_nil in Hin|].
  apply elem_of_cons in Hin as [<-|Hin]; simpl; [done|].
  destruct ev; first [done|auto].
Qed.

Lemma from_submission_elem_of evs ts d m r :
  StronglySorted call_order evs ->
  EvSendTrytes ts d m r ∈ evs ->
  exists tail, from_submission evs = EvSendTrytes ts d m r :: tail.
Proof.
  induction 1 as [|ev evs Hs IH Hev]; intros Hin; [by apply elem_of_nil in Hin|].
  simpl. apply elem_of_cons in Hin as [<-|Hin]; [by eexists|].
  destruct (isSubmission ev) eqn:Hsub; [|auto].
  exfalso. pose proof (proj1 (Forall_forall _ _) Hev _ Hin) as Ho.
  destruct ev; try discriminate. destruct Ho as [Ho|[Ho _]]; simpl in Ho; lia.
Qed.


Lemma from_submission_last evs ev : from_submission evs = [ev] -> last evs = Some ev.
Proof.
  induction evs as [|ev' evs IH]; simpl; [done|].
  destruct (isSubmission ev').
  - by intros [= -> ->].
  - intros H. rewrite last_cons, (IH H). done.
Qed.

(** A request that prepared a transfer has persisted a state, which the
    table holds when the request ends. *)
Lemma allocated_before_prepare lib sv cfg req w :
  prepared (log sv (ipfsStore lib cfg req) w) <> [] ->
  exists st,
    allocations (log sv (ipfsStore lib cfg req) w) = [st] /\
    table_get (stateTable (snd (run sv (ipfsStore lib cfg req) w))) "default" = Some st.
Proof.
  intros Hp.
  pose proof (every_path_from_sound _ _ sv w
    (allocation_paths lib cfg req (stateTable w))) as H.
  cbv beta in H. destruct H as [(_ & _ & ?)|(st & Ha & -> & Hid & _)]; [done|].
  exists st. split; [done|]. by apply table_get_set_default.
Qed.

Lemma StronglySorted_lookup {A} (R : relation A) l i j a b :
  StronglySorted R l -> l !! i = Some a -> l !! j = Some b -> (i < j)%nat -> R a b.
Proof.
  intros Hs. revert i j. induction Hs as [|x l Hs IH Hx]; intros i j Hi Hj Hij; [done|].
  destruct j as [|j]; [lia|]. simpl in Hj. destruct i as [|i]; simpl in Hi.
  - injection Hi as ->. eapply Forall_forall; [exact Hx|]. by eapply list_elem_of_lookup_2.
  - apply (IH i j); [done..|lia].
Qed.

(** ** The content store *)

(** X3. When the configured IPFS provider does not match the pattern of
    line 67 ([exec] returns null), or matches with a number of groups
    other than four, every request is answered success=false after at
    most the availability probe: nothing is written to the content store,
    the allocation state is left as it was and nothing is submitted.  For
    a request that passes the checks before it, the message is the string
    of the thrown value: the provider-format error of line 70 when the
    number of groups is wrong, but a TypeError of the engine, raised by
    [parts.length] on null, when the pattern does not match. *)
Theorem unparsable_provider_fails_every_request lib sv cfg req w :
  provider_exec lib (ipfs_provider cfg) = None \/
  (exists parts, provider_exec lib (ipfs_provider cfg) = Some parts /\
     length parts <> 5%nat) ->
  exists resp,
    fst (run sv (ipfsStore lib cfg req) w) = inr resp /\
    success resp = false /\
    Forall (fun ev => isProbe ev = true) (log sv (ipfsStore lib cfg req) w) /\
    stateTable (snd (run sv (ipfsStore lib cfg req) w)) = stateTable w /\
    (validate lib req = Ret tt ->
     (exists b, EvIsNodeAvailable (node_provider cfg) (inr b) ∈ log sv (ipfsStore lib cfg req) w) ->
     checkSize (Buffer_from_base64 lib (req_data req)) = Ret tt ->
     checkHash lib req (Buffer_from_base64 lib (req_data req)) = Ret tt ->
     exists e,
       message resp = toString e /\
       match provider_exec lib (ipfs_provider cfg) with
       | None => exn_name e = "TypeError"
       | Some _ => e = new_Error providerMessage
       end).
Proof.
  intros Hp.
  pose proof (every_path_sound _ _ sv w (unparsable_provider lib cfg req Hp)) as H.
  cbv beta in H. destruct H as (resp & Hres & Hs & Hevs).
  exists resp. rewrite run_table.
  destruct Hevs as [->|[[e' ->]|(b & -> & Hm)]]; simpl.
  - repeat split; auto. intros _ [b Hb]. by apply elem_of_nil in Hb.
  - repeat split; auto. intros _ [b Hb].
    apply list_elem_of_singleton in Hb. done.
  - repeat split; auto.
Qed.

(** The example request when the provider is configured without protocol
    and port. *)
Lemma unparsable_provider_witness :
  exists resp e,
    fst (run Demo.up (ipfsStore Demo.lib Faults.misconfigured Demo.request) Demo.used) =
      inr resp /\
    success resp = false /\
    message resp = toString e /\
    exn_name e = "TypeError".
Proof.
  destruct (unparsable_provider_fails_every_request Demo.lib Demo.up Faults.misconfigured
              Demo.request Demo.used)
    as (resp & Hres & Hs & _ & _ & Hm).
  - left. reflexivity.
  - destruct Hm as (e & Hm & He).
    + reflexivity.
    + exists true. apply list_elem_of_here.
    + reflexivity.
    + reflexivity.
    + exists resp, e. split; [exact Hres|]. split; [exact Hs|]. split; [exact Hm|exact He].
Defined.

(** X4. Every write to the content store is addressed with the groups of
    the provider pattern: protocol, host, port and API path are the
    second to fifth elements of the match; the Authorization header is
    "Basic " followed by the configured token when the token is a
    non-empty string, and no header is sent otherwise. *)
Theorem content_store_is_addressed_by_the_provider lib sv cfg req w c b r :
  EvIpfsAdd c b r ∈ log sv (ipfsStore lib cfg req) w ->
  exists whole proto h p path,
    provider_exec lib (ipfs_provider cfg) = Some [whole; proto; h; p; path] /\
    c = {| protocol := proto; host := h; port := p; api_path := path;
           headers :=
             match ipfs_token cfg with
             | Some token => if String.eqb token "" then None else Some ("Basic " +:+ token)
             | None => None
             end |}.
Proof.
  intros Hin.
  pose proof (log_calls_ok lib sv cfg req w) as Hok.
  pose proof (proj1 (Forall_forall _ _) Hok _ Hin) as (_ & _ & Hc & _).
  unfold makeIpfsConfig in Hc.
  destruct (provider_exec lib (ipfs_provider cfg)) as [parts|]; [|done].
  destruct parts as [|whole [|proto [|h [|p [|path [|? ?]]]]]]; try done.
  simpl in Hc. injection Hc as <-.
  exists whole, proto, h, p, path. split; [done|].
  by destruct (ipfs_token cfg) as [token|]; simpl; [destruct (String.eqb token "")|].
Qed.

(** The example request when the provider asks for credentials. *)
Lemma content_store_address_witness :
  exists whole proto h p path,
    provider_exec Demo.lib (ipfs_provider Faults.with_token) =
      Some [whole; proto; h; p; path] /\
    {| protocol := "https"; host := "ipfs.example.com"; port := "443";
       api_path := "/api/v0/"; headers := Some "Basic dXNlcjpwYXNz" |} =
    {| protocol := proto; host := h; port := p; api_path := path;
       headers :=
         match ipfs_token Faults.with_token with
         | Some token => if String.eqb token "" then None else Some ("Basic " +:+ token)
         | None => None
         end |}.
Proof.
  apply (content_store_is_addressed_by_the_provider Demo.lib Demo.up Faults.with_token
           Demo.request Demo.used _ Demo.hello (inr ["QmHello"])).
  apply list_elem_of_further, list_elem_of_here.
Defined.

(** X5. The bytes written to the content store are the decoded data of
    the request, and they are written only after the request passed
    validation, the two size checks and the hash check: they are more
    than 0 and fewer than 524288 bytes, and the declared hash is their
    SHA-256 digest (algorithm "sha256") or their SHA3-256 digest
    (algorithm "sha3"). *)
Theorem stored_bytes_are_the_verified_bytes lib sv cfg req w c b r :
  EvIpfsAdd c b r ∈ log sv (ipfsStore lib cfg req) w ->
  let buffer := Buffer_from_base64 lib (req_data req) in
  b = buffer /\
  validate lib req = Ret tt /\
  0 < Z.of_nat (length buffer) < maxSize /\
  ((req_algorithm req = "sha256" /\ req_hash req = sha256_hex lib buffer) \/
   (req_algorithm req = "sha3" /\ req_hash req = sha3_256_hex lib buffer)).
Proof.
  intros Hin buffer.
  pose proof (log_calls_ok lib sv cfg req w) as Hok.
  pose proof (proj1 (Forall_forall _ _) Hok _ Hin) as (-> & Hv & _ & Hs & Hh).
  split; [done|]. split; [done|].
  split; [by apply checkSize_passed|]. by apply checkHash_passed.
Qed.

(** The example request. *)
Lemma stored_bytes_witness :
  Demo.hello = Buffer_from_base64 Demo.lib (req_data Demo.request) /\
  validate Demo.lib Demo.request = Ret tt /\
  0 < Z.of_nat (length (Buffer_from_base64 Demo.lib (req_data Demo.request))) < maxSize /\
  ((req_algorithm Demo.request = "sha256" /\
    req_hash Demo.request =
      sha256_hex Demo.lib (Buffer_from_base64 Demo.lib (req_data Demo.request))) \/
   (req_algorithm Demo.request = "sha3" /\
    req_hash Demo.request =
      sha3_256_hex Demo.lib (Buffer_from_base64 Demo.lib (req_data Demo.request)))).
Proof.
  apply (stored_bytes_are_the_verified_bytes Demo.lib Demo.up Demo.config Demo.request
           Demo.used Faults.endpoint Demo.hello (inr ["QmHello"])).
  apply list_elem_of_further, list_elem_of_here.
Defined.

(** X6. When the write to the content store fails, the route answers
    success=false with the failure's string; it has neither read nor
    written the allocation state, so that no address index is used up,
    and it has submitted nothing to the ledger. *)
Theorem content_store_failure_uses_no_index lib sv cfg req w c b e :
  EvIpfsAdd c b (inl e) ∈ log sv (ipfsStore lib cfg req) w ->
  fst (run sv (ipfsStore lib cfg req) w) =
    inr {| success := false; message := toString e;
           transactionHash := None; ipfs := None |} /\
  Forall (fun ev => isStateAccess ev = false /\ isSubmission ev = false)
    (log sv (ipfsStore lib cfg req) w) /\
  stateTable (snd (run sv (ipfsStore lib cfg req) w)) = stateTable w.
Proof.
  intros Hin.
  destruct (failed_call lib sv cfg req w _ e Hin eq_refl) as (Hres & pre & Hlog & _).
  split; [done|].
  pose proof (before_failed_call lib sv cfg req w pre _ Hlog) as Hpre. simpl in Hpre.
  specialize (Hpre ltac:(lia)).
  assert (Forall (fun ev => (stage ev <= 1)%nat) (log sv (ipfsStore lib cfg req) w)) as Hall.
  { rewrite Hlog. apply Forall_app_2.
    - eapply Forall_impl; [exact Hpre|]. simpl. lia.
    - repeat constructor. }
  split.
  - eapply Forall_impl; [exact Hall|]. intros [] Hs; simpl in *; (done || lia).
  - rewrite run_table. apply replay_no_allocations, no_write_before_persist.
    eapply Forall_impl; [exact Hall|]. simpl. lia.
Qed.

(** The example request while the content store is unreachable. *)
Lemma content_store_failure_witness :
  fst (run Faults.ipfs_down (ipfsStore Demo.lib Demo.config Demo.request) Demo.used) =
    inr {| success := false; message := "Error: connect ECONNREFUSED";
           transactionHash := None; ipfs := None |} /\
  Forall (fun ev => isStateAccess ev = false /\ isSubmission ev = false)
    (log Faults.ipfs_down (ipfsStore Demo.lib Demo.config Demo.request) Demo.used) /\
  stateTable (snd (run Faults.ipfs_down (ipfsStore Demo.lib Demo.config Demo.request)
                     Demo.used)) = stateTable Demo.used.
Proof.
  apply (content_store_failure_uses_no_index Demo.lib Faults.ipfs_down Demo.config Demo.request
           Demo.used Faults.endpoint Demo.hello (new_Error "connect ECONNREFUSED")).
  apply list_elem_of_further, list_elem_of_here.
Defined.

(** X7. The route does not check that the content store returned a
    content id.  When the add stream yields no file, the payload it
    encodes for the ledger has no ipfs field, and a request that then
    succeeds answers success=true, message "OK", with no content id. *)
Theorem missing_content_id_is_not_checked lib sv cfg req w :
  added (log sv (ipfsStore lib cfg req) w) = Some [] ->
  (forall sd transfers r,
     EvPrepareTransfers sd transfers r ∈ log sv (ipfsStore lib cfg req) w ->
     exists a msg,
       toTrytes lib {| pl_name := req_name req;
                       pl_description := req_description req;
                       pl_size := req_size req;
                       pl_modified := req_modified req;
                       pl_algorithm := req_algorithm req;
                       pl_hash := req_hash req;
                       pl_ipfs := None |} = inr msg /\
       transfers = [ {| address := a; value := 0; tmessage := msg |} ]) /\
  (forall resp,
     fst (run sv (ipfsStore lib cfg req) w) = inr resp ->
     success resp = true ->
     ipfs resp = None /\ message resp = "OK").
Proof.
  intros Ha. split.
  - intros sd transfers r Hin.
    pose proof (proj1 (Forall_forall _ _) (log_calls_ok lib sv cfg req w) _ Hin)
      as (_ & files & a & msg & Ha' & Ht & ->).
    rewrite Ha in Ha'. injection Ha' as <-. by exists a, msg.
  - intros resp Hres Hs.
    pose proof (every_path_sound _ _ sv w (success_shape lib cfg req)) as H.
    cbv beta in H. destruct (H resp Hres) as [Hok _].
    destruct (Hok Hs) as (ts & b0 & rest & files & attached & _ & _ & Ha' & -> & -> & _).
    rewrite Ha in Ha'. by injection Ha' as <-.
Qed.

(** The example request when the add stream yields no file: the request
    succeeds. *)
Lemma missing_content_id_witness :
  fst (run Faults.empty_stream (ipfsStore Demo.lib Demo.config Demo.request) Demo.used) =
    inr {| success := true; message := "OK";
           transactionHash := Some ("HASH9" +:+ Faults.encoded); ipfs := None |} /\
  ipfs {| success := true; message := "OK";
          transactionHash := Some ("HASH9" +:+ Faults.encoded); ipfs := None |} = None /\
  message {| success := true; message := "OK";
             transactionHash := Some ("HASH9" +:+ Faults.encoded); ipfs := None |} = "OK".
Proof.
  split; [reflexivity|].
  apply (proj2 (missing_content_id_is_not_checked Demo.lib Faults.empty_stream Demo.config
                  Demo.request Demo.used eq_refl)).
  - reflexivity.
  - reflexivity.
Defined.

(** ** The allocation state *)

(** X8. One request run alone, from its first call to its answer, on the
    table [stateTable w] it starts with (no other request writes the
    table meanwhile).  It reads the allocation state under the key
    "default" only.  It calls [TrytesHelper.generateHash] only when that
    table holds nothing under that key.  Every state it tries to write,
    whether the write succeeds or not, has the id "default" and is the
    successor of what that table holds: the seed held with the index held
    plus one, or the generated seed with index 0.  Nothing is said here
    of requests in flight together, where the table may have changed
    between the read and the write of a request. *)
Theorem seed_is_generated_only_when_nothing_is_stored lib sv cfg req w :
  (forall key r, EvStateGet key r ∈ log sv (ipfsStore lib cfg req) w -> key = "default") /\
  (forall r, EvGenerateHash r ∈ log sv (ipfsStore lib cfg req) w ->
     table_get (stateTable w) "default" = None) /\
  (forall st r, EvStateSet st r ∈ log sv (ipfsStore lib cfg req) w ->
     id st = "default" /\
     next_state (table_get (stateTable w) "default")
       (generated (log sv (ipfsStore lib cfg req) w)) st).
Proof.
  pose proof (every_path_from_sound _ _ sv w (state_calls lib cfg req (stateTable w))) as H.
  cbv beta in H. split; [|split].
  - intros key r Hin.
    by pose proof (proj1 (Forall_forall _ _) (log_calls_ok lib sv cfg req w) _ Hin) as [? _].
  - intros r Hin. exact (proj1 (Forall_forall _ _) H _ Hin).
  - intros st r Hin. exact (proj1 (Forall_forall _ _) H _ Hin).
Qed.

(** The example request on an empty table: the seed is generated, and
    the state written has index 0. *)
Lemma seed_generation_witness :
  table_get (stateTable Demo.fresh) "default" = None /\
  id {| seed := "SEED"; id := "default"; addressIndex := 0 |} = "default" /\
  next_state (table_get (stateTable Demo.fresh) "default")
    (generated (log Demo.up (ipfsStore Demo.lib Demo.config Demo.request) Demo.fresh))
    {| seed := "SEED"; id := "default"; addressIndex := 0 |}.
Proof.
  destruct (seed_is_generated_only_when_nothing_is_stored Demo.lib Demo.up Demo.config
              Demo.request Demo.fresh) as (_ & Hgen & Hset).
  split.
  - apply (Hgen (inr "SEED")). do 3 apply list_elem_of_further. apply list_elem_of_here.
  - apply (Hset _ (inr tt)). do 4 apply list_elem_of_further. apply list_elem_of_here.
Defined.

(** X9. When, after the state was written, the address derivation of
    line 118 throws, or the encoding of the payload of line 137 does, the
    route answers success=false with the thrown value's string; the write
    of the state is the last call it made, so nothing reached the ledger,
    and the table holds the state written: the index is used up. *)
Theorem failure_between_allocation_and_ledger lib sv cfg req w st files e :
  EvStateSet st (inr tt) ∈ log sv (ipfsStore lib cfg req) w ->
  added (log sv (ipfsStore lib cfg req) w) = Some files ->
  generateAddress lib (seed st) (addressIndex st) 2 = inl e \/
  ((exists a, generateAddress lib (seed st) (addressIndex st) 2 = inr a) /\
   toTrytes lib {| pl_name := req_name req;
                   pl_description := req_description req;
                   pl_size := req_size req;
                   pl_modified := req_modified req;
                   pl_algorithm := req_algorithm req;
                   pl_hash := req_hash req;
                   pl_ipfs := last files |} = inl e) ->
  fst (run sv (ipfsStore lib cfg req) w) =
    inr {| success := false; message := toString e;
           transactionHash := None; ipfs := None |} /\
  last (log sv (ipfsStore lib cfg req) w) = Some (EvStateSet st (inr tt)) /\
  table_get (stateTable (snd (run sv (ipfsStore lib cfg req) w))) "default" = Some st.
Proof.
  intros Hin Ha Hthrow. apply elem_of_allocations in Hin.
  destruct (allocation_run lib sv cfg req w) as [[Hal _]|(st' & Hal & Htbl & Hid & _)];
    rewrite Hal in Hin.
  { by apply elem_of_nil in Hin. }
  apply list_elem_of_singleton in Hin as ->.
  pose proof (every_path_sound _ _ sv w (after_allocation lib cfg req)) as H.
  cbv beta in H. destruct (H _ _ _ Hal Ha Hthrow) as [Hres Hlast].
  split; [done|]. split; [done|]. rewrite Htbl. by apply table_get_set_default.
Qed.

(** The example request when the payload cannot be encoded and the
    stored index is 5: index 6 is used up. *)
Lemma failure_after_allocation_witness :
  fst (run Demo.up (ipfsStore Faults.unencodable Demo.config Demo.request) Demo.used) =
    inr {| success := false; message := "Error: Invalid character";
           transactionHash := None; ipfs := None |} /\
  last (log Demo.up (ipfsStore Faults.unencodable Demo.config Demo.request) Demo.used) =
    Some (EvStateSet Faults.sixth (inr tt)) /\
  table_get (stateTable (snd (run Demo.up (ipfsStore Faults.unencodable Demo.config
                                              Demo.request) Demo.used))) "default" =
    Some Faults.sixth.
Proof.
  apply (failure_between_allocation_and_ledger Faults.unencodable Demo.up Demo.config
           Demo.request Demo.used Faults.sixth ["QmHello"] (new_Error "Invalid character")).
  - do 3 apply list_elem_of_further. apply list_elem_of_here.
  - reflexivity.
  - right. split; [|reflexivity]. eexists. reflexivity.
Defined.

(** ** The ledger *)

(** X10. Every call to [prepareTransfers] is made with a seed of 81
    nines and exactly one transfer, of value 0, whose message is the
    encoding of the payload made of the request's name, description,
    declared size, modified date, algorithm and declared hash and of the
    content id, the path of the last file the content store yielded.  The
    declared hash it anchors has been verified: it is the digest the
    route computed from the decoded data. *)
Theorem anchored_message_encodes_the_request lib sv cfg req w sd transfers r :
  EvPrepareTransfers sd transfers r ∈ log sv (ipfsStore lib cfg req) w ->
  sd = repeat_string "9" 81 /\
  exists files a msg,
    added (log sv (ipfsStore lib cfg req) w) = Some files /\
    toTrytes lib {| pl_name := req_name req;
                    pl_description := req_description req;
                    pl_size := req_size req;
                    pl_modified := req_modified req;
                    pl_algorithm := req_algorithm req;
                    pl_hash := req_hash req;
                    pl_ipfs := last files |} = inr msg /\
    transfers = [ {| address := a; value := 0; tmessage := msg |} ] /\
    computeHex lib (req_algorithm req) (Buffer_from_base64 lib (req_data req)) =
      Some (req_hash req).
Proof.
  intros Hin.
  pose proof (log_calls_ok lib sv cfg req w) as Hok.
  pose proof (proj1 (Forall_forall _ _) Hok _ Hin) as (-> & files & a & msg & Ha & Ht & ->).
  split; [done|]. exists files, a, msg. do 3 (split; [done|]).
  destruct (added_elem_of _ _ Ha) as (c & b & Hadd).
  pose proof (proj1 (Forall_forall _ _) Hok _ Hadd) as (_ & _ & _ & _ & Hh).
  destruct (checkHash_cases lib req (Buffer_from_base64 lib (req_data req)))
    as [[? _]|[_ ?]]; [congruence|done].
Qed.

(** The example request when the stored index is 5. *)
Lemma anchored_message_witness :
  repeat_string "9" 81 = repeat_string "9" 81 /\
  exists files a msg,
    added (log Demo.up (ipfsStore Demo.lib Demo.config Demo.request) Demo.used) = Some files /\
    toTrytes Demo.lib {| pl_name := req_name Demo.request;
                         pl_description := req_description Demo.request;
                         pl_size := req_size Demo.request;
                         pl_modified := req_modified Demo.request;
                         pl_algorithm := req_algorithm Demo.request;
                         pl_hash := req_hash Demo.request;
                         pl_ipfs := last files |} = inr msg /\
    [Faults.transfer] = [ {| address := a; value := 0; tmessage := msg |} ] /\
    computeHex Demo.lib (req_algorithm Demo.request)
      (Buffer_from_base64 Demo.lib (req_data Demo.request)) = Some (req_hash Demo.request).
Proof.
  apply (anchored_message_encodes_the_request Demo.lib Demo.up Demo.config Demo.request
           Demo.used (repeat_string "9" 81) [Faults.transfer] (inr [Faults.encoded])).
  do 4 apply list_elem_of_further. apply list_elem_of_here.
Defined.

(** X11. Every submission to the ledger sends the trytes a successful
    [prepareTransfers] of the same request returned, with the depth and
    the minimum weight magnitude of the configuration. *)
Theorem submission_sends_the_prepared_trytes lib sv cfg req w ts d m r :
  EvSendTrytes ts d m r ∈ log sv (ipfsStore lib cfg req) w ->
  d = node_depth cfg /\ m = node_mwm cfg /\
  exists sd transfers,
    EvPrepareTransfers sd transfers (inr ts) ∈ log sv (ipfsStore lib cfg req) w.
Proof.
  intros Hin.
  pose proof (log_calls_ok lib sv cfg req w) as Hok.
  pose proof (proj1 (Forall_forall _ _) Hok _ Hin) as (-> & -> & Hp).
  do 2 (split; [done|]). by apply prepared_trytes_elem_of.
Qed.

(** The example request when the stored index is 5. *)
Lemma submission_witness :
  3 = node_depth Demo.config /\ 9 = node_mwm Demo.config /\
  exists sd transfers,
    EvPrepareTransfers sd transfers (inr [Faults.encoded]) ∈
      log Demo.up (ipfsStore Demo.lib Demo.config Demo.request) Demo.used.
Proof.
  apply (submission_sends_the_prepared_trytes Demo.lib Demo.up Demo.config Demo.request
           Demo.used [Faults.encoded] 3 9 (inr [Faults.attached])).
  do 5 apply list_elem_of_further. apply list_elem_of_here.
Defined.

(** X12. When the ledger answers a submission with an empty array, the
    route answers success=false, the message being the string of the
    TypeError the engine raises on [bundles[0].bundle]; the submission is
    the last call it made, so nothing is cached; and the address index it
    persisted before stays used up. *)
Theorem empty_bundle_is_reported_as_a_failure lib sv cfg req w ts d m :
  EvSendTrytes ts d m (inr []) ∈ log sv (ipfsStore lib cfg req) w ->
  (exists e,
     exn_name e = "TypeError" /\
     fst (run sv (ipfsStore lib cfg req) w) =
       inr {| success := false; message := toString e;
              transactionHash := None; ipfs := None |}) /\
  last (log sv (ipfsStore lib cfg req) w) = Some (EvSendTrytes ts d m (inr [])) /\
  exists st,
    allocations (log sv (ipfsStore lib cfg req) w) = [st] /\
    table_get (stateTable (snd (run sv (ipfsStore lib cfg req) w))) "default" = Some st.
Proof.
  intros Hin.
  destruct (from_submission_elem_of _ _ _ _ _ (log_sorted lib sv cfg req w) Hin) as [tail Hfs].
  pose proof (every_path_sound _ _ sv w (after_submission lib cfg req)) as H.
  cbv beta in H. destruct (H _ _ _ _ _ Hfs) as [-> Hres].
  split; [done|]. split; [by apply from_submission_last|].
  apply allocated_before_prepare.
  pose proof (proj1 (Forall_forall _ _) (log_calls_ok lib sv cfg req w) _ Hin) as (_ & _ & Hp).
  destruct (prepared_trytes_elem_of _ _ Hp) as (sd & tr & Hp').
  by eapply prepared_elem_of.
Qed.

(** The example request when the ledger answers with an empty array and
    the stored index is 5. *)
Lemma empty_bundle_witness :
  (exists e,
     exn_name e = "TypeError" /\
     fst (run Faults.empty_bundle (ipfsStore Demo.lib Demo.config Demo.request) Demo.used) =
       inr {| success := false; message := toString e;
              transactionHash := None; ipfs := None |}) /\
  last (log Faults.empty_bundle (ipfsStore Demo.lib Demo.config Demo.request) Demo.used) =
    Some (EvSendTrytes [Faults.encoded] 3 9 (inr [])) /\
  exists st,
    allocations (log Faults.empty_bundle (ipfsStore Demo.lib Demo.config Demo.request)
                   Demo.used) = [st] /\
    table_get (stateTable (snd (run Faults.empty_bundle
      (ipfsStore Demo.lib Demo.config Demo.request) Demo.used))) "default" = Some st.
Proof.
  apply (empty_bundle_is_reported_as_a_failure Demo.lib Faults.empty_bundle Demo.config
           Demo.request Demo.used [Faults.encoded] 3 9).
  do 5 apply list_elem_of_further. apply list_elem_of_here.
Defined.

(** X13. A request that answers success=false after the ledger accepted
    its submission with a non-empty bundle failed at the conversion of
    the bundle to trytes or at a cache write, and its message is that
    failure's string.  Either [asTransactionTrytes] threw and nothing was
    written to the caches; or the write of the bundle failed and nothing
    else was written; or the bundle was written and the writes of the
    transactions went, in order, up to the one that failed: the items
    before it are cached, the others are not.  The submitted transactions
    stay on the ledger, and the response carries neither their hash nor
    the content id. *)
Theorem failure_after_accepted_submission lib sv cfg req w ts d m b0 rest resp :
  EvSendTrytes ts d m (inr (b0 :: rest)) ∈ log sv (ipfsStore lib cfg req) w ->
  fst (run sv (ipfsStore lib cfg req) w) = inr resp ->
  success resp = false ->
  let bundles := b0 :: rest in
  let bundle := {| bundle_id := tx_bundle b0; transactionHashes := map tx_hash bundles |} in
  exists e tail,
    resp = {| success := false; message := toString e;
              transactionHash := None; ipfs := None |} /\
    from_submission (log sv (ipfsStore lib cfg req) w) =
      EvSendTrytes ts d m (inr bundles) :: tail /\
    ((asTransactionTrytes lib bundles = inl e /\ tail = []) \/
     exists attachedTrytes,
       asTransactionTrytes lib bundles = inr attachedTrytes /\
       (tail = [EvBundleCacheSet bundle (inl e)] \/
        exists before t after,
          transactionItems attachedTrytes bundles = before ++ t :: after /\
          tail = EvBundleCacheSet bundle (inr tt) ::
                 map cached before ++ [EvTransactionCacheSet t (inl e)])).
Proof.
  intros Hin Hres Hs bundles bundle.
  destruct (from_submission_elem_of _ _ _ _ _ (log_sorted lib sv cfg req w) Hin) as [tail Hfs].
  pose proof (every_path_sound _ _ sv w (after_submission lib cfg req)) as H.
  cbv beta in H. specialize (H _ _ _ _ _ Hfs). cbv iota in H. fold bundles in H.
  rewrite Hres in H.
  destruct (asTransactionTrytes lib bundles) as [e|attached] eqn:Hconv.
  - destruct H as [-> [= ->]]. exists e, []. split; [done|]. split; [done|]. by left.
  - destruct H as (r & tail' & -> & Hr). destruct r as [e|[]].
    + destruct Hr as [-> [= ->]]. exists e. eexists. split; [done|]. split; [done|].
      right. exists attached. split; [done|]. by left.
    + destruct Hr as [[_ (resp' & [= <-] & Hs')]|(before & t & after & e & Hi & -> & [= ->])];
        [congruence|].
      exists e. eexists. split; [done|]. split; [done|].
      right. exists attached. split; [done|]. right. by exists before, t, after.
Qed.

(** The example request when the transactions the ledger returns cannot
    be converted to trytes: nothing is cached; and when the transaction
    cache refuses writes. *)
Lemma failure_after_submission_witness :
  (exists e tail,
    {| success := false; message := "Error: Invalid trytes";
       transactionHash := None; ipfs := None |} =
    {| success := false; message := toString e; transactionHash := None; ipfs := None |} /\
    from_submission (log Demo.up (ipfsStore Faults.unconvertible Demo.config Demo.request)
                       Demo.used) =
      EvSendTrytes [Faults.encoded] 3 9 (inr [Faults.attached]) :: tail /\
    ((asTransactionTrytes Faults.unconvertible [Faults.attached] = inl e /\ tail = []) \/
     exists attachedTrytes,
       asTransactionTrytes Faults.unconvertible [Faults.attached] = inr attachedTrytes /\
       (tail = [EvBundleCacheSet {| bundle_id := "BUNDLE";
                                    transactionHashes := map tx_hash [Faults.attached] |}
                  (inl e)] \/
        exists before t after,
          transactionItems attachedTrytes [Faults.attached] = before ++ t :: after /\
          tail = EvBundleCacheSet {| bundle_id := "BUNDLE";
                                     transactionHashes := map tx_hash [Faults.attached] |}
                   (inr tt) ::
                 map cached before ++ [EvTransactionCacheSet t (inl e)]))) /\
  (exists e tail,
    {| success := false; message := "Error: Requested resource not found";
       transactionHash := None; ipfs := None |} =
    {| success := false; message := toString e; transactionHash := None; ipfs := None |} /\
    from_submission (log Faults.cache_down (ipfsStore Demo.lib Demo.config Demo.request)
                       Demo.used) =
      EvSendTrytes [Faults.encoded] 3 9 (inr [Faults.attached]) :: tail /\
    ((asTransactionTrytes Demo.lib [Faults.attached] = inl e /\ tail = []) \/
     exists attachedTrytes,
       asTransactionTrytes Demo.lib [Faults.attached] = inr attachedTrytes /\
       (tail = [EvBundleCacheSet {| bundle_id := "BUNDLE";
                                    transactionHashes := map tx_hash [Faults.attached] |}
                  (inl e)] \/
        exists before t after,
          transactionItems attachedTrytes [Faults.attached] = before ++ t :: after /\
          tail = EvBundleCacheSet {| bundle_id := "BUNDLE";
                                     transactionHashes := map tx_hash [Faults.attached] |}
                   (inr tt) ::
                 map cached before ++ [EvTransactionCacheSet t (inl e)]))).
Proof.
  split.
  - apply (failure_after_accepted_submission Faults.unconvertible Demo.up Demo.config
             Demo.request Demo.used [Faults.encoded] 3 9 Faults.attached []
             {| success := false; message := "Error: Invalid trytes";
                transactionHash := None; ipfs := None |}).
    + do 5 apply list_elem_of_further. apply list_elem_of_here.
    + reflexivity.
    + reflexivity.
  - apply (failure_after_accepted_submission Demo.lib Faults.cache_down Demo.config
             Demo.request Demo.used [Faults.encoded] 3 9 Faults.attached []
             {| success := false; message := "Error: Requested resource not found";
                transactionHash := None; ipfs := None |}).
    + do 5 apply list_elem_of_further. apply list_elem_of_here.
    + reflexivity.
    + reflexivity.
Defined.

(** ** The request as a whole *)

(** X14. The calls of one request follow the order of the text: of two
    calls of its log, the later one is a later call of the text (probe,
    content-store write, read of the state, seed generation, write of the
    state, prepareTransfers, sendTrytes, bundle cache write, transaction
    cache writes), or both are transaction cache writes of the loop.
    Two calls of the log at the same place of the text are writes of the
    loop: each other call is made at most once, there is no retry. *)
Theorem calls_follow_the_order_of_the_text lib sv cfg req w i j a b :
  log sv (ipfsStore lib cfg req) w !! i = Some a ->
  log sv (ipfsStore lib cfg req) w !! j = Some b ->
  (i < j)%nat ->
  call_order a b /\ (stage a = stage b -> stage a = 8%nat).
Proof.
  intros Hi Hj Hij.
  pose proof (StronglySorted_lookup _ _ _ _ _ _ (log_sorted lib sv cfg req w) Hi Hj Hij) as Ho.
  split; [done|]. destruct Ho as [?|[? _]]; [lia|done].
Qed.

(** The example request when the stored index is 5: its fourth call and
    its sixth. *)
Lemma call_order_witness :
  call_order (EvStateSet Faults.sixth (inr tt))
    (EvSendTrytes [Faults.encoded] 3 9 (inr [Faults.attached])).
Proof.
  apply (proj1 (calls_follow_the_order_of_the_text Demo.lib Demo.up Demo.config Demo.request
                  Demo.used 3 5 _ _ eq_refl eq_refl ltac:(lia))).
Defined.

(** X15. When a call fails, it is the last call the route makes and
    every call before it succeeded: the route answers success=false with
    that failure's string and attempts nothing further, neither a retry
    nor a call that would undo what the calls before it did.  The table
    it leaves is the one its successful writes made. *)
Theorem failed_call_is_the_last lib sv cfg req w ev e :
  ev ∈ log sv (ipfsStore lib cfg req) w -> failure ev = Some e ->
  fst (run sv (ipfsStore lib cfg req) w) =
    inr {| success := false; message := toString e;
           transactionHash := None; ipfs := None |} /\
  exists pre,
    log sv (ipfsStore lib cfg req) w = pre ++ [ev] /\
    Forall (fun a => failure a = None) pre /\
    stateTable (snd (run sv (ipfsStore lib cfg req) w)) = replay pre (stateTable w).
Proof.
  intros Hin Hf. destruct (failed_call lib sv cfg req w ev e Hin Hf) as (Hres & pre & Hlog & Hpre).
  split; [done|]. exists pre. split; [done|]. split; [done|].
  rewrite run_table, Hlog. by eapply replay_failed.
Qed.

(** The example request while the ledger refuses the submission. *)
Lemma failed_call_witness :
  fst (run Demo.ledger_down (ipfsStore Demo.lib Demo.config Demo.request) Demo.used) =
    inr {| success := false; message := "Error: Request Error: 503";
           transactionHash := None; ipfs := None |} /\
  exists pre,
    log Demo.ledger_down (ipfsStore Demo.lib Demo.config Demo.request) Demo.used =
      pre ++ [EvSendTrytes [Faults.encoded] 3 9 (inl (new_Error "Request Error: 503"))] /\
    Forall (fun a => failure a = None) pre /\
    stateTable (snd (run Demo.ledger_down (ipfsStore Demo.lib Demo.config Demo.request)
                       Demo.used)) = replay pre (stateTable Demo.used).
Proof.
  apply (failed_call_is_the_last Demo.lib Demo.ledger_down Demo.config Demo.request Demo.used
           (EvSendTrytes [Faults.encoded] 3 9 (inl (new_Error "Request Error: 503")))
           (new_Error "Request Error: 503")).
  - do 5 apply list_elem_of_further. apply list_elem_of_here.
  - reflexivity.
Defined.



(** ** Requests in flight together, whatever the schedule *)

Section Guarded.

Context (R : option IState -> Prop) (W : IState -> Prop).

Lemma guarded_lift {A} (r : Result A) : guarded R W (lift r).
Proof. by destruct r. Qed.

Lemma guarded_bind {A B} (p : Prog A) (f : A -> Prog B) :
  guarded R W p -> (forall a, guarded R W (f a)) -> guarded R W (bind p f).
Proof.
  intros Hp Hf. induction p as [a|e|X c k IH]; simpl in *; [auto|done|].
  destruct Hp as [Hc Hk]. split; [done|]. intros r Hr. apply IH, Hk, Hr.
Qed.

Lemma guarded_try_catch {A} (p : Prog A) (h : Exn -> Prog A) :
  guarded R W p -> (forall e, guarded R W (h e)) -> guarded R W (try_catch p h).
Proof.
  intros Hp Hh. induction p as [a|e|X c k IH]; simpl in *; [done|auto|].
  destruct Hp as [Hc Hk]. split; [done|]. intros r Hr. apply IH, Hk, Hr.
Qed.

Lemma guarded_await {X} (c : Ext X) : call_guard W c -> guarded R W (await c).
Proof. intros Hc. simpl. split; [done|]. by intros [e|x] _. Qed.

Lemma guarded_for_each {A} (l : list A) body :
  (forall x, guarded R W (body x)) -> guarded R W (for_each l body).
Proof.
  intros Hb. induction l as [|x l IH]; simpl; [done|].
  apply guarded_bind; auto.
Qed.

Hypothesis first_write :
  R None -> forall s, W {| seed := s; id := "default"; addressIndex := 0 |}.
Hypothesis next_write : forall st, R (Some st) ->
  W {| seed := seed st; id := id st; addressIndex := addressIndex st + 1 |}.

Lemma guarded_allocate : guarded R W allocate.
Proof.
  unfold allocate. simpl. split; [done|]. intros [e|[st|]] Hr; simpl; [done| |].
  - split; [by apply next_write|]. by intros [e|[]] _.
  - split; [done|]. intros [e|s] _; simpl; [done|].
    split; [by apply first_write|]. by intros [e|[]] _.
Qed.

Lemma guarded_ipfsStore lib cfg req : guarded R W (ipfsStore lib cfg req).
Proof.
  unfold ipfsStore. apply guarded_try_catch; [|done].
  unfold ipfsStore_try.
  destruct (validate_lift lib req) as [rv ->].
  destruct (checkSize_lift (Buffer_from_base64 lib (req_data req))) as [rs Hs].
  destruct (checkHash_lift lib req (Buffer_from_base64 lib (req_data req))) as [rh Hh].
  destruct (makeIpfsConfig_lift lib cfg) as [rc Hc].
  cbv zeta. rewrite Hs, Hh, Hc.
  unfold addToIpfs, anchor, populateCache.
  repeat first
    [ apply guarded_lift | apply guarded_allocate | apply guarded_await; exact I
    | apply guarded_for_each; intros ?
    | apply guarded_bind; [|intros ?]
    | progress lazy zeta
    | exact I
    | case_match ].
Qed.

Context (J : gmap string (string * Z) -> Prop).
Hypothesis J_read : forall tbl, J tbl -> R (table_get tbl "default").
Hypothesis J_write : forall tbl st, J tbl -> W st -> J (table_set st tbl).

(** An invariant of the table that the guarded writes preserve holds
    after any number of turns, and every state written in between
    satisfies [W]. *)
Lemma interleave_guarded {A} sv schedule (tasks : list (Prog A)) w :
  Forall (guarded R W) tasks -> J (stateTable w) ->
  J (stateTable (snd (interleave sv schedule tasks w))) /\
  exists evs,
    trace (snd (interleave sv schedule tasks w)) = trace w ++ evs /\
    Forall W (allocations evs).
Proof.
  revert tasks w. induction schedule as [|i schedule IH]; intros tasks w Ht HJ; simpl.
  { split; [done|]. exists []. by rewrite app_nil_r. }
  destruct (tasks !! i) as [p|] eqn:Hi; [|by apply IH].
  pose proof (Forall_lookup_1 _ _ _ _ Ht Hi) as Hp.
  destruct p as [a|e|X c k]; simpl.
  - rewrite list_insert_id by done. by apply IH.
  - rewrite list_insert_id by done. by apply IH.
  - destruct Hp as [Hc Hk].
    assert (read_guard R c (handle sv w c)) as Hr.
    { destruct c; simpl in *; try done. subst key.
      destruct (stateService_get_fails sv w "default"); [done|]. by apply J_read. }
    destruct (IH (<[ i := k (handle sv w c) ]> tasks) (effect w c (handle sv w c)))
      as (HJ' & evs & Htr & Hal).
    + apply Forall_insert; auto.
    + simpl. destruct c; simpl in *; try done.
      destruct (stateService_set_fails sv w st); [done|]. by apply J_write.
    + split; [done|]. exists (event_of c (handle sv w c) :: evs). split.
      * rewrite Htr. simpl. by rewrite <- app_assoc.
      * destruct c; simpl in *; try done.
        destruct (stateService_set_fails sv w st); [done|]. by constructor.
Qed.

End Guarded.

(** X17. Requests in flight together, with their calls interleaved in
    any order: when a state [old] is stored under "default" at the moment
    they start, a state is stored under "default" when the schedule ends,
    with the seed of [old] and an index that is not below the index of
    [old]; every state the requests persist has the id "default", that
    seed and an index above the index of [old]; and no other key of the
    table is touched.  The bound is the index stored at the start, not
    the highest index handed out before: an index above the stored one
    that an earlier request was given can be given again. *)
Theorem overlapping_requests_keep_the_seed lib sv cfg reqs schedule w old :
  table_get (stateTable w) "default" = Some old ->
  let w' := snd (interleave sv schedule (map (ipfsStore lib cfg) reqs) w) in
  (exists new,
     table_get (stateTable w') "default" = Some new /\
     seed new = seed old /\ addressIndex old <= addressIndex new) /\
  (exists evs,
     trace w' = trace w ++ evs /\
     Forall (fun st => id st = "default" /\ seed st = seed old /\
                       addressIndex old < addressIndex st) (allocations evs)) /\
  (forall key, key <> "default" -> stateTable w' !! key = stateTable w !! key).
Proof.
  intros Hold w'.
  set (R := fun v : option IState =>
    exists st, v = Some st /\ id st = "default" /\ seed st = seed old /\
      addressIndex old <= addressIndex st).
  set (W := fun st : IState =>
    id st = "default" /\ seed st = seed old /\ addressIndex old < addressIndex st).
  set (J := fun tbl : gmap string (string * Z) =>
    R (table_get tbl "default") /\
    forall key, key <> "default" -> tbl !! key = stateTable w !! key).
  assert (R None -> forall s, W {| seed := s; id := "default"; addressIndex := 0 |}) as H1.
  { by intros (st & ? & _). }
  assert (forall st, R (Some st) ->
    W {| seed := seed st; id := id st; addressIndex := addressIndex st + 1 |}) as H2.
  { intros st (st' & [= <-] & ? & ? & ?). unfold W. simpl. split; [done|]. split; [done|lia]. }
  destruct (interleave_guarded R W J (fun tbl HJ => proj1 HJ)) with
    (sv := sv) (schedule := schedule) (tasks := map (ipfsStore lib cfg) reqs) (w := w)
    as ([(new & Hnew & _ & Hseed & Hidx) Hkeys] & evs & Htr & Hal).
  - intros tbl st [_ Hk] (Hid & Hs & Hi). split.
    + exists st. rewrite (table_get_set_default _ _ Hid). split; [done|].
      split; [done|]. split; [done|lia].
    + intros key Hkey. unfold table_set. rewrite Hid, lookup_insert_ne by done. auto.
  - apply Forall_forall. intros p Hin. apply list_elem_of_fmap in Hin as (req & -> & _).
    by apply guarded_ipfsStore.
  - split; [|done]. exists old. split; [done|]. split; [|split; [done|lia]].
    by eapply table_get_id.
  - split; [by exists new|]. split; [by exists evs|]. done.
Qed.

(** Three example requests when the stored index is 5, the first one
    suspended between its read and its write while the two others run:
    the index goes from 7 back to 6, but not below 5. *)
Lemma overlapping_requests_witness :
  (exists new,
     table_get (stateTable (snd (interleave Demo.up (Demo.stale ++ [0%nat]) Demo.three
                                   Demo.used))) "default" = Some new /\
     seed new = "SEED" /\ 5 <= addressIndex new) /\
  (exists evs,
     trace (snd (interleave Demo.up (Demo.stale ++ [0%nat]) Demo.three Demo.used)) =
       trace Demo.used ++ evs /\
     Forall (fun st => id st = "default" /\ seed st = "SEED" /\ 5 < addressIndex st)
       (allocations evs)) /\
  stateTable (snd (interleave Demo.up (Demo.stale ++ [0%nat]) Demo.three Demo.used)) !! "other" =
    stateTable Demo.used !! "other".
Proof.
  destruct (overlapping_requests_keep_the_seed Demo.lib Demo.up Demo.config
              [Demo.request; Demo.request; Demo.request] (Demo.stale ++ [0%nat]) Demo.used
              {| seed := "SEED"; id := "default"; addressIndex := 5 |} eq_refl)
    as (Hnew & Hevs & Hkeys).
  split; [exact Hnew|]. split; [exact Hevs|]. apply Hkeys. discriminate.
Defined.

(** ** C2: the allocation step *)

(** The log of a sequence is the log of its first part followed, when that
    part returns, by the log of the rest. *)
Lemma log_bind {A B} sv (p : Prog A) (f : A -> Prog B) w :
  log sv (bind p f) w =
  log sv p w ++
  match run sv p w with
  | (inl _, _) => []
  | (inr a, w') => log sv (f a) w'
  end.
Proof.
  revert w. induction p as [a|e|X c k IH]; intros w; simpl; [done..|].
  by rewrite IH.
Qed.

(** The allocation step, outcome by outcome: the read of the state fails;
    or nothing is stored and the seed generation fails; or the state to
    store is computed and written, and the step returns it exactly when the
    write succeeds.  The table changes only by that successful write. *)
Lemma allocate_outcomes tbl :
  every_path_from tbl allocate (fun evs res tbl' =>
    let stored := table_get tbl "default" in
    (exists e, evs = [EvStateGet "default" (inl e)] /\ res = inl e /\ tbl' = tbl) \/
    (exists e, stored = None /\
       evs = [EvStateGet "default" (inr None); EvGenerateHash (inl e)] /\
       res = inl e /\ tbl' = tbl) \/
    (exists st r,
       match stored with
       | Some old =>
           st = {| seed := seed old; id := "default"; addressIndex := addressIndex old + 1 |} /\
           evs = [EvStateGet "default" (inr (Some old)); EvStateSet st r]
       | None =>
           id st = "default" /\ addressIndex st = 0 /\
           evs = [EvStateGet "default" (inr None); EvGenerateHash (inr (seed st));
                  EvStateSet st r]
       end /\
       match r with
       | inl e => res = inl e /\ tbl' = tbl
       | inr _ => res = inr st /\ tbl' = table_set st tbl
       end)).
Proof.
  unfold allocate. walk_from.
  all: cbv zeta.
  all: repeat match goal with
       | H : ?o = table_get _ _ |- _ => symmetry in H
       | H : ?o = Some _, H' : table_get _ _ = ?o |- _ => rewrite H in H'
       | H : ?o = None, H' : table_get _ _ = ?o |- _ => rewrite H in H'
       end.
  all: try (left; eexists; done).
  all: try (right; left; eexists; done).
  all: right; right.
  all: match goal with H : table_get _ _ = _ |- _ => rewrite H end.
  all: try (pose proof (table_get_id _ _ _ ltac:(eassumption)) as Hid).
  all: match goal with |- context [EvStateSet ?st ?r :: []] => exists st, r end.
  all: simpl; split; [|split; reflexivity].
  all: subst; simpl; try done.
  all: rewrite ?Hid; done.
Qed.

Lemma allocate_run sv w :
  let stored := table_get (stateTable w) "default" in
  let evs := log sv allocate w in
  let res := fst (run sv allocate w) in
  let tbl' := stateTable (snd (run sv allocate w)) in
  (exists e, evs = [EvStateGet "default" (inl e)] /\ res = inl e /\ tbl' = stateTable w) \/
  (exists e, stored = None /\
     evs = [EvStateGet "default" (inr None); EvGenerateHash (inl e)] /\
     res = inl e /\ tbl' = stateTable w) \/
  (exists st r,
     match stored with
     | Some old =>
         st = {| seed := seed old; id := "default"; addressIndex := addressIndex old + 1 |} /\
         evs = [EvStateGet "default" (inr (Some old)); EvStateSet st r]
     | None =>
         id st = "default" /\ addressIndex st = 0 /\
         evs = [EvStateGet "default" (inr None); EvGenerateHash (inr (seed st));
                EvStateSet st r]
     end /\
     match r with
     | inl e => res = inl e /\ tbl' = stateTable w
     | inr _ => res = inr st /\ tbl' = table_set st (stateTable w)
     end).
Proof. exact (every_path_from_sound _ _ sv w (allocate_outcomes (stateTable w))). Qed.

(** The calls after the allocation step, lines 114-157: none of them is
    on the allocation state; when the derivation of the address throws no
    call is made; otherwise every transfer goes to the address derived from
    the allocated state. *)
Lemma transfers_after_allocation lib cfg req ipfsHash st :
  every_path
    (bundles <- anchor lib cfg req ipfsHash st ;;
     txHashes <- populateCache lib bundles ;;
     Ret {| success := true; message := "OK";
            transactionHash := head txHashes; ipfs := ipfsHash |})
    (fun evs res =>
       Forall (fun ev => (4 < stage ev)%nat) evs /\
       match generateAddress lib (seed st) (addressIndex st) 2 with
       | inl e => evs = [] /\ res = inl e
       | inr a =>
           Forall (fun ev =>
             match ev with
             | EvPrepareTransfers _ transfers _ =>
                 exists msg, transfers = [ {| address := a; value := 0; tmessage := msg |} ]
             | _ => True
             end) evs
       end).
Proof.
  unfold anchor, populateCache.
  destruct (generateAddress lib (seed st) (addressIndex st) 2) as [e|a]; simpl.
  { split; [constructor|done]. }
  walk_whole.
  all: rewrite ?app_nil_r.
  all: split; each_call; simpl; eauto; lia.
Qed.

Local Opaque allocate.

(** The route up to and after the allocation step, once the content store
    has answered. *)
Lemma route_runs_allocation lib sv cfg req w files :
  added (log sv (ipfsStore lib cfg req) w) = Some files ->
  exists b c post,
    let buffer := Buffer_from_base64 lib (req_data req) in
    let w1 := effect (effect w (IsNodeAvailable (node_provider cfg) true) (inr b))
                (IpfsAdd c buffer) (inr files) in
    log sv (ipfsStore lib cfg req) w =
      EvIsNodeAvailable (node_provider cfg) (inr b) ::
      EvIpfsAdd c buffer (inr files) ::
      log sv allocate w1 ++ post /\
    match fst (run sv allocate w1) with
    | inl e =>
        post = [] /\
        fst (run sv (ipfsStore lib cfg req) w) =
          inr {| success := false; message := toString e;
                 transactionHash := None; ipfs := None |}
    | inr st =>
        stateTable (snd (run sv (ipfsStore lib cfg req) w)) =
          stateTable (snd (run sv allocate w1)) /\
        match generateAddress lib (seed st) (addressIndex st) 2 with
        | inl e =>
            post = [] /\
            fst (run sv (ipfsStore lib cfg req) w) =
              inr {| success := false; message := toString e;
                     transactionHash := None; ipfs := None |}
        | inr a =>
            forall sd transfers r, EvPrepareTransfers sd transfers r ∈ post ->
              exists msg, transfers = [ {| address := a; value := 0; tmessage := msg |} ]
        end
    end.
Proof.
  unfold ipfsStore, ipfsStore_try. intros Ha.
  destruct (validate_lift lib req) as [[e|[]] Hv]; rewrite Hv in *; simpl in Ha |- *;
    [discriminate|].
  destruct (isNodeAvailable sv w (node_provider cfg) true) as [e|b]; simpl in Ha |- *;
    [discriminate|].
  destruct (checkSize_lift (Buffer_from_base64 lib (req_data req))) as [[e|[]] Hs];
    rewrite Hs in *; simpl in Ha |- *; [discriminate|].
  destruct (checkHash_lift lib req (Buffer_from_base64 lib (req_data req))) as [[e|[]] Hh];
    rewrite Hh in *; simpl in Ha |- *; [discriminate|].
  destruct (makeIpfsConfig_lift lib cfg) as [[e|c] Hc];
    rewrite Hc in *; simpl in Ha |- *; [discriminate|].
  unfold addToIpfs in *. simpl in Ha |- *.
  destruct (ipfs_add sv _ c (Buffer_from_base64 lib (req_data req))) as [e|files'];
    simpl in Ha |- *; [discriminate|].
  injection Ha as ->.
  exists b, c. rewrite log_try_catch, log_bind, run_try_catch, run_bind.
  set (w1 := effect (effect w (IsNodeAvailable (node_provider cfg) true) (inr b))
               (IpfsAdd c (Buffer_from_base64 lib (req_data req))) (inr files)).
  destruct (run sv allocate w1) as [[e|st] w2] eqn:Hrun; simpl.
  { exists []. by rewrite !app_nil_r. }
  match goal with |- context [run sv ?p w2] => set (rest := p) end.
  pose proof (every_path_sound _ _ sv w2
    (transfers_after_allocation lib cfg req (last files) st)) as [Hstage Haddr].
  fold rest in Hstage, Haddr.
  exists (log sv rest w2). split.
  { do 2 f_equal. rewrite <- app_assoc. f_equal.
    destruct (run sv rest w2) as [[e|resp] w3]; simpl; by rewrite app_nil_r. }
  assert (stateTable (snd (run sv rest w2)) = stateTable w2) as Htbl.
  { rewrite run_table. apply replay_no_allocations, no_write_before_persist.
    eapply Forall_impl; [exact Hstage|]. simpl. lia. }
  split.
  { destruct (run sv rest w2) as [[e|resp] w3]; simpl in *; done. }
  destruct (generateAddress lib (seed st) (addressIndex st) 2) as [e|a].
  - destruct Haddr as [Hnil Hres]. split; [done|].
    destruct (run sv rest w2) as [[e'|resp] w3]; simpl in *; congruence.
  - intros sd transfers r Hin.
    exact (proj1 (Forall_forall _ _) Haddr _ Hin).
Qed.

(** C2. The allocation step (lines 101-112), on every table and whatever
    the collaborators answer.  It first reads the state stored under
    "default".  When none is stored, it asks [TrytesHelper.generateHash]
    for a seed and writes the state with that seed and index 0; otherwise
    it writes the stored state with its index incremented by exactly one
    and the seed unchanged.  It returns that state exactly when
    [StateService.set] succeeded on it, and the table then holds it under
    "default"; when the read, the seed generation or the write fails, the
    step throws that error and the table is unchanged.  In the route, once
    the content store has answered, the calls of the allocation step come
    next and every later call after them; when the step throws, the route
    makes no further call and answers with a failure; when it returns a
    state, that state is stored at the end of the request, also when the
    derivation of the address from its seed and index then throws, and
    every [prepareTransfers], which signs for the address, has one
    transfer to the address derived from that seed and index.  Every call
    to [prepareTransfers] comes after one successful write of the
    allocation state, at a moment when the table holds that state. *)
Theorem C2_allocation_step lib sv cfg req w :
  (let stored := table_get (stateTable w) "default" in
   let evs := log sv allocate w in
   let res := fst (run sv allocate w) in
   let tbl' := stateTable (snd (run sv allocate w)) in
   (exists e, evs = [EvStateGet "default" (inl e)] /\ res = inl e /\ tbl' = stateTable w) \/
   (exists e, stored = None /\
      evs = [EvStateGet "default" (inr None); EvGenerateHash (inl e)] /\
      res = inl e /\ tbl' = stateTable w) \/
   (exists st r,
      match stored with
      | Some old =>
          st = {| seed := seed old; id := "default"; addressIndex := addressIndex old + 1 |} /\
          evs = [EvStateGet "default" (inr (Some old)); EvStateSet st r]
      | None =>
          id st = "default" /\ addressIndex st = 0 /\
          evs = [EvStateGet "default" (inr None); EvGenerateHash (inr (seed st));
                 EvStateSet st r]
      end /\
      match r with
      | inl e => res = inl e /\ tbl' = stateTable w
      | inr _ => res = inr st /\ table_get tbl' "default" = Some st
      end)) /\
  (forall files,
     added (log sv (ipfsStore lib cfg req) w) = Some files ->
     exists b c post,
       let buffer := Buffer_from_base64 lib (req_data req) in
       let w1 := effect (effect w (IsNodeAvailable (node_provider cfg) true) (inr b))
                   (IpfsAdd c buffer) (inr files) in
       log sv (ipfsStore lib cfg req) w =
         EvIsNodeAvailable (node_provider cfg) (inr b) ::
         EvIpfsAdd c buffer (inr files) ::
         log sv allocate w1 ++ post /\
       match fst (run sv allocate w1) with
       | inl e =>
           post = [] /\
           fst (run sv (ipfsStore lib cfg req) w) =
             inr {| success := false; message := toString e;
                    transactionHash := None; ipfs := None |}
       | inr st =>
           table_get (stateTable (snd (run sv (ipfsStore lib cfg req) w))) "default" =
             Some st /\
           match generateAddress lib (seed st) (addressIndex st) 2 with
           | inl e =>
               post = [] /\
               fst (run sv (ipfsStore lib cfg req) w) =
                 inr {| success := false; message := toString e;
                        transactionHash := None; ipfs := None |}
           | inr a =>
               forall sd transfers r, EvPrepareTransfers sd transfers r ∈ post ->
                 exists msg, transfers = [ {| address := a; value := 0; tmessage := msg |} ]
           end
       end) /\
  (forall pre sd transfers r post,
     log sv (ipfsStore lib cfg req) w = pre ++ EvPrepareTransfers sd transfers r :: post ->
     exists st a msg,
       allocations pre = [st] /\
       next_state (table_get (stateTable w) "default")
         (generated (log sv (ipfsStore lib cfg req) w)) st /\
       table_get (replay pre (stateTable w)) "default" = Some st /\
       generateAddress lib (seed st) (addressIndex st) 2 = inr a /\
       transfers = [ {| address := a; value := 0; tmessage := msg |} ]).
Proof.
  assert (forall w0 st,
    fst (run sv allocate w0) = inr st ->
    table_get (stateTable (snd (run sv allocate w0))) "default" = Some st) as Hheld.
  { intros w0 st Hres.
    destruct (allocate_run sv w0) as [(e & _ & He & _)|[(e & _ & _ & He & _)|
      (st' & r & Hst & Hr)]]; [congruence..|].
    destruct r as [e|u]; destruct Hr as [Hr ->]; [congruence|].
    rewrite Hres in Hr. injection Hr as <-. apply table_get_set_default.
    destruct (table_get (stateTable w0) "default"); [by destruct Hst as [-> _]|by destruct Hst]. }
  split; [|split].
  - destruct (allocate_run sv w) as [H|[H|(st & r & Hst & Hr)]]; [by left|by right; left|].
    right; right. exists st, r. split; [done|].
    destruct r as [e|u]; [done|]. destruct Hr as [Hr Ht]. split; [done|]. by apply Hheld.
  - intros files Ha.
    destruct (route_runs_allocation lib sv cfg req w files Ha) as (b & c & post & Hlog & Hm).
    exists b, c, post. cbv zeta in *. split; [done|].
    destruct (run sv allocate _) as [[e|st] w2] eqn:Hrun; simpl in *; [done|].
    destruct Hm as [Htbl Hm]. split; [|done].
    rewrite Htbl. replace w2 with (snd (run sv allocate
      (effect (effect w (IsNodeAvailable (node_provider cfg) true) (inr b))
         (IpfsAdd c (Buffer_from_base64 lib (req_data req))) (inr files))))
      by (by rewrite Hrun).
    apply Hheld. by rewrite Hrun.
  - intros pre sd transfers r post Hlog.
    pose proof (every_path_from_sound _ _ sv w
      (allocation_paths lib cfg req (stateTable w))) as H.
    cbv beta in H. rewrite Hlog in H |- *.
    rewrite allocations_app, prepared_app in H. simpl in H.
    destruct H as [(_ & _ & Hp)|(st & Ha & _ & Hid & Hn & Hup & Hts)].
    { by destruct (prepared pre). }
    destruct (Hts transfers) as (a & msg & Hga & ->).
    { apply elem_of_app. right. left. }
    exists st, a, msg.
    assert (allocations pre = [st]) as Hpre.
    { destruct (allocations pre) as [|st' l] eqn:Hal.
      - rewrite until_persist_app in Hup by done. rewrite prepared_app in Hup.
        simpl in Hup. by destruct (prepared pre).
      - simpl in Ha. injection Ha as -> Ha. by apply app_eq_nil in Ha as [-> _]. }
    split; [done|]. split; [done|]. split; [|done].
    rewrite (replay_single _ _ _ Hpre). by apply table_get_set_default.
Qed.

Local Transparent allocate.
(** The allocation step on a table holding another seed at index 41, on
    the empty table, and when the table refuses the write; the example
    request when the derivation of the address throws; and the example
    request when the stored index is 5: the write of index 6 is the
    fourth call, the transfer the fifth. *)
Lemma C2_witness :
  (log Demo.up allocate Faults.elsewhere =
     [EvStateGet "default"
        (inr (Some {| seed := "OTHER"; id := "default"; addressIndex := 41 |}));
      EvStateSet {| seed := "OTHER"; id := "default"; addressIndex := 42 |} (inr tt)] /\
   fst (run Demo.up allocate Faults.elsewhere) =
     inr {| seed := "OTHER"; id := "default"; addressIndex := 42 |} /\
   table_get (stateTable (snd (run Demo.up allocate Faults.elsewhere))) "default" =
     Some {| seed := "OTHER"; id := "default"; addressIndex := 42 |}) /\
  (log Demo.up allocate Demo.fresh =
     [EvStateGet "default" (inr None); EvGenerateHash (inr "SEED");
      EvStateSet {| seed := "SEED"; id := "default"; addressIndex := 0 |} (inr tt)] /\
   fst (run Demo.up allocate Demo.fresh) =
     inr {| seed := "SEED"; id := "default"; addressIndex := 0 |} /\
   table_get (stateTable (snd (run Demo.up allocate Demo.fresh))) "default" =
     Some {| seed := "SEED"; id := "default"; addressIndex := 0 |}) /\
  (log Faults.table_down allocate Demo.used =
     [EvStateGet "default"
        (inr (Some {| seed := "SEED"; id := "default"; addressIndex := 5 |}));
      EvStateSet Faults.sixth (inl (new_Error "Requested resource not found"))] /\
   fst (run Faults.table_down allocate Demo.used) =
     inl (new_Error "Requested resource not found") /\
   stateTable (snd (run Faults.table_down allocate Demo.used)) = stateTable Demo.used) /\
  (EvStateSet Faults.sixth (inr tt) ∈
     log Demo.up (ipfsStore Faults.underivable Demo.config Demo.request) Demo.used /\
   table_get (stateTable (snd (run Demo.up
     (ipfsStore Faults.underivable Demo.config Demo.request) Demo.used))) "default" =
     Some Faults.sixth /\
   fst (run Demo.up (ipfsStore Faults.underivable Demo.config Demo.request) Demo.used) =
     inr {| success := false; message := "Error: Invalid seed provided";
            transactionHash := None; ipfs := None |}) /\
  (exists st a msg,
    allocations (take 4 (log Demo.up (ipfsStore Demo.lib Demo.config Demo.request) Demo.used))
      = [st] /\
    next_state (table_get (stateTable Demo.used) "default")
      (generated (log Demo.up (ipfsStore Demo.lib Demo.config Demo.request) Demo.used)) st /\
    table_get (replay (take 4 (log Demo.up (ipfsStore Demo.lib Demo.config Demo.request) Demo.used))
                 (stateTable Demo.used)) "default" = Some st /\
    generateAddress Demo.lib (seed st) (addressIndex st) 2 = inr a /\
    [ {| address := "ADDRESS9SEED9AAAAAA"; value := 0;
         tmessage := "TRYTES9" +:+ Demo.sha256_hello |} ] =
    [ {| address := a; value := 0; tmessage := msg |} ]).
Proof.
  split; [|split; [|split; [|split]]].
  - pose proof (proj1 (C2_allocation_step Demo.lib Demo.up Demo.config Demo.request
      Faults.elsewhere)) as H0. cbv zeta in H0.
    destruct H0 as [(e & H & _)|[(e & H & _)|(st & r & Hst & Hr)]];
      [discriminate H..|].
    vm_compute in Hst. destruct Hst as [-> Hl]. injection Hl as <-. destruct Hr as [Hr Ht].
    split; [reflexivity|]. split; [exact Hr|exact Ht].
  - pose proof (proj1 (C2_allocation_step Demo.lib Demo.up Demo.config Demo.request
      Demo.fresh)) as H0. cbv zeta in H0.
    destruct H0 as [(e & H & _)|[(e & _ & H & _)|(st & r & Hst & Hr)]];
      [discriminate H..|].
    vm_compute in Hst. destruct Hst as (_ & _ & Hl). injection Hl as _ <- <-.
    destruct Hr as [Hr Ht].
    split; [reflexivity|]. split; [exact Hr|exact Ht].
  - pose proof (proj1 (C2_allocation_step Demo.lib Faults.table_down Demo.config Demo.request
      Demo.used)) as H0. cbv zeta in H0.
    destruct H0 as [(e & H & _)|[(e & H & _)|(st & r & Hst & Hr)]];
      [discriminate H..|].
    vm_compute in Hst. destruct Hst as [-> Hl]. injection Hl as <-. destruct Hr as [Hr Ht].
    split; [reflexivity|]. split; [exact Hr|exact Ht].
  - pose proof (proj1 (proj2 (C2_allocation_step Faults.underivable Demo.up Demo.config
      Demo.request Demo.used)) ["QmHello"] eq_refl) as H0. cbv zeta in H0.
    destruct H0 as (b & c & post & Hlog & Hst & Hpost & Hres).
    split; [|split; [exact Hst|exact Hres]].
    rewrite Hlog. do 3 right. left.
  - apply (proj2 (proj2 (C2_allocation_step Demo.lib Demo.up Demo.config Demo.request
      Demo.used))
      (take 4 (log Demo.up (ipfsStore Demo.lib Demo.config Demo.request) Demo.used))
      (repeat_string "9" 81)
      [ {| address := "ADDRESS9SEED9AAAAAA"; value := 0;
           tmessage := "TRYTES9" +:+ Demo.sha256_hello |} ]
      (inr ["TRYTES9" +:+ Demo.sha256_hello])
      (drop 5 (log Demo.up (ipfsStore Demo.lib Demo.config Demo.request) Demo.used))).
    vm_compute. reflexivity.
Defined.
